(** * sBBST-AVL: the AVL tree of [main.cpp], embedded over an explicit heap

    The C++ program keeps its nodes in dynamically allocated memory, shares a
    process-wide [root] pointer between the caller and [deleteNode], and
    rewires right-child pointers in place during [kSmallest].  The embedding
    therefore models the heap: nodes live in a finite map from addresses to
    records, pointers are optional addresses, and every member function is a
    computation over the machine state.  A dereference of [nullptr] or of a
    freed node is undefined behaviour in C++ and is reported as [Undefined].
    Recursion and loops take a fuel argument, so that the embedding stays
    executable on cyclic heaps, where the source does not terminate.

    [int] is modelled by [Z]: keys are only compared, and the counters are
    bounded by the number of nodes. *)

From Stdlib Require Import ZArith Lia List Sorted.
From stdpp Require Import gmap list sorting strings.

Local Open Scope Z_scope.

#[local] Set Warnings "-clear-no-such-hyp".

(** ** Machine model *)

Abbreviation addr := positive.

(** [None] is [nullptr]. *)
Abbreviation ptr := (option addr).

(** [struct tree_node]. *)
Record tree_node := mk_node {
  value : Z;
  left : ptr;
  right : ptr
}.

(** The heap, the global [root] and the [elements] field of the one
    [avl_tree] object. *)
Record state := mk_state {
  mem : gmap addr tree_node;
  root : ptr;
  elements : Z
}.

Inductive outcome (A : Type) : Type :=
| Done (a : A)
| InvalidArgument
| Undefined
| OutOfFuel.

Arguments Done {A} a.
Arguments InvalidArgument {A}.
Arguments Undefined {A}.
Arguments OutOfFuel {A}.

Definition M (A : Type) : Type := state -> outcome (A * state).

Definition ret {A} (a : A) : M A := fun s => Done (a, s).

Definition bind {A B} (m : M A) (k : A -> M B) : M B :=
  fun s =>
    match m s with
    | Done (a, s') => k a s'
    | InvalidArgument => InvalidArgument
    | Undefined => Undefined
    | OutOfFuel => OutOfFuel
    end.

Notation "'do' x <- m ; k" := (bind m (fun x => k))
  (at level 10, x name, m at level 100, k at level 200).
Notation "'run' m ; k" := (bind m (fun _ => k))
  (at level 10, m at level 100, k at level 200).

Definition throw_invalid_argument {A} : M A := fun _ => InvalidArgument.
Definition undefined {A} : M A := fun _ => Undefined.
Definition out_of_fuel {A} : M A := fun _ => OutOfFuel.

(** [*p]: reading through a null or dangling pointer is undefined. *)
Definition get_node (p : ptr) : M tree_node :=
  fun s =>
    match p with
    | None => Undefined
    | Some a =>
        match mem s !! a with
        | Some n => Done (n, s)
        | None => Undefined
        end
    end.

Definition put_node (p : ptr) (f : tree_node -> tree_node) : M unit :=
  fun s =>
    match p with
    | None => Undefined
    | Some a =>
        match mem s !! a with
        | Some n => Done (tt, mk_state (<[a := f n]> (mem s)) (root s) (elements s))
        | None => Undefined
        end
    end.

(** [p->value = v], [p->left = q], [p->right = q]. *)
Definition set_value (p : ptr) (v : Z) : M unit :=
  put_node p (fun n => mk_node v (left n) (right n)).
Definition set_left (p q : ptr) : M unit :=
  put_node p (fun n => mk_node (value n) q (right n)).
Definition set_right (p q : ptr) : M unit :=
  put_node p (fun n => mk_node (value n) (left n) q).

(** The allocator hands out an address that is not in use. *)
Definition alloc (h : gmap addr tree_node) : addr := fresh (dom h).

(** [new node] followed by the three field initialisations of [insert]. *)
Definition new_node (v : Z) : M ptr :=
  fun s =>
    let a := alloc (mem s) in
    Done (Some a, mk_state (<[a := mk_node v None None]> (mem s)) (root s) (elements s)).

(** [free(p)]: the source releases with [free] a node that it obtained with
    [new]; the model takes this as the release of the node.  [free(nullptr)]
    does nothing, and a second release of the same node is undefined. *)
Definition free (p : ptr) : M unit :=
  fun s =>
    match p with
    | None => Done (tt, s)
    | Some a =>
        match mem s !! a with
        | Some _ => Done (tt, mk_state (delete a (mem s)) (root s) (elements s))
        | None => Undefined
        end
    end.

Definition get_root : M ptr := fun s => Done (root s, s).
Definition set_root (p : ptr) : M unit :=
  fun s => Done (tt, mk_state (mem s) p (elements s)).
Definition get_elements : M Z := fun s => Done (elements s, s).
Definition set_elements (e : Z) : M unit :=
  fun s => Done (tt, mk_state (mem s) (root s) e).

Definition INT_MIN : Z := -2147483648.

(** ** The member functions of [avl_tree] *)

Fixpoint height (fuel : nat) (tree : ptr) : M Z :=
  match tree with
  | None => ret 0
  | Some _ =>
      match fuel with
      | O => out_of_fuel
      | S fuel =>
          do n <- get_node tree;
          do left_height <- height fuel (left n);
          do right_height <- height fuel (right n);
          let max_height := Z.max left_height right_height in
          ret (max_height + 1)
      end
  end.

Definition difference (fuel : nat) (tree : ptr) : M Z :=
  do n <- get_node tree;
  do left_height <- height fuel (left n);
  do right_height <- height fuel (right n);
  ret (left_height - right_height).

Fixpoint numNodes (fuel : nat) (tree : ptr) : M Z :=
  match tree with
  | None => ret 0
  | Some _ =>
      match fuel with
      | O => out_of_fuel
      | S fuel =>
          do n <- get_node tree;
          do l <- numNodes fuel (left n);
          do r <- numNodes fuel (right n);
          ret (1 + l + r)
      end
  end.

Fixpoint numNodesSmallerThan (fuel : nat) (tree : ptr) (x : Z) : M Z :=
  match tree with
  | None => ret 0
  | Some _ =>
      match fuel with
      | O => out_of_fuel
      | S fuel =>
          do n <- get_node tree;
          if value n =? x then numNodes fuel (left n)
          else if value n <? x then
            do l <- numNodes fuel (left n);
            do r <- numNodesSmallerThan fuel (right n) x;
            ret (1 + l + r)
          else numNodesSmallerThan fuel (left n) x
      end
  end.

Fixpoint numNodesGreaterThan (fuel : nat) (tree : ptr) (x : Z) : M Z :=
  match tree with
  | None => ret 0
  | Some _ =>
      match fuel with
      | O => out_of_fuel
      | S fuel =>
          do n <- get_node tree;
          if value n =? x then numNodes fuel (right n)
          else if value n >? x then
            do r <- numNodes fuel (right n);
            do l <- numNodesGreaterThan fuel (left n) x;
            ret (1 + r + l)
          else numNodesGreaterThan fuel (right n) x
      end
  end.

Definition getNumElements : M Z := get_elements.

(** The inner loop of [kSmallest]:
    [while (pre->right != nullptr && pre->right != curr) pre = pre->right;] *)
Fixpoint find_pre (fuel : nat) (curr pre : ptr) : M ptr :=
  match fuel with
  | O => out_of_fuel
  | S fuel =>
      do p <- get_node pre;
      match right p with
      | None => ret pre
      | Some _ =>
          if decide (right p = curr) then ret pre
          else find_pre fuel curr (right p)
      end
  end.

(** The outer loop of [kSmallest]; [n] bounds each run of the inner loop. *)
Fixpoint kSmallest_loop (n fuel : nat) (k : Z) (curr : ptr) (count ksmall : Z)
  : M Z :=
  match curr with
  | None => ret ksmall
  | Some _ =>
      match fuel with
      | O => out_of_fuel
      | S fuel =>
          do c <- get_node curr;
          match left c with
          | None =>
              let count := count + 1 in
              let ksmall := if count =? k then value c else ksmall in
              kSmallest_loop n fuel k (right c) count ksmall
          | Some _ =>
              do pre <- find_pre n curr (left c);
              do p <- get_node pre;
              match right p with
              | None =>
                  run set_right pre curr;
                  do c <- get_node curr;
                  kSmallest_loop n fuel k (left c) count ksmall
              | Some _ =>
                  run set_right pre None;
                  let count := count + 1 in
                  do c <- get_node curr;
                  let ksmall := if count =? k then value c else ksmall in
                  kSmallest_loop n fuel k (right c) count ksmall
              end
          end
      end
  end.

Definition kSmallest (fuel : nat) (rootNode : ptr) (k : Z) : M Z :=
  do e <- get_elements;
  if (k <? 1) || (k >? e) then throw_invalid_argument
  else kSmallest_loop fuel fuel k rootNode 0 INT_MIN.

Definition rr_rotation (parent : ptr) : M ptr :=
  do p <- get_node parent;
  let temp := right p in
  do t <- get_node temp;
  run set_right parent (left t);
  run set_left temp parent;
  ret temp.

Definition ll_rotation (parent : ptr) : M ptr :=
  do p <- get_node parent;
  let temp := left p in
  do t <- get_node temp;
  run set_left parent (right t);
  run set_right temp parent;
  ret temp.

Definition lr_rotation (parent : ptr) : M ptr :=
  do p <- get_node parent;
  let temp := left p in
  do t <- rr_rotation temp;
  run set_left parent t;
  ll_rotation parent.

Definition rl_rotation (parent : ptr) : M ptr :=
  do p <- get_node parent;
  let temp := right p in
  do t <- ll_rotation temp;
  run set_right parent t;
  rr_rotation parent.

Definition balance (fuel : nat) (tree : ptr) : M ptr :=
  do balance_factor <- difference fuel tree;
  if balance_factor >? 1 then
    do n <- get_node tree;
    do d <- difference fuel (left n);
    if d >? 0 then ll_rotation tree else lr_rotation tree
  else if balance_factor <? -1 then
    do n <- get_node tree;
    do d <- difference fuel (right n);
    if d >? 0 then rl_rotation tree else rr_rotation tree
  else ret tree.

Fixpoint insert (fuel : nat) (rootNode : ptr) (v : Z) : M ptr :=
  match fuel with
  | O => out_of_fuel
  | S fuel =>
      match rootNode with
      | None =>
          do rootNode <- new_node v;
          do e <- get_elements;
          run set_elements (e + 1);
          ret rootNode
      | Some _ =>
          do n <- get_node rootNode;
          if v <? value n then
            do l <- insert fuel (left n) v;
            run set_left rootNode l;
            balance fuel rootNode
          else if v >? value n then
            do r <- insert fuel (right n) v;
            run set_right rootNode r;
            balance fuel rootNode
          else ret rootNode
      end
  end.

(** [while (current && current->left != nullptr) current = current->left;] *)
Fixpoint minValueNode (fuel : nat) (current : ptr) : M ptr :=
  match current with
  | None => ret current
  | Some _ =>
      match fuel with
      | O => out_of_fuel
      | S fuel =>
          do c <- get_node current;
          match left c with
          | None => ret current
          | Some _ => minValueNode fuel (left c)
          end
      end
  end.

(** [deleteNode] tests and reads the global [root] where the local
    [rootNode] would be expected, returns from the zero- and one-child cases
    before [elements] is decremented, and drops the result of [balance]. *)
Fixpoint deleteNode (fuel : nat) (rootNode : ptr) (v : Z) : M ptr :=
  match fuel with
  | O => out_of_fuel
  | S fuel =>
      do rt <- get_root;
      match rt with
      | None => ret rt
      | Some _ =>
          do n <- get_node rootNode;
          if v <? value n then
            do l <- deleteNode fuel (left n) v;
            run set_left rootNode l;
            do _ <- balance fuel rootNode;
            ret rootNode
          else if v >? value n then
            do r <- deleteNode fuel (right n) v;
            run set_right rootNode r;
            do _ <- balance fuel rootNode;
            ret rootNode
          else
            match left n with
            | None =>
                do g <- get_node rt;
                let temp := right g in
                run free rootNode;
                ret temp
            | Some _ =>
                match right n with
                | None =>
                    do g <- get_node rt;
                    let temp := left g in
                    run free rootNode;
                    ret temp
                | Some _ =>
                    do temp <- minValueNode fuel (right n);
                    do t <- get_node temp;
                    run set_value rootNode (value t);
                    do n' <- get_node rootNode;
                    do t' <- get_node temp;
                    do r <- deleteNode fuel (right n') (value t');
                    run set_right rootNode r;
                    do e <- get_elements;
                    run set_elements (e - 1);
                    do _ <- balance fuel rootNode;
                    ret rootNode
                end
            end
      end
  end.

Fixpoint search (fuel : nat) (tree : ptr) (v : Z) : M ptr :=
  match tree with
  | None => ret None
  | Some _ =>
      match fuel with
      | O => out_of_fuel
      | S fuel =>
          do n <- get_node tree;
          if value n =? v then ret tree
          else if value n >? v then search fuel (left n) v
          else search fuel (right n) v
      end
  end.

(** ** The public operations *)

(** Modelled from the spec: [insert(value)] and [delete(value)] of the public
    surface.  [main] of the source is a stub, so no caller of the member
    functions is present; as the spec describes, the operation runs the member
    function on the process-wide [root] and rebinds [root] to the returned
    pointer. *)
Definition op_insert (fuel : nat) (v : Z) : M unit :=
  do r <- get_root;
  do p <- insert fuel r v;
  set_root p.

Definition op_delete (fuel : nat) (v : Z) : M unit :=
  do r <- get_root;
  do p <- deleteNode fuel r v;
  set_root p.

Definition op_kSmallest (fuel : nat) (k : Z) : M Z :=
  do r <- get_root;
  kSmallest fuel r k.

Definition op_countSmallerThan (fuel : nat) (x : Z) : M Z :=
  do r <- get_root;
  numNodesSmallerThan fuel r x.

Definition op_countGreaterThan (fuel : nat) (x : Z) : M Z :=
  do r <- get_root;
  numNodesGreaterThan fuel r x.

Definition op_search (fuel : nat) (x : Z) : M ptr :=
  do r <- get_root;
  search fuel r x.

(** The constructor: [root = nullptr; elements = 0]. *)
Definition init : state := mk_state ∅ None 0.

Inductive op := Insert (v : Z) | Delete (v : Z).

Definition exec (fuel : nat) (o : op) : M unit :=
  match o with
  | Insert v => op_insert fuel v
  | Delete v => op_delete fuel v
  end.

Fixpoint exec_all (fuel : nat) (os : list op) : M unit :=
  match os with
  | [] => ret tt
  | o :: os => run exec fuel o; exec_all fuel os
  end.

(** ** Abstract trees

    A heap that holds a proper tree is described by an inductive tree whose
    nodes carry their address. *)

Inductive tree : Type :=
| Leaf
| Node (l : tree) (a : addr) (v : Z) (r : tree).

(** The pointer to a tree, where the pointer to the empty tree is [nxt]. *)
Definition next_ptr (t : tree) (nxt : ptr) : ptr :=
  match t with
  | Leaf => nxt
  | Node _ a _ _ => Some a
  end.

Definition tree_root (t : tree) : ptr := next_ptr t None.

Fixpoint addrs (t : tree) : list addr :=
  match t with
  | Leaf => []
  | Node l a _ r => addrs l ++ a :: addrs r
  end.

Fixpoint inorder (t : tree) : list Z :=
  match t with
  | Leaf => []
  | Node l _ v r => inorder l ++ v :: inorder r
  end.

Fixpoint tree_height (t : tree) : Z :=
  match t with
  | Leaf => 0
  | Node l _ _ r => Z.max (tree_height l) (tree_height r) + 1
  end.

Fixpoint depth (t : tree) : nat :=
  match t with
  | Leaf => O
  | Node l _ _ r => S (Nat.max (depth l) (depth r))
  end.

Definition tree_difference (t : tree) : Z :=
  match t with
  | Leaf => 0
  | Node l _ _ r => tree_height l - tree_height r
  end.

Definition tree_size (t : tree) : Z := Z.of_nat (length (inorder t)).

(** [linked h t nxt]: the heap [h] holds the nodes of [t], and the right
    pointer of the last node of [t] in order is [nxt]. *)
Fixpoint linked (h : gmap addr tree_node) (t : tree) (nxt : ptr) : Prop :=
  match t with
  | Leaf => True
  | Node l a v r =>
      h !! a = Some (mk_node v (tree_root l) (next_ptr r nxt))
      /\ linked h l None /\ linked h r nxt
  end.

Definition stored (h : gmap addr tree_node) (t : tree) : Prop := linked h t None.

(** BST order and AVL balance at every node. *)
Fixpoint bst (t : tree) : Prop :=
  match t with
  | Leaf => True
  | Node l _ v r =>
      Forall (fun x => x < v) (inorder l) /\ Forall (fun x => v < x) (inorder r)
      /\ bst l /\ bst r
  end.

Fixpoint avl (t : tree) : Prop :=
  match t with
  | Leaf => True
  | Node l _ _ r =>
      -1 <= tree_height l - tree_height r <= 1 /\ avl l /\ avl r
  end.

(** The state holds the tree [t] at [root]. *)
Definition represents (s : state) (t : tree) : Prop :=
  root s = tree_root t /\ NoDup (addrs t) /\ stored (mem s) t.

(** The last node of a non-empty tree in order. *)
Fixpoint rightmost (t : tree) (d : addr) : addr :=
  match t with
  | Leaf => d
  | Node _ a _ r => rightmost r a
  end.

(** Iterations of the outer loop of [kSmallest] on a tree: one for a node
    without left child, two otherwise. *)
Fixpoint visits (t : tree) : nat :=
  match t with
  | Leaf => O
  | Node l _ _ r =>
      match l with
      | Leaf => S (visits r)
      | Node _ _ _ _ => S (visits l + S (visits r))
      end
  end.

(** What the traversal leaves in [ksmall] after the keys [l], the counter
    being [count] before. *)
Fixpoint scan (k count ksmall : Z) (l : list Z) : Z :=
  match l with
  | [] => ksmall
  | x :: l => scan k (count + 1) (if count + 1 =? k then x else ksmall) l
  end.

(** What the rotations, [balance] and [insert] do to the tree that the heap
    holds; [new] is the address that the allocator hands out for the leaf. *)
Definition tree_rr_rotation (t : tree) : tree :=
  match t with
  | Node l a v (Node rl b w rr) => Node (Node l a v rl) b w rr
  | _ => t
  end.

Definition tree_ll_rotation (t : tree) : tree :=
  match t with
  | Node (Node ll b w lr) a v r => Node ll b w (Node lr a v r)
  | _ => t
  end.

Definition tree_lr_rotation (t : tree) : tree :=
  match t with
  | Node l a v r => tree_ll_rotation (Node (tree_rr_rotation l) a v r)
  | Leaf => Leaf
  end.

Definition tree_rl_rotation (t : tree) : tree :=
  match t with
  | Node l a v r => tree_rr_rotation (Node l a v (tree_ll_rotation r))
  | Leaf => Leaf
  end.

Definition tree_balance (t : tree) : tree :=
  match t with
  | Leaf => Leaf
  | Node l _ _ r =>
      if tree_difference t >? 1 then
        if tree_difference l >? 0 then tree_ll_rotation t
        else tree_lr_rotation t
      else if tree_difference t <? -1 then
        if tree_difference r >? 0 then tree_rl_rotation t
        else tree_rr_rotation t
      else t
  end.

Fixpoint tree_insert (new : addr) (t : tree) (v : Z) : tree :=
  match t with
  | Leaf => Node Leaf new v Leaf
  | Node l a x r =>
      if v <? x then tree_balance (Node (tree_insert new l v) a x r)
      else if v >? x then tree_balance (Node l a x (tree_insert new r v))
      else t
  end.

(** The invariants of the data model on a state. *)
Definition invariant (s : state) : Prop :=
  exists t, represents s t /\ bst t /\ avl t /\ elements s = tree_size t.

(** [s'] differs from [s] at most in the nodes at the addresses [dom]. *)
Definition frame_outside (s s' : state) (dom : list addr) : Prop :=
  root s' = root s
  /\ forall x, x ∉ dom -> mem s' !! x = mem s !! x.

(** The state with its heap replaced. *)
Definition with_mem (s : state) (h : gmap addr tree_node) : state :=
  mk_state h (root s) (elements s).

(** A computation that raises no exception. *)
Definition no_throw {A} (m : M A) : Prop := forall s, m s <> InvalidArgument.

(** The state after the seven inserts 5, 3, 8, 1, 4, 7, 9 and the tree it
    holds; no rotation occurs on the way. *)
Definition seven_keys : list op :=
  [Insert 5; Insert 3; Insert 8; Insert 1; Insert 4; Insert 7; Insert 9].

Definition seven_state : state :=
  match exec_all 8 seven_keys init with
  | Done (_, s) => s
  | _ => init
  end.

Definition seven_tree : tree :=
  Node (Node (Node Leaf 4 1 Leaf) 2 3 (Node Leaf 5 4 Leaf))
       1 5
       (Node (Node Leaf 6 7 Leaf) 3 8 (Node Leaf 7 9 Leaf)).

(** A left-heavy node as [insert] meets it after 30, 20, 10 and before
    [balance] runs: 30 over 20 over 10. *)
Definition left_chain_state : state :=
  mk_state
    (<[1%positive := mk_node 30 (Some 2%positive) None]>
       (<[2%positive := mk_node 20 (Some 3%positive) None]>
          (<[3%positive := mk_node 10 None None]> ∅)))
    (Some 1%positive) 3.

Definition left_chain_tree : tree :=
  Node (Node (Node Leaf 3 10 Leaf) 2 20 Leaf) 1 30 Leaf.


(** A heap in which the node of 40 has the left child 20, with the children
    10 and 30, and no right child. *)
Definition left_heavy_state : state :=
  mk_state
    (<[1%positive := mk_node 40 (Some 2%positive) None]>
       (<[2%positive := mk_node 20 (Some 3%positive) (Some 4%positive)]>
          (<[3%positive := mk_node 10 None None]>
             (<[4%positive := mk_node 30 None None]> ∅))))
    (Some 1%positive) 4.

(** The state that the inserts of 5 and 3 and the delete of 3 leave: the
    tree holds 5 alone and [elements] is still 2. *)
Definition stale_count_state : state :=
  mk_state (<[1%positive := mk_node 5 None None]> ∅) (Some 1%positive) 2.

(** The state after the inserts 5, 3, 8 and the tree it holds. *)
Definition three_state : state :=
  mk_state
    (<[1%positive := mk_node 5 (Some 2%positive) (Some 3%positive)]>
       (<[2%positive := mk_node 3 None None]>
          (<[3%positive := mk_node 8 None None]> ∅)))
    (Some 1%positive) 3.

Definition three_tree : tree :=
  Node (Node Leaf 2 3 Leaf) 1 5 (Node Leaf 3 8 Leaf).

(** ** The printing functions

    What a function sends to [cout], in order: an [int] or a string
    literal.  The four functions only read the heap, so that each node is
    read once. *)
Inductive out : Type :=
| OutInt (z : Z)
| OutStr (s : string).

Module Print.

Fixpoint show (fuel : nat) (position : ptr) (level : Z) : M (list out) :=
  match position with
  | None => ret []
  | Some _ =>
      match fuel with
      | O => out_of_fuel
      | S fuel =>
          do n <- get_node position;
          do above <- show fuel (right n) (level + 1);
          do rt <- get_root;
          let mark :=
            if decide (position = rt) then [OutStr "Root -> "%string] else [] in
          let indent :=
            if decide (position = rt) then []
            else replicate (Z.to_nat level) (OutStr " "%string) in
          do below <- show fuel (left n) (level + 1);
          ret (above ++ [OutStr " "%string] ++ mark ++ indent
                 ++ [OutInt (value n)] ++ below)
      end
  end.

Fixpoint inorder (fuel : nat) (tree : ptr) : M (list out) :=
  match tree with
  | None => ret []
  | Some _ =>
      match fuel with
      | O => out_of_fuel
      | S fuel =>
          do n <- get_node tree;
          do l <- inorder fuel (left n);
          do r <- inorder fuel (right n);
          ret (l ++ [OutInt (value n); OutStr " "%string] ++ r)
      end
  end.

Fixpoint preorder (fuel : nat) (tree : ptr) : M (list out) :=
  match tree with
  | None => ret []
  | Some _ =>
      match fuel with
      | O => out_of_fuel
      | S fuel =>
          do n <- get_node tree;
          do l <- preorder fuel (left n);
          do r <- preorder fuel (right n);
          ret ([OutInt (value n); OutStr " "%string] ++ l ++ r)
      end
  end.

Fixpoint postorder (fuel : nat) (tree : ptr) : M (list out) :=
  match tree with
  | None => ret []
  | Some _ =>
      match fuel with
      | O => out_of_fuel
      | S fuel =>
          do n <- get_node tree;
          do l <- postorder fuel (left n);
          do r <- postorder fuel (right n);
          ret (l ++ r ++ [OutInt (value n); OutStr " "%string])
      end
  end.

End Print.

(** The numbers in an output, and the number of root marks. *)
Fixpoint out_ints (o : list out) : list Z :=
  match o with
  | [] => []
  | OutInt z :: o => z :: out_ints o
  | OutStr _ :: o => out_ints o
  end.

Fixpoint root_marks (o : list out) : nat :=
  match o with
  | [] => O
  | OutStr s :: o =>
      if String.eqb s "Root -> "%string then S (root_marks o) else root_marks o
  | OutInt _ :: o => root_marks o
  end.

(** A key followed by a blank, as the three traversals print it. *)
Definition key_blank (v : Z) : list out := [OutInt v; OutStr " "%string].

Fixpoint tree_preorder (t : tree) : list Z :=
  match t with
  | Leaf => []
  | Node l _ v r => v :: tree_preorder l ++ tree_preorder r
  end.

Fixpoint tree_postorder (t : tree) : list Z :=
  match t with
  | Leaf => []
  | Node l _ v r => tree_postorder l ++ tree_postorder r ++ [v]
  end.
(** ** Basic facts *)

Lemma state_eta (s : state) : mk_state (mem s) (root s) (elements s) = s.
Proof. by destruct s. Qed.

Lemma bind_done {A B} (m : M A) (k : A -> M B) s a s' :
  m s = Done (a, s') -> bind m k s = k a s'.
Proof. unfold bind. by intros ->. Qed.

Lemma bind_undefined {A B} (m : M A) (k : A -> M B) s :
  m s = Undefined -> bind m k s = Undefined.
Proof. unfold bind. by intros ->. Qed.

Lemma get_node_live s a n :
  mem s !! a = Some n -> get_node (Some a) s = Done (n, s).
Proof. unfold get_node. by intros ->. Qed.

(** One step of a computation whose result is known. *)
Ltac step_with H := rewrite (bind_done _ _ _ _ _ H).
Ltac read_node H := rewrite (bind_done _ _ _ _ _ (get_node_live _ _ _ H)).

Lemma set_right_live s a n q :
  mem s !! a = Some n ->
  set_right (Some a) q s
  = Done (tt, mk_state (<[a := mk_node (value n) (left n) q]> (mem s))
                (root s) (elements s)).
Proof. unfold set_right, put_node. by intros ->. Qed.

Lemma set_left_live s a n q :
  mem s !! a = Some n ->
  set_left (Some a) q s
  = Done (tt, mk_state (<[a := mk_node (value n) q (right n)]> (mem s))
                (root s) (elements s)).
Proof. unfold set_left, put_node. by intros ->. Qed.

Lemma tree_height_depth t : tree_height t = Z.of_nat (depth t).
Proof. induction t as [|l IHl a v r IHr]; simpl; lia. Qed.

Lemma tree_height_nonneg t : 0 <= tree_height t.
Proof. rewrite tree_height_depth. lia. Qed.

Lemma length_addrs t : length (addrs t) = length (inorder t).
Proof.
  induction t as [|l IHl a v r IHr]; simpl; [done|].
  rewrite !length_app. simpl. lia.
Qed.

Lemma depth_le_size t : (depth t <= length (inorder t))%nat.
Proof.
  induction t as [|l IHl a v r IHr]; simpl; [done|].
  rewrite length_app. simpl. lia.
Qed.

Lemma visits_le t : (visits t <= 2 * length (inorder t))%nat.
Proof.
  induction t as [|l IHl a v r IHr]; simpl; [done|].
  rewrite length_app. simpl. destruct l; simpl in *; lia.
Qed.

Lemma linked_frame h h' t nxt :
  linked h t nxt ->
  (forall x, x ∈ addrs t -> h' !! x = h !! x) ->
  linked h' t nxt.
Proof.
  revert nxt. induction t as [|l IHl a v r IHr]; simpl; [done|].
  intros nxt (Ha & Hl & Hr) Hsame. split_and!.
  - rewrite Hsame; [done|]. set_solver.
  - apply IHl; [done|]. intros x Hx. apply Hsame. set_solver.
  - apply IHr; [done|]. intros x Hx. apply Hsame. set_solver.
Qed.

Lemma rightmost_in l a v r : rightmost (Node l a v r) a ∈ addrs (Node l a v r).
Proof.
  revert l a v. induction r as [|rl _ b w rr IH]; intros l a v; simpl.
  - set_solver.
  - specialize (IH rl b w). simpl in IH. set_solver.
Qed.

Lemma rightmost_node l a v r d : rightmost (Node l a v r) d = rightmost (Node l a v r) a.
Proof. done. Qed.

(** The last node holds the thread. *)
Lemma linked_rightmost h l a v r nxt :
  linked h (Node l a v r) nxt ->
  exists w pl, h !! rightmost (Node l a v r) a = Some (mk_node w pl nxt).
Proof.
  revert l a v. induction r as [|rl _ b w rr IH]; intros l a v; simpl.
  - intros (Ha & _ & _). eauto.
  - intros (_ & _ & Hr). apply (IH rl b w). exact Hr.
Qed.

(** Rewriting the right pointer of the last node changes the thread only. *)
Lemma linked_thread h l a v r nxt nxt' n :
  NoDup (addrs (Node l a v r)) ->
  linked h (Node l a v r) nxt ->
  h !! rightmost (Node l a v r) a = Some n ->
  linked (<[rightmost (Node l a v r) a := mk_node (value n) (left n) nxt']> h)
    (Node l a v r) nxt'.
Proof.
  revert l a v. induction r as [|rl _ b w rr IH]; intros l a v Hnd Hlk Hn.
  - simpl in *. destruct Hlk as (Ha & Hl & _). rewrite Ha in Hn.
    injection Hn as <-. simpl. rewrite lookup_insert_eq. split_and!; [done| |done].
    apply (linked_frame h); [done|]. intros x Hx.
    apply lookup_insert_ne. apply NoDup_app in Hnd as (_ & Hnd & _).
    intros ->. apply (Hnd _ Hx). set_solver.
  - change (rightmost (Node l a v (Node rl b w rr)) a)
      with (rightmost (Node rl b w rr) b) in *.
    destruct Hlk as (Ha & Hl & Hr).
    pose proof (rightmost_in rl b w rr) as Hin.
    apply NoDup_app in Hnd as (Hndl & Hdisj & Hndr).
    apply NoDup_cons in Hndr as (Har & Hndr).
    cbn [linked]. split; [|split].
    + rewrite lookup_insert_ne; [done|]. intros Heq. apply Har.
      rewrite <- Heq. exact Hin.
    + apply (linked_frame h); [done|]. intros x Hx.
      apply lookup_insert_ne. intros Heq. apply (Hdisj _ Hx).
      rewrite <- Heq. set_solver.
    + apply IH; done.
Qed.

(** ** The threaded traversal of [kSmallest] *)

Lemma with_mem_id s : with_mem s (mem s) = s.
Proof. apply state_eta. Qed.

(** The inner loop stops on the last node of the left subtree, whether its
    right pointer is still null or already threaded to [curr]. *)
Lemma find_pre_rightmost s curr r :
  forall n l a v nxt,
    linked (mem s) (Node l a v r) nxt ->
    nxt = None \/ nxt = curr ->
    (forall x, x ∈ addrs (Node l a v r) -> curr <> Some x) ->
    (depth (Node l a v r) <= n)%nat ->
    find_pre n curr (Some a) s = Done (Some (rightmost (Node l a v r) a), s).
Proof.
  induction r as [|rl _ b w rr IH]; intros n l a v nxt Hlk Hnxt Hcur Hn.
  - destruct n as [|n]; [simpl in Hn; lia|].
    destruct Hlk as (Ha & _ & _). simpl in Ha |- *.
    read_node Ha. simpl.
    destruct nxt as [c|]; [|done].
    destruct Hnxt as [|<-]; [done|]. by rewrite decide_True.
  - destruct n as [|n]; [simpl in Hn; lia|].
    destruct Hlk as (Ha & _ & Hr).
    change (find_pre (S n) curr (Some a) s)
      with ((do p <- get_node (Some a);
             match right p with
             | None => ret (Some a)
             | Some _ =>
                 if decide (right p = curr) then ret (Some a)
                 else find_pre n curr (right p)
             end) s).
    read_node Ha.
    cbn [right next_ptr]. rewrite decide_False.
    + apply (IH n rl b w nxt); [done|done| |].
      * intros x Hx. apply Hcur. simpl. set_solver.
      * simpl in Hn |- *. lia.
    + intros Heq. apply (Hcur b); [|done]. simpl. set_solver.
Qed.

Lemma kSmallest_loop_unfold n fuel k a count ksmall :
  kSmallest_loop n (S fuel) k (Some a) count ksmall
  = (do c <- get_node (Some a);
     match left c with
     | None =>
         kSmallest_loop n fuel k (right c) (count + 1)
           (if count + 1 =? k then value c else ksmall)
     | Some _ =>
         do pre <- find_pre n (Some a) (left c);
         do p <- get_node pre;
         match right p with
         | None =>
             run set_right pre (Some a);
             do c <- get_node (Some a);
             kSmallest_loop n fuel k (left c) count ksmall
         | Some _ =>
             run set_right pre None;
             do c <- get_node (Some a);
             kSmallest_loop n fuel k (right c) (count + 1)
               (if count + 1 =? k then value c else ksmall)
         end
     end).
Proof. reflexivity. Qed.

Lemma kSmallest_loop_no_left n fuel k a count ksmall s v pr :
  mem s !! a = Some (mk_node v None pr) ->
  kSmallest_loop n (S fuel) k (Some a) count ksmall s
  = kSmallest_loop n fuel k pr (count + 1)
      (if count + 1 =? k then v else ksmall) s.
Proof.
  intros Ha.
  rewrite kSmallest_loop_unfold.
  by read_node Ha.
Qed.

Lemma kSmallest_loop_thread n fuel k a count ksmall s v b pr p w pl :
  mem s !! a = Some (mk_node v (Some b) pr) ->
  find_pre n (Some a) (Some b) s = Done (Some p, s) ->
  mem s !! p = Some (mk_node w pl None) ->
  p <> a ->
  kSmallest_loop n (S fuel) k (Some a) count ksmall s
  = kSmallest_loop n fuel k (Some b) count ksmall
      (with_mem s (<[p := mk_node w pl (Some a)]> (mem s))).
Proof.
  intros Ha Hpre Hp Hne.
  rewrite kSmallest_loop_unfold.
  read_node Ha. cbn [left].
  step_with Hpre.
  read_node Hp. cbn [right].
  rewrite (bind_done _ _ _ _ _ (set_right_live _ _ _ _ Hp)).
  cbn [value left right].
  assert (mem (with_mem s (<[p := mk_node w pl (Some a)]> (mem s))) !! a
          = Some (mk_node v (Some b) pr)) as Ha'
    by (simpl; by rewrite lookup_insert_ne).
  fold (with_mem s (<[p := mk_node w pl (Some a)]> (mem s))).
  by rewrite (bind_done _ _ _ _ _ (get_node_live _ _ _ Ha')).
Qed.

Lemma kSmallest_loop_unthread n fuel k a count ksmall s v b pr p w pl q :
  mem s !! a = Some (mk_node v (Some b) pr) ->
  find_pre n (Some a) (Some b) s = Done (Some p, s) ->
  mem s !! p = Some (mk_node w pl (Some q)) ->
  p <> a ->
  kSmallest_loop n (S fuel) k (Some a) count ksmall s
  = kSmallest_loop n fuel k pr (count + 1)
      (if count + 1 =? k then v else ksmall)
      (with_mem s (<[p := mk_node w pl None]> (mem s))).
Proof.
  intros Ha Hpre Hp Hne.
  rewrite kSmallest_loop_unfold.
  read_node Ha. cbn [left].
  step_with Hpre.
  read_node Hp. cbn [right].
  rewrite (bind_done _ _ _ _ _ (set_right_live _ _ _ _ Hp)).
  cbn [value left right].
  assert (mem (with_mem s (<[p := mk_node w pl None]> (mem s))) !! a
          = Some (mk_node v (Some b) pr)) as Ha'
    by (simpl; by rewrite lookup_insert_ne).
  fold (with_mem s (<[p := mk_node w pl None]> (mem s))).
  by rewrite (bind_done _ _ _ _ _ (get_node_live _ _ _ Ha')).
Qed.

Lemma scan_app k count ksmall l1 l2 :
  scan k count ksmall (l1 ++ l2)
  = scan k (count + Z.of_nat (length l1)) (scan k count ksmall l1) l2.
Proof.
  revert count ksmall. induction l1 as [|x l1 IH]; intros count ksmall; simpl.
  - f_equal. lia.
  - rewrite IH. f_equal. lia.
Qed.

(** Traversing a subtree whose last node is threaded to [nxt]: the loop
    visits its keys in order, arrives at [nxt], and has put back every
    right pointer it rewired on the way. *)
Lemma kSmallest_loop_tree k t :
  forall s nxt n fuel count ksmall,
    NoDup (addrs t) ->
    linked (mem s) t nxt ->
    (depth t <= n)%nat ->
    kSmallest_loop n (visits t + fuel) k (next_ptr t nxt) count ksmall s
    = kSmallest_loop n fuel k nxt
        (count + Z.of_nat (length (inorder t)))
        (scan k count ksmall (inorder t)) s.
Proof.
  induction t as [|l IHl a v r IHr]; intros s nxt n fuel count ksmall Hnd Hlk Hn.
  - simpl. f_equal. lia.
  - pose proof Hnd as Hnd'.
    apply NoDup_app in Hnd' as (Hndl & Hdisj & Hndr).
    apply NoDup_cons in Hndr as (Har & Hndr).
    pose proof Hlk as (Ha & Hl & Hr).
    assert (depth l <= n /\ depth r <= n)%nat as [Hnl Hnr] by (simpl in Hn; lia).
    destruct l as [|ll b w lr].
    + change (visits (Node Leaf a v r) + fuel)%nat with (S (visits r + fuel)).
      cbn [next_ptr]. rewrite (kSmallest_loop_no_left _ _ _ _ _ _ _ _ _ Ha).
      rewrite (IHr s nxt n fuel _ _ Hndr Hr Hnr).
      cbn [inorder app scan length]. f_equal. lia.
    + replace (visits (Node (Node ll b w lr) a v r) + fuel)%nat
        with (S (visits (Node ll b w lr) + S (visits r + fuel)))
        by (cbn [visits]; lia).
      cbn [next_ptr].
      set (l := Node ll b w lr) in *.
      set (rm := rightmost l b).
      assert (rm ∈ addrs l) as Hrm by apply rightmost_in.
      assert (rm <> a) as Hne.
      { intros ->. apply (Hdisj _ Hrm). set_solver. }
      assert (forall x, x ∈ addrs l -> Some a <> Some x) as Hcur.
      { intros x Hx [= <-]. apply (Hdisj _ Hx). set_solver. }
      destruct (linked_rightmost _ _ _ _ _ _ Hl) as (w' & pl & Hp).
      fold l rm in Hp.
      (* first visit of [a]: thread the predecessor *)
      rewrite (kSmallest_loop_thread n _ k a count ksmall s v b
                 (next_ptr r nxt) rm w' pl Ha); [|
        by apply (find_pre_rightmost s (Some a) lr n ll b w None);
          [exact Hl|left|exact Hcur|exact Hnl] | exact Hp | exact Hne].
      set (s1 := with_mem s (<[rm := mk_node w' pl (Some a)]> (mem s))).
      assert (linked (mem s1) l (Some a)) as Hl1.
      { exact (linked_thread (mem s) ll b w lr None (Some a) _ Hndl Hl Hp). }
      change (Some b) with (next_ptr l (Some a)).
      rewrite (IHl s1 (Some a) n _ count ksmall Hndl Hl1 Hnl).
      (* second visit of [a]: remove the thread *)
      assert (mem s1 !! a = Some (mk_node v (Some b) (next_ptr r nxt))) as Ha1.
      { simpl. by rewrite lookup_insert_ne. }
      assert (mem s1 !! rm = Some (mk_node w' pl (Some a))) as Hp1.
      { simpl. by rewrite lookup_insert_eq. }
      rewrite (kSmallest_loop_unthread n _ k a _ _ s1 v b
                 (next_ptr r nxt) rm w' pl a Ha1); [|
        by apply (find_pre_rightmost s1 (Some a) lr n ll b w (Some a));
          [exact Hl1|right|exact Hcur|exact Hnl] | exact Hp1 | exact Hne].
      assert (with_mem s1 (<[rm := mk_node w' pl None]> (mem s1)) = s) as ->.
      { unfold s1, with_mem. simpl. rewrite insert_insert_eq.
        rewrite (insert_id _ _ _ Hp). apply state_eta. }
      rewrite (IHr s nxt n fuel _ _ Hndr Hr Hnr).
      cbn [inorder]. rewrite scan_app. cbn [scan]. rewrite length_app.
      cbn [length]. f_equal. lia.
Qed.

Lemma scan_past k count ksmall l : k <= count -> scan k count ksmall l = ksmall.
Proof.
  revert count ksmall. induction l as [|x l IH]; intros count ksmall Hk; simpl.
  - done.
  - rewrite IH by lia. destruct (Z.eqb_spec (count + 1) k); [lia|done].
Qed.

Lemma scan_nth k d l :
  forall count ksmall,
    count < k <= count + Z.of_nat (length l) ->
    scan k count ksmall l = nth (Z.to_nat (k - count - 1)) l d.
Proof.
  induction l as [|x l IH]; intros count ksmall Hk; simpl in *.
  - lia.
  - destruct (Z.eqb_spec (count + 1) k) as [<-|Hne].
    + rewrite scan_past by lia.
      by replace (Z.to_nat (count + 1 - count - 1)) with O by lia.
    + rewrite IH by lia.
      replace (Z.to_nat (k - count - 1)) with (S (Z.to_nat (k - (count + 1) - 1)))
        by lia.
      done.
Qed.

(** With fuel for every visit the loop runs to the null cursor, returns the
    value met at the [k]-th visit and leaves the state as it found it. *)
Lemma kSmallest_loop_done s t n fuel k :
  NoDup (addrs t) ->
  stored (mem s) t ->
  (depth t <= n)%nat ->
  (visits t <= fuel)%nat ->
  kSmallest_loop n fuel k (tree_root t) 0 INT_MIN s
  = Done (scan k 0 INT_MIN (inorder t), s).
Proof.
  intros Hnd Hst Hn Hfuel.
  replace fuel with (visits t + (fuel - visits t))%nat by lia.
  unfold tree_root.
  rewrite (kSmallest_loop_tree k t s None n _ 0 INT_MIN Hnd Hst Hn).
  by destruct (fuel - visits t)%nat.
Qed.

Lemma kSmallest_scan s t fuel k :
  NoDup (addrs t) ->
  stored (mem s) t ->
  1 <= k <= elements s ->
  (2 * length (inorder t) <= fuel)%nat ->
  kSmallest fuel (tree_root t) k s = Done (scan k 0 INT_MIN (inorder t), s).
Proof.
  intros Hnd Hst Hk Hfuel. unfold kSmallest.
  rewrite (bind_done _ _ s (elements s) s) by done.
  destruct (Z.ltb_spec k 1); [lia|].
  destruct (Z.gtb_spec k (elements s)); [lia|]. cbn [orb].
  pose proof (depth_le_size t). pose proof (visits_le t).
  by rewrite (kSmallest_loop_done s t) by (done || lia).
Qed.

Lemma kSmallest_tree s t fuel k :
  NoDup (addrs t) ->
  stored (mem s) t ->
  elements s = tree_size t ->
  1 <= k <= elements s ->
  (2 * length (inorder t) <= fuel)%nat ->
  kSmallest fuel (tree_root t) k s
  = Done (nth (Z.to_nat (k - 1)) (inorder t) INT_MIN, s).
Proof.
  intros Hnd Hst He Hk Hfuel.
  rewrite (kSmallest_scan s t fuel k Hnd Hst Hk Hfuel).
  rewrite (scan_nth k INT_MIN) by (unfold tree_size in He; lia).
  do 3 f_equal. lia.
Qed.

(** Outside [1 .. elements] the call throws before it touches the heap. *)
Lemma kSmallest_out_of_range s fuel p k :
  k < 1 \/ k > elements s -> kSmallest fuel p k s = InvalidArgument.
Proof.
  intros Hk. unfold kSmallest.
  rewrite (bind_done _ _ s (elements s) s) by done.
  destruct (Z.ltb_spec k 1); [done|].
  destruct (Z.gtb_spec k (elements s)); [done|lia].
Qed.

Lemma no_throw_bind {A B} (m : M A) (k : A -> M B) :
  no_throw m -> (forall a, no_throw (k a)) -> no_throw (bind m k).
Proof.
  intros Hm Hk s. unfold bind. specialize (Hm s).
  destruct (m s) as [[a s']| | |]; try done. apply Hk.
Qed.

Lemma no_throw_get_node p : no_throw (get_node p).
Proof. intros s. unfold get_node. by repeat case_match. Qed.

Lemma no_throw_put_node p f : no_throw (put_node p f).
Proof. intros s. unfold put_node. by repeat case_match. Qed.

Lemma no_throw_find_pre fuel curr pre : no_throw (find_pre fuel curr pre).
Proof.
  revert pre. induction fuel as [|fuel IH]; intros pre; simpl; [done|].
  apply no_throw_bind; [apply no_throw_get_node|]. intros q.
  destruct (right q); [|done]. by case_decide.
Qed.

Lemma no_throw_kSmallest_loop n fuel k curr count ksmall :
  no_throw (kSmallest_loop n fuel k curr count ksmall).
Proof.
  revert curr count ksmall.
  induction fuel as [|fuel IH]; intros [a|] count ksmall; simpl; try done.
  apply no_throw_bind; [apply no_throw_get_node|]. intros c.
  destruct (left c) as [b|]; [|apply IH].
  apply no_throw_bind; [apply no_throw_find_pre|]. intros pre.
  apply no_throw_bind; [apply no_throw_get_node|]. intros q.
  destruct (right q) as [b'|].
  - apply no_throw_bind; [apply no_throw_put_node|]. intros _.
    apply no_throw_bind; [apply no_throw_get_node|]. intros c'. apply IH.
  - apply no_throw_bind; [apply no_throw_put_node|]. intros _.
    apply no_throw_bind; [apply no_throw_get_node|]. intros c'. apply IH.
Qed.

Lemma kSmallest_throws_iff s fuel p k :
  kSmallest fuel p k s = InvalidArgument <-> k < 1 \/ k > elements s.
Proof.
  split; [|apply kSmallest_out_of_range].
  unfold kSmallest. rewrite (bind_done _ _ s (elements s) s) by done.
  destruct (Z.ltb_spec k 1); [lia|].
  destruct (Z.gtb_spec k (elements s)); [lia|]. cbn [orb].
  intros Hthrow. by apply no_throw_kSmallest_loop in Hthrow.
Qed.

(** With less fuel than visits the loop is still running when the fuel ends:
    [visits] counts the iterations exactly. *)
Lemma kSmallest_loop_short k t :
  forall s nxt n fuel count ksmall,
    NoDup (addrs t) ->
    linked (mem s) t nxt ->
    (depth t <= n)%nat ->
    (fuel < visits t)%nat ->
    kSmallest_loop n fuel k (next_ptr t nxt) count ksmall s = OutOfFuel.
Proof.
  induction t as [|l IHl a v r IHr]; intros s nxt n fuel count ksmall Hnd Hlk Hn Hf.
  - simpl in Hf. lia.
  - pose proof Hnd as Hnd'.
    apply NoDup_app in Hnd' as (Hndl & Hdisj & Hndr).
    apply NoDup_cons in Hndr as (Har & Hndr).
    pose proof Hlk as (Ha & Hl & Hr).
    assert (depth l <= n /\ depth r <= n)%nat as [Hnl Hnr] by (simpl in Hn; lia).
    destruct fuel as [|fuel]; [done|].
    destruct l as [|ll b w lr].
    + cbn [next_ptr]. rewrite (kSmallest_loop_no_left _ _ _ _ _ _ _ _ _ Ha).
      apply IHr; try done. simpl in Hf. lia.
    + cbn [next_ptr].
      set (l := Node ll b w lr) in *.
      set (rm := rightmost l b).
      assert (rm ∈ addrs l) as Hrm by apply rightmost_in.
      assert (rm <> a) as Hne.
      { intros ->. apply (Hdisj _ Hrm). set_solver. }
      assert (forall x, x ∈ addrs l -> Some a <> Some x) as Hcur.
      { intros x Hx [= <-]. apply (Hdisj _ Hx). set_solver. }
      destruct (linked_rightmost _ _ _ _ _ _ Hl) as (w' & pl & Hp).
      fold l rm in Hp.
      rewrite (kSmallest_loop_thread n _ k a count ksmall s v b
                 (next_ptr r nxt) rm w' pl Ha); [|
        by apply (find_pre_rightmost s (Some a) lr n ll b w None);
          [exact Hl|left|exact Hcur|exact Hnl] | exact Hp | exact Hne].
      set (s1 := with_mem s (<[rm := mk_node w' pl (Some a)]> (mem s))).
      assert (linked (mem s1) l (Some a)) as Hl1.
      { exact (linked_thread (mem s) ll b w lr None (Some a) _ Hndl Hl Hp). }
      change (Some b) with (next_ptr l (Some a)).
      destruct (Nat.lt_ge_cases fuel (visits l)) as [Hlt|Hge].
      { by apply IHl. }
      replace fuel with (visits l + (fuel - visits l))%nat by lia.
      rewrite (kSmallest_loop_tree k l s1 (Some a) n _ count ksmall Hndl Hl1 Hnl).
      assert (fuel - visits l < S (visits r))%nat as Hf'.
      { change (visits (Node l a v r)) with (S (visits l + S (visits r))) in Hf.
        lia. }
      destruct (fuel - visits l)%nat as [|fuel']; [done|].
      assert (mem s1 !! a = Some (mk_node v (Some b) (next_ptr r nxt))) as Ha1.
      { simpl. by rewrite lookup_insert_ne. }
      assert (mem s1 !! rm = Some (mk_node w' pl (Some a))) as Hp1.
      { simpl. by rewrite lookup_insert_eq. }
      rewrite (kSmallest_loop_unthread n _ k a _ _ s1 v b
                 (next_ptr r nxt) rm w' pl a Ha1); [|
        by apply (find_pre_rightmost s1 (Some a) lr n ll b w (Some a));
          [exact Hl1|right|exact Hcur|exact Hnl] | exact Hp1 | exact Hne].
      assert (with_mem s1 (<[rm := mk_node w' pl None]> (mem s1)) = s) as ->.
      { unfold s1, with_mem. simpl. rewrite insert_insert_eq.
        rewrite (insert_id _ _ _ Hp). apply state_eta. }
      apply IHr; try done. lia.
Qed.

(** ** The read-only walks on a stored tree *)

Lemma stored_node h l a v r :
  stored h (Node l a v r) ->
  h !! a = Some (mk_node v (tree_root l) (tree_root r))
  /\ stored h l /\ stored h r.
Proof. intros H. exact H. Qed.

Lemma height_tree s t :
  forall fuel,
    stored (mem s) t -> (depth t <= fuel)%nat ->
    height fuel (tree_root t) s = Done (tree_height t, s).
Proof.
  induction t as [|l IHl a v r IHr]; intros fuel Hst Hfuel.
  { by destruct fuel. }
  apply stored_node in Hst as (Ha & Hl & Hr).
  destruct fuel as [|fuel]; [simpl in Hfuel; lia|].
  cbn [depth] in Hfuel. cbn [tree_root next_ptr height].
  read_node Ha. cbn [left right].
  rewrite (bind_done _ _ _ _ _ (IHl fuel Hl ltac:(lia))).
  rewrite (bind_done _ _ _ _ _ (IHr fuel Hr ltac:(lia))).
  done.
Qed.

Lemma difference_tree s l a v r fuel :
  stored (mem s) (Node l a v r) ->
  (depth l <= fuel)%nat -> (depth r <= fuel)%nat ->
  difference fuel (Some a) s = Done (tree_height l - tree_height r, s).
Proof.
  intros Hst Hfl Hfr. apply stored_node in Hst as (Ha & Hl & Hr).
  unfold difference.
  read_node Ha. cbn [left right].
  rewrite (bind_done _ _ _ _ _ (height_tree s l fuel Hl Hfl)).
  rewrite (bind_done _ _ _ _ _ (height_tree s r fuel Hr Hfr)).
  done.
Qed.

Lemma numNodes_tree s t :
  forall fuel,
    stored (mem s) t -> (depth t <= fuel)%nat ->
    numNodes fuel (tree_root t) s = Done (tree_size t, s).
Proof.
  induction t as [|l IHl a v r IHr]; intros fuel Hst Hfuel.
  { by destruct fuel. }
  apply stored_node in Hst as (Ha & Hl & Hr).
  destruct fuel as [|fuel]; [simpl in Hfuel; lia|].
  cbn [depth] in Hfuel. cbn [tree_root next_ptr numNodes].
  read_node Ha. cbn [left right].
  rewrite (bind_done _ _ _ _ _ (IHl fuel Hl ltac:(lia))).
  rewrite (bind_done _ _ _ _ _ (IHr fuel Hr ltac:(lia))).
  unfold ret, tree_size. cbn [inorder]. rewrite length_app. cbn [length].
  do 2 f_equal. lia.
Qed.

(** A node whose balance factor exceeds 1 has a left child, and one whose
    factor is below -1 has a right child. *)
Lemma tree_height_pos_node t :
  0 < tree_height t -> exists l a v r, t = Node l a v r.
Proof. destruct t; simpl; [lia|eauto]. Qed.

Lemma balance_left_heavy s l a v r fuel :
  stored (mem s) (Node l a v r) ->
  (depth (Node l a v r) <= fuel)%nat ->
  tree_height l - tree_height r > 1 ->
  balance fuel (Some a) s
  = if tree_difference l >? 0 then ll_rotation (Some a) s
    else lr_rotation (Some a) s.
Proof.
  intros Hst Hfuel Hbf. cbn [depth] in Hfuel.
  pose proof (tree_height_nonneg r).
  destruct (tree_height_pos_node l) as (ll & b & w & lr & ->); [lia|].
  unfold balance.
  rewrite (bind_done _ _ _ _ _ (difference_tree s _ a v r fuel Hst
                                  ltac:(lia) ltac:(lia))).
  destruct (Z.gtb_spec (tree_height (Node ll b w lr) - tree_height r) 1); [|lia].
  pose proof Hst as (Ha & Hl & Hr).
  read_node Ha. cbn [left tree_root next_ptr].
  cbn [depth] in Hfuel.
  rewrite (bind_done _ _ _ _ _ (difference_tree s ll b w lr fuel Hl
                                  ltac:(lia) ltac:(lia))).
  cbn [tree_difference]. by case_match.
Qed.

Lemma balance_right_heavy s l a v r fuel :
  stored (mem s) (Node l a v r) ->
  (depth (Node l a v r) <= fuel)%nat ->
  tree_height l - tree_height r < -1 ->
  balance fuel (Some a) s
  = if tree_difference r >? 0 then rl_rotation (Some a) s
    else rr_rotation (Some a) s.
Proof.
  intros Hst Hfuel Hbf. cbn [depth] in Hfuel.
  pose proof (tree_height_nonneg l).
  destruct (tree_height_pos_node r) as (rl & b & w & rr & ->); [lia|].
  unfold balance.
  rewrite (bind_done _ _ _ _ _ (difference_tree s l a v _ fuel Hst
                                  ltac:(lia) ltac:(lia))).
  destruct (Z.gtb_spec (tree_height l - tree_height (Node rl b w rr)) 1); [lia|].
  destruct (Z.ltb_spec (tree_height l - tree_height (Node rl b w rr)) (-1)); [|lia].
  pose proof Hst as (Ha & Hl & Hr).
  read_node Ha. cbn [right tree_root next_ptr].
  cbn [depth] in Hfuel.
  rewrite (bind_done _ _ _ _ _ (difference_tree s rl b w rr fuel Hr
                                  ltac:(lia) ltac:(lia))).
  cbn [tree_difference]. by case_match.
Qed.

Lemma balance_balanced s l a v r fuel :
  stored (mem s) (Node l a v r) ->
  (depth l <= fuel)%nat -> (depth r <= fuel)%nat ->
  -1 <= tree_height l - tree_height r <= 1 ->
  balance fuel (Some a) s = Done (Some a, s).
Proof.
  intros Hst Hfl Hfr Hbf. unfold balance.
  rewrite (bind_done _ _ _ _ _ (difference_tree s l a v r fuel Hst Hfl Hfr)).
  destruct (Z.gtb_spec (tree_height l - tree_height r) 1); [lia|].
  destruct (Z.ltb_spec (tree_height l - tree_height r) (-1)); [lia|].
  done.
Qed.

(** ** Insert of a key that is present *)

Lemma set_left_same s a n :
  mem s !! a = Some n -> set_left (Some a) (left n) s = Done (tt, s).
Proof.
  intros Ha. rewrite (set_left_live _ _ _ _ Ha).
  destruct n as [v pl pr]. cbn [value left right].
  rewrite (insert_id _ _ _ Ha). by rewrite state_eta.
Qed.

Lemma set_right_same s a n :
  mem s !! a = Some n -> set_right (Some a) (right n) s = Done (tt, s).
Proof.
  intros Ha. rewrite (set_right_live _ _ _ _ Ha).
  destruct n as [v pl pr]. cbn [value left right].
  rewrite (insert_id _ _ _ Ha). by rewrite state_eta.
Qed.

Lemma bst_elem_cases l a x r v :
  bst (Node l a x r) -> v ∈ inorder (Node l a x r) ->
  (v < x /\ v ∈ inorder l) \/ v = x \/ (x < v /\ v ∈ inorder r).
Proof.
  intros (Hl & Hr & _ & _) Hin. cbn [inorder] in Hin.
  rewrite Forall_forall in Hl, Hr.
  apply elem_of_app in Hin as [Hin|Hin].
  - left. split; [by apply Hl|done].
  - apply elem_of_cons in Hin as [->|Hin]; [by right; left|].
    right; right. split; [by apply Hr|done].
Qed.

Lemma insert_present s t v :
  forall fuel,
    stored (mem s) t -> bst t -> avl t -> v ∈ inorder t ->
    (depth t <= fuel)%nat ->
    insert fuel (tree_root t) v s = Done (tree_root t, s).
Proof.
  induction t as [|l IHl a x r IHr]; intros fuel Hst Hbst Havl Hin Hfuel.
  { by apply elem_of_nil in Hin. }
  destruct fuel as [|fuel]; [simpl in Hfuel; lia|]. cbn [depth] in Hfuel.
  pose proof Hst as (Ha & Hl & Hr).
  pose proof Hbst as (_ & _ & Hbl & Hbr).
  pose proof Havl as (Hbf & Hal & Har).
  cbn [tree_root next_ptr insert].
  read_node Ha. cbn [value left right].
  destruct (bst_elem_cases _ _ _ _ _ Hbst Hin) as [[Hlt Hinl]|[->|[Hgt Hinr]]].
  - destruct (Z.ltb_spec v x); [|lia].
    rewrite (bind_done _ _ _ _ _ (IHl fuel Hl Hbl Hal Hinl ltac:(lia))).
    rewrite (bind_done _ _ _ _ _ (set_left_same _ _ _ Ha)).
    apply (balance_balanced s l a x r); (done || lia).
  - rewrite Z.ltb_irrefl.
    destruct (Z.gtb_spec x x); [lia|done].
  - destruct (Z.ltb_spec v x); [lia|].
    destruct (Z.gtb_spec v x); [|lia].
    rewrite (bind_done _ _ _ _ _ (IHr fuel Hr Hbr Har Hinr ltac:(lia))).
    rewrite (bind_done _ _ _ _ _ (set_right_same _ _ _ Ha)).
    apply (balance_balanced s l a x r); (done || lia).
Qed.

(** ** Delete of a key that is absent *)

(** On a non-empty tree the descent for an absent key arrives at a null
    [rootNode] while the global [root] is not null, and reads
    [rootNode->value]. *)
Lemma deleteNode_absent s t v :
  forall fuel,
    root s <> None ->
    stored (mem s) t -> v ∉ inorder t ->
    (depth t < fuel)%nat ->
    deleteNode fuel (tree_root t) v s = Undefined.
Proof.
  induction t as [|l IHl a x r IHr]; intros fuel Hroot Hst Hin Hfuel.
  - destruct fuel as [|fuel]; [lia|]. cbn [deleteNode].
    rewrite (bind_done _ _ s (root s) s) by done.
    by destruct (root s).
  - destruct fuel as [|fuel]; [lia|]. cbn [depth] in Hfuel.
    pose proof Hst as (Ha & Hl & Hr).
    cbn [tree_root next_ptr deleteNode].
    rewrite (bind_done _ _ s (root s) s) by done.
    destruct (root s) as [g|] eqn:Hg; [|done].
    read_node Ha. cbn [value left right].
    cbn [inorder] in Hin.
    destruct (Z.ltb_spec v x).
    + apply bind_undefined. apply IHl; [done|done|set_solver|lia].
    + destruct (Z.gtb_spec v x).
      * apply bind_undefined. apply IHr; [done|done|set_solver|lia].
      * assert (v = x) as -> by lia. set_solver.
Qed.

Lemma op_delete_empty s fuel v :
  root s = None -> (0 < fuel)%nat -> op_delete fuel v s = Done (tt, s).
Proof.
  intros Hroot Hfuel. destruct fuel as [|fuel]; [lia|].
  unfold op_delete.
  rewrite (bind_done _ _ s (root s) s) by done. rewrite Hroot.
  cbn [deleteNode].
  unfold bind, get_root, ret, set_root. rewrite Hroot.
  rewrite <- Hroot. by rewrite state_eta.
Qed.

(** ** Keys in order *)

Lemma bst_sorted t : bst t -> StronglySorted Z.lt (inorder t).
Proof.
  induction t as [|l IHl a v r IHr]; intros Hbst; simpl.
  - constructor.
  - destruct Hbst as (Hl & Hr & Hbl & Hbr).
    specialize (IHl Hbl). specialize (IHr Hbr).
    revert IHl Hl. generalize (inorder l) as xs.
    induction xs as [|x xs IH]; intros Hs Hall; simpl.
    + by constructor.
    + inversion Hs as [|? ? Hs' Hx]; subst.
      inversion Hall as [|? ? Hxv Hall']; subst.
      constructor; [by apply IH|].
      apply Forall_app; split; [done|].
      constructor; [done|].
      eapply Forall_impl; [exact Hr|]. intros y Hy. simpl in Hy. lia.
Qed.

Lemma sorted_NoDup (l : list Z) : StronglySorted Z.lt l -> NoDup l.
Proof.
  induction 1 as [|x l Hs IH Hx]; constructor; [|done].
  intros Hin. rewrite Forall_forall in Hx. specialize (Hx _ Hin). lia.
Qed.

Lemma filter_all {A} (P : A -> Prop) `{forall x, Decision (P x)} (l : list A) :
  Forall P l -> filter P l = l.
Proof.
  induction 1 as [|x l Hx Hl IH]; [done|].
  rewrite filter_cons_True by done. by rewrite IH.
Qed.

Lemma filter_none {A} (P : A -> Prop) `{forall x, Decision (P x)} (l : list A) :
  Forall (fun x => ~ P x) l -> filter P l = [].
Proof.
  induction 1 as [|x l Hx Hl IH]; [done|].
  by rewrite filter_cons_False by done.
Qed.

Lemma count_split (x : Z) (l : list Z) :
  NoDup l ->
  Z.of_nat (length l)
  = Z.of_nat (length (filter (fun v => v < x) l))
    + Z.of_nat (length (filter (fun v => x < v) l))
    + (if bool_decide (x ∈ l) then 1 else 0).
Proof.
  induction 1 as [|y l Hy Hnd IH]; [done|].
  rewrite !filter_cons. cbn [length].
  destruct (decide (x = y)) as [->|Hne].
  - rewrite bool_decide_true by set_solver.
    rewrite bool_decide_false in IH by done.
    rewrite !decide_False by lia. lia.
  - destruct (bool_decide_reflect (x ∈ l)) as [Hin|Hin].
    + rewrite bool_decide_true by set_solver.
      destruct (decide (y < x)), (decide (x < y)); cbn [length]; lia.
    + rewrite bool_decide_false by set_solver.
      destruct (decide (y < x)), (decide (x < y)); cbn [length]; lia.
Qed.

(** ** The counting queries on a stored search tree *)

Lemma numNodesSmallerThan_tree s t x :
  forall fuel,
    stored (mem s) t -> bst t -> (depth t <= fuel)%nat ->
    numNodesSmallerThan fuel (tree_root t) x s
    = Done (Z.of_nat (length (filter (fun v => v < x) (inorder t))), s).
Proof.
  induction t as [|l IHl a v r IHr]; intros fuel Hst Hbst Hfuel.
  { by destruct fuel. }
  destruct fuel as [|fuel]; [simpl in Hfuel; lia|]. cbn [depth] in Hfuel.
  pose proof Hst as (Ha & Hl & Hr).
  pose proof Hbst as (Hlv & Hrv & Hbl & Hbr).
  cbn [tree_root next_ptr numNodesSmallerThan].
  read_node Ha. cbn [value left right].
  cbn [inorder]. rewrite filter_app, filter_cons, length_app.
  destruct (Z.eqb_spec v x) as [->|Hne].
  - rewrite (numNodes_tree s l fuel Hl) by lia. unfold tree_size.
    rewrite (filter_all _ _ Hlv).
    rewrite decide_False by lia.
    rewrite (filter_none (fun v => v < x) (inorder r)).
    + cbn [length]. do 2 f_equal. lia.
    + eapply Forall_impl; [exact Hrv|]. intros y Hy. simpl in Hy. lia.
  - destruct (Z.ltb_spec v x).
    + rewrite (bind_done _ _ _ _ _ (numNodes_tree s l fuel Hl ltac:(lia))).
      rewrite (bind_done _ _ _ _ _ (IHr fuel Hr Hbr ltac:(lia))).
      rewrite (filter_all (fun v => v < x) (inorder l)).
      * rewrite decide_True by done. unfold ret, tree_size. cbn [length].
        do 2 f_equal. lia.
      * eapply Forall_impl; [exact Hlv|]. intros y Hy. simpl in Hy. lia.
    + rewrite (IHl fuel Hl Hbl) by lia.
      rewrite decide_False by lia.
      rewrite (filter_none (fun v => v < x) (inorder r)).
      * cbn [length]. do 2 f_equal. lia.
      * eapply Forall_impl; [exact Hrv|]. intros y Hy. simpl in Hy. lia.
Qed.

Lemma numNodesGreaterThan_tree s t x :
  forall fuel,
    stored (mem s) t -> bst t -> (depth t <= fuel)%nat ->
    numNodesGreaterThan fuel (tree_root t) x s
    = Done (Z.of_nat (length (filter (fun v => x < v) (inorder t))), s).
Proof.
  induction t as [|l IHl a v r IHr]; intros fuel Hst Hbst Hfuel.
  { by destruct fuel. }
  destruct fuel as [|fuel]; [simpl in Hfuel; lia|]. cbn [depth] in Hfuel.
  destruct (stored_node _ _ _ _ _ Hst) as (Ha & Hl & Hr).
  pose proof Hbst as (Hlv & Hrv & Hbl & Hbr).
  cbn [tree_root next_ptr numNodesGreaterThan].
  read_node Ha. cbn [value left right].
  cbn [inorder]. rewrite filter_app, filter_cons, length_app.
  destruct (Z.eqb_spec v x) as [->|Hne].
  - rewrite (numNodes_tree s r fuel Hr) by lia. unfold tree_size.
    rewrite (filter_all _ _ Hrv).
    rewrite decide_False by lia.
    rewrite (filter_none (fun v => x < v) (inorder l)).
    + cbn [length]. do 2 f_equal.
    + eapply Forall_impl; [exact Hlv|]. intros y Hy. simpl in Hy. lia.
  - destruct (Z.gtb_spec v x).
    + rewrite (bind_done _ _ _ _ _ (numNodes_tree s r fuel Hr ltac:(lia))).
      rewrite (bind_done _ _ _ _ _ (IHl fuel Hl Hbl ltac:(lia))).
      rewrite (filter_all (fun v => x < v) (inorder r)).
      * rewrite decide_True by lia. unfold ret, tree_size. cbn [length].
        do 2 f_equal. lia.
      * eapply Forall_impl; [exact Hrv|]. intros y Hy. simpl in Hy. lia.
    + rewrite (IHr fuel Hr Hbr) by lia.
      rewrite decide_False by lia.
      rewrite (filter_none (fun v => x < v) (inorder l)).
      * cbn [length]. do 2 f_equal.
      * eapply Forall_impl; [exact Hlv|]. intros y Hy. simpl in Hy. lia.
Qed.

(** ** Rotations and balance on abstract trees *)

Lemma bst_iff_sorted t : bst t <-> StronglySorted Z.lt (inorder t).
Proof.
  split; [apply bst_sorted|].
  induction t as [|l IHl a v r IHr]; [done|].
  cbn [inorder bst]. rewrite StronglySorted_app, StronglySorted_cons.
  intros (Hlr & Hl & Hr & Hsr). split_and!.
  - apply Forall_forall. intros x Hx. apply (Hlr x v Hx). set_solver.
  - done.
  - by apply IHl.
  - by apply IHr.
Qed.

Lemma inorder_rr_rotation t : inorder (tree_rr_rotation t) = inorder t.
Proof.
  destruct t as [|l a v [|rl b w rr]]; try done.
  cbn [tree_rr_rotation inorder]. by rewrite <- app_assoc.
Qed.

Lemma inorder_ll_rotation t : inorder (tree_ll_rotation t) = inorder t.
Proof.
  destruct t as [|[|ll b w lr] a v r]; try done.
  cbn [tree_ll_rotation inorder]. by rewrite <- app_assoc.
Qed.

Lemma inorder_balance t : inorder (tree_balance t) = inorder t.
Proof.
  destruct t as [|l a v r]; [done|]. unfold tree_balance.
  repeat case_match; try done.
  - apply inorder_ll_rotation.
  - unfold tree_lr_rotation. rewrite inorder_ll_rotation. cbn [inorder].
    by rewrite inorder_rr_rotation.
  - unfold tree_rl_rotation. rewrite inorder_rr_rotation. cbn [inorder].
    by rewrite inorder_ll_rotation.
  - apply inorder_rr_rotation.
Qed.

Lemma addrs_rr_rotation t : addrs (tree_rr_rotation t) = addrs t.
Proof.
  destruct t as [|l a v [|rl b w rr]]; try done.
  cbn [tree_rr_rotation addrs]. by rewrite <- app_assoc.
Qed.

Lemma addrs_ll_rotation t : addrs (tree_ll_rotation t) = addrs t.
Proof.
  destruct t as [|[|ll b w lr] a v r]; try done.
  cbn [tree_ll_rotation addrs]. by rewrite <- app_assoc.
Qed.

Lemma addrs_balance t : addrs (tree_balance t) = addrs t.
Proof.
  destruct t as [|l a v r]; [done|]. unfold tree_balance.
  repeat case_match; try done.
  - apply addrs_ll_rotation.
  - unfold tree_lr_rotation. rewrite addrs_ll_rotation. cbn [addrs].
    by rewrite addrs_rr_rotation.
  - unfold tree_rl_rotation. rewrite addrs_rr_rotation. cbn [addrs].
    by rewrite addrs_ll_rotation.
  - apply addrs_rr_rotation.
Qed.

Lemma bst_balance t : bst t -> bst (tree_balance t).
Proof. rewrite !bst_iff_sorted. by rewrite inorder_balance. Qed.

Lemma tree_balance_steady l a v r :
  -1 <= tree_height l - tree_height r <= 1 ->
  tree_balance (Node l a v r) = Node l a v r.
Proof.
  intros Hbf. unfold tree_balance. cbn [tree_difference].
  destruct (Z.gtb_spec (tree_height l - tree_height r) 1); [lia|].
  destruct (Z.ltb_spec (tree_height l - tree_height r) (-1)); [lia|done].
Qed.

(** A rotation never makes the tree higher. *)
Lemma tree_height_balance t : tree_height (tree_balance t) <= tree_height t.
Proof.
  destruct t as [|l a v r]; [done|]. unfold tree_balance.
  cbn [tree_difference].
  pose proof (tree_height_nonneg l). pose proof (tree_height_nonneg r).
  destruct (Z.gtb_spec (tree_height l - tree_height r) 1) as [Hbf|Hbf].
  - destruct l as [|ll b w lr]; [simpl in *; lia|].
    cbn [tree_difference].
    pose proof (tree_height_nonneg ll). pose proof (tree_height_nonneg lr).
    destruct (Z.gtb_spec (tree_height ll - tree_height lr) 0).
    + cbn [tree_ll_rotation tree_height] in *. lia.
    + destruct lr as [|lrl c u lrr]; [simpl in *; lia|].
      cbn [tree_lr_rotation tree_rr_rotation tree_ll_rotation tree_height] in *.
      lia.
  - destruct (Z.ltb_spec (tree_height l - tree_height r) (-1)); [|lia].
    destruct r as [|rl b w rr]; [simpl in *; lia|].
    cbn [tree_difference].
    pose proof (tree_height_nonneg rl). pose proof (tree_height_nonneg rr).
    destruct (Z.gtb_spec (tree_height rl - tree_height rr) 0).
    + destruct rl as [|rll c u rlr]; [simpl in *; lia|].
      cbn [tree_rl_rotation tree_rr_rotation tree_ll_rotation tree_height] in *.
      lia.
    + cbn [tree_rr_rotation tree_height] in *. lia.
Qed.

Lemma tree_balance_left l a v r :
  avl l -> avl r ->
  tree_height l - tree_height r = 2 ->
  tree_difference l <> 0 ->
  avl (tree_balance (Node l a v r))
  /\ tree_height (tree_balance (Node l a v r)) = tree_height l.
Proof.
  intros Hal Har Hbf Hd. unfold tree_balance. cbn [tree_difference].
  pose proof (tree_height_nonneg r).
  destruct (Z.gtb_spec (tree_height l - tree_height r) 1); [|lia].
  destruct l as [|ll b w lr]; [simpl in *; lia|].
  cbn [tree_difference] in *. destruct Hal as (Hbl & Hall & Halr).
  pose proof (tree_height_nonneg ll). pose proof (tree_height_nonneg lr).
  destruct (Z.gtb_spec (tree_height ll - tree_height lr) 0).
  - cbn [tree_ll_rotation tree_height avl] in *. split_and!; (done || lia).
  - destruct lr as [|lrl c u lrr]; [simpl in *; lia|].
    destruct Halr as (Hblr & Halrl & Halrr).
    cbn [tree_lr_rotation tree_rr_rotation tree_ll_rotation tree_height avl] in *.
    split_and!; (done || lia).
Qed.

Lemma tree_balance_right l a v r :
  avl l -> avl r ->
  tree_height l - tree_height r = -2 ->
  tree_difference r <> 0 ->
  avl (tree_balance (Node l a v r))
  /\ tree_height (tree_balance (Node l a v r)) = tree_height r.
Proof.
  intros Hal Har Hbf Hd. unfold tree_balance. cbn [tree_difference].
  pose proof (tree_height_nonneg l).
  destruct (Z.gtb_spec (tree_height l - tree_height r) 1); [lia|].
  destruct (Z.ltb_spec (tree_height l - tree_height r) (-1)); [|lia].
  destruct r as [|rl b w rr]; [simpl in *; lia|].
  cbn [tree_difference] in *. destruct Har as (Hbr & Harl & Harr).
  pose proof (tree_height_nonneg rl). pose proof (tree_height_nonneg rr).
  destruct (Z.gtb_spec (tree_height rl - tree_height rr) 0).
  - destruct rl as [|rll c u rlr]; [simpl in *; lia|].
    destruct Harl as (Hbrl & Harll & Harlr).
    cbn [tree_rl_rotation tree_rr_rotation tree_ll_rotation tree_height avl] in *.
    split_and!; (done || lia).
  - cbn [tree_rr_rotation tree_height avl] in *. split_and!; (done || lia).
Qed.

(** ** Insert on abstract trees *)

Lemma tree_height_insert new t v :
  tree_height (tree_insert new t v) <= tree_height t + 1.
Proof.
  induction t as [|l IHl a x r IHr]; [simpl; lia|].
  cbn [tree_insert].
  destruct (v <? x).
  - etrans; [apply tree_height_balance|]. cbn [tree_height]. lia.
  - destruct (v >? x); [|lia].
    etrans; [apply tree_height_balance|]. cbn [tree_height]. lia.
Qed.

Lemma depth_insert new t v : (depth (tree_insert new t v) <= depth t + 1)%nat.
Proof.
  pose proof (tree_height_insert new t v) as H.
  rewrite !tree_height_depth in H. lia.
Qed.

Lemma avl_insert new t v :
  avl t ->
  avl (tree_insert new t v)
  /\ (tree_height (tree_insert new t v) = tree_height t
      \/ (tree_height (tree_insert new t v) = tree_height t + 1
          /\ (t = Leaf \/ tree_difference (tree_insert new t v) <> 0))).
Proof.
  induction t as [|l IHl a x r IHr]; intros Havl.
  { simpl. split; [lia|]. right. split; [lia|by left]. }
  destruct Havl as (Hbf & Hal & Har).
  specialize (IHl Hal) as (Hal' & Hhl). specialize (IHr Har) as (Har' & Hhr).
  pose proof (tree_height_nonneg l). pose proof (tree_height_nonneg r).
  cbn [tree_insert].
  destruct (v <? x).
  - set (l' := tree_insert new l v) in *.
    destruct (decide (tree_height l' - tree_height r = 2)) as [Htwo|Hne].
    + destruct Hhl as [Hsame|(Hup & [->|Hd])]; [lia|simpl in *; lia|].
      destruct (tree_balance_left l' a x r Hal' Har Htwo Hd) as (Ha & Hh).
      split; [done|]. left. rewrite Hh. cbn [tree_height]. lia.
    + rewrite tree_balance_steady by lia.
      cbn [avl tree_height tree_difference]. split; [split_and!; (done || lia)|].
      destruct Hhl as [Hsame|(Hup & _)]; [left; lia|].
      destruct (decide (tree_height l - tree_height r = -1)); [left; lia|].
      right. split; [lia|]. right. lia.
  - destruct (v >? x); [|split; [done|by left]].
    set (r' := tree_insert new r v) in *.
    destruct (decide (tree_height l - tree_height r' = -2)) as [Htwo|Hne].
    + destruct Hhr as [Hsame|(Hup & [->|Hd])]; [lia|simpl in *; lia|].
      destruct (tree_balance_right l a x r' Hal Har' Htwo Hd) as (Ha & Hh).
      split; [done|]. left. rewrite Hh. cbn [tree_height]. lia.
    + rewrite tree_balance_steady by lia.
      cbn [avl tree_height tree_difference]. split; [split_and!; (done || lia)|].
      destruct Hhr as [Hsame|(Hup & _)]; [left; lia|].
      destruct (decide (tree_height l - tree_height r = 1)); [left; lia|].
      right. split; [lia|]. right. lia.
Qed.

Lemma inorder_insert_elem new t v x :
  x ∈ inorder (tree_insert new t v) -> x = v \/ x ∈ inorder t.
Proof.
  induction t as [|l IHl a y r IHr]; cbn [tree_insert].
  - simpl. set_solver.
  - destruct (v <? y).
    + rewrite inorder_balance. cbn [inorder]. set_solver.
    + destruct (v >? y); [|by right].
      rewrite inorder_balance. cbn [inorder]. set_solver.
Qed.

Lemma inorder_insert_Forall (P : Z -> Prop) new t v :
  Forall P (inorder t) -> P v -> Forall P (inorder (tree_insert new t v)).
Proof.
  intros Hall Hv. apply Forall_forall. intros x Hx.
  apply inorder_insert_elem in Hx as [->|Hx]; [done|].
  rewrite Forall_forall in Hall. by apply Hall.
Qed.

Lemma bst_insert new t v : bst t -> bst (tree_insert new t v).
Proof.
  induction t as [|l IHl a x r IHr]; intros Hbst.
  { simpl. by repeat constructor. }
  destruct Hbst as (Hl & Hr & Hbl & Hbr). cbn [tree_insert].
  destruct (Z.ltb_spec v x).
  - apply bst_balance. cbn [bst]. split_and!; try done; [|by apply IHl].
    by apply inorder_insert_Forall.
  - destruct (Z.gtb_spec v x); [|done].
    apply bst_balance. cbn [bst]. split_and!; try done; [|by apply IHr].
    apply inorder_insert_Forall; [done|lia].
Qed.

Lemma addrs_insert_elem new t v x :
  x ∈ addrs (tree_insert new t v) -> x = new \/ x ∈ addrs t.
Proof.
  induction t as [|l IHl a y r IHr]; cbn [tree_insert].
  - simpl. set_solver.
  - destruct (v <? y).
    + rewrite addrs_balance. cbn [addrs]. set_solver.
    + destruct (v >? y); [|by right].
      rewrite addrs_balance. cbn [addrs]. set_solver.
Qed.

Lemma NoDup_addrs_insert new t v :
  NoDup (addrs t) -> new ∉ addrs t -> NoDup (addrs (tree_insert new t v)).
Proof.
  induction t as [|l IHl a y r IHr]; intros Hnd Hnew; cbn [tree_insert].
  { simpl. apply NoDup_singleton. }
  cbn [addrs] in Hnd, Hnew.
  apply NoDup_app in Hnd as (Hndl & Hdisj & Hndr).
  apply NoDup_cons in Hndr as (Har & Hndr).
  destruct (v <? y).
  - rewrite addrs_balance. cbn [addrs]. apply NoDup_app. split_and!.
    + apply IHl; [done|set_solver].
    + intros x Hx. apply addrs_insert_elem in Hx as [->|Hx]; [set_solver|].
      by apply Hdisj.
    + by apply NoDup_cons.
  - destruct (v >? y).
    + rewrite addrs_balance. cbn [addrs]. apply NoDup_app. split_and!.
      * done.
      * intros x Hx Hin. apply elem_of_cons in Hin as [->|Hin].
        { apply (Hdisj _ Hx). set_solver. }
        apply addrs_insert_elem in Hin as [->|Hin]; [set_solver|].
        apply (Hdisj _ Hx). set_solver.
      * apply NoDup_cons. split.
        { intros Hin. apply addrs_insert_elem in Hin as [->|Hin]; set_solver. }
        apply IHr; [done|set_solver].
    + cbn [addrs]. apply NoDup_app. split_and!; [done|done|by apply NoDup_cons].
Qed.

(** The size grows by one exactly when the key is new. *)
Lemma tree_size_insert new t v :
  bst t ->
  tree_size (tree_insert new t v)
  = tree_size t + (if bool_decide (v ∈ inorder t) then 0 else 1).
Proof.
  unfold tree_size.
  induction t as [|l IHl a x r IHr]; intros Hbst.
  { cbn [tree_insert inorder app length].
    rewrite bool_decide_false by apply not_elem_of_nil. lia. }
  destruct Hbst as (Hl & Hr & Hbl & Hbr).
  rewrite Forall_forall in Hl, Hr.
  specialize (IHl Hbl). specialize (IHr Hbr).
  cbn [tree_insert].
  destruct (Z.ltb_spec v x).
  - rewrite inorder_balance. cbn [inorder]. rewrite !length_app. cbn [length].
    assert (bool_decide (v ∈ inorder l ++ x :: inorder r)
            = bool_decide (v ∈ inorder l)) as ->.
    { apply bool_decide_ext. rewrite elem_of_app, elem_of_cons.
      split; [|by left]. intros [?|[->|Hin]]; [done|lia|].
      specialize (Hr _ Hin). lia. }
    lia.
  - destruct (Z.gtb_spec v x).
    + rewrite inorder_balance. cbn [inorder]. rewrite !length_app. cbn [length].
      assert (bool_decide (v ∈ inorder l ++ x :: inorder r)
              = bool_decide (v ∈ inorder r)) as ->.
      { apply bool_decide_ext. rewrite elem_of_app, elem_of_cons.
        split; [|by right; right]. intros [Hin|[->|?]]; [|lia|done].
        specialize (Hl _ Hin). lia. }
      lia.
    + assert (v = x) as -> by lia.
      rewrite bool_decide_true by (cbn [inorder]; set_solver). lia.
Qed.

(** ** Rotations and balance on the heap *)

Lemma linked_insert_other h t nxt a n :
  a ∉ addrs t -> linked h t nxt -> linked (<[a := n]> h) t nxt.
Proof.
  intros Ha Hlk. apply (linked_frame h); [done|].
  intros x Hx. apply lookup_insert_ne. by intros ->.
Qed.

Lemma NoDup_addrs_node l a v r :
  NoDup (addrs (Node l a v r)) ->
  NoDup (addrs l) /\ NoDup (addrs r) /\ (a ∉ addrs l) /\ (a ∉ addrs r)
  /\ (forall x, x ∈ addrs l -> x ∉ addrs r).
Proof.
  cbn [addrs]. intros Hnd.
  apply NoDup_app in Hnd as (Hndl & Hdisj & Hndr).
  apply NoDup_cons in Hndr as (Har & Hndr).
  split_and!; try done.
  - intros Hin. apply (Hdisj _ Hin). set_solver.
  - intros x Hx Hxr. apply (Hdisj _ Hx). set_solver.
Qed.

Lemma stored_live h t x : stored h t -> (x ∈ addrs t) -> is_Some (h !! x).
Proof.
  induction t as [|l IHl a v r IHr]; intros Hst Hx.
  - by apply elem_of_nil in Hx.
  - destruct (stored_node _ _ _ _ _ Hst) as (Ha & Hl & Hr).
    cbn [addrs] in Hx. apply elem_of_app in Hx as [Hx|Hx]; [by apply IHl|].
    apply elem_of_cons in Hx as [->|Hx]; [by eexists|by apply IHr].
Qed.

Lemma alloc_fresh h : h !! alloc h = None.
Proof. apply not_elem_of_dom. unfold alloc. apply is_fresh. Qed.

Lemma rr_rotation_live s a b v pl w prl prr :
  a <> b ->
  mem s !! a = Some (mk_node v pl (Some b)) ->
  mem s !! b = Some (mk_node w prl prr) ->
  rr_rotation (Some a) s
  = Done (Some b,
          with_mem s (<[b := mk_node w (Some a) prr]>
                        (<[a := mk_node v pl prl]> (mem s)))).
Proof.
  intros Hne Ha Hb. unfold rr_rotation.
  read_node Ha. cbn [right].
  read_node Hb. cbn [left].
  rewrite (bind_done _ _ _ _ _ (set_right_live _ _ _ _ Ha)).
  cbn [value left right].
  set (s1 := mk_state _ _ _).
  assert (mem s1 !! b = Some (mk_node w prl prr)) as Hb1
    by (cbn [s1 mem]; by rewrite lookup_insert_ne).
  by rewrite (bind_done _ _ _ _ _ (set_left_live _ _ _ _ Hb1)).
Qed.

Lemma ll_rotation_live s a b v pr w pll plr :
  a <> b ->
  mem s !! a = Some (mk_node v (Some b) pr) ->
  mem s !! b = Some (mk_node w pll plr) ->
  ll_rotation (Some a) s
  = Done (Some b,
          with_mem s (<[b := mk_node w pll (Some a)]>
                        (<[a := mk_node v plr pr]> (mem s)))).
Proof.
  intros Hne Ha Hb. unfold ll_rotation.
  read_node Ha. cbn [left].
  read_node Hb. cbn [right].
  rewrite (bind_done _ _ _ _ _ (set_left_live _ _ _ _ Ha)).
  cbn [value left right].
  set (s1 := mk_state _ _ _).
  assert (mem s1 !! b = Some (mk_node w pll plr)) as Hb1
    by (cbn [s1 mem]; by rewrite lookup_insert_ne).
  by rewrite (bind_done _ _ _ _ _ (set_right_live _ _ _ _ Hb1)).
Qed.

Lemma rr_rotation_tree s l a v rl b w rr :
  NoDup (addrs (Node l a v (Node rl b w rr))) ->
  stored (mem s) (Node l a v (Node rl b w rr)) ->
  exists s',
    rr_rotation (Some a) s = Done (Some b, s')
    /\ stored (mem s') (Node (Node l a v rl) b w rr)
    /\ frame_outside s s' (addrs (Node l a v (Node rl b w rr)))
    /\ elements s' = elements s.
Proof.
  intros Hnd Hst.
  apply NoDup_addrs_node in Hnd as (Hndl & Hndr & Hal & Har & Hlr).
  apply NoDup_addrs_node in Hndr as (Hndrl & Hndrr & Hbrl & Hbrr & Hrlrr).
  destruct (stored_node _ _ _ _ _ Hst) as (Ha & Hl & Hr).
  destruct (stored_node _ _ _ _ _ Hr) as (Hb & Hrl & Hrr).
  cbn [addrs] in *.
  assert (a <> b) as Hne by set_solver.
  eexists. split; [by apply (rr_rotation_live s a b v _ w _ _ Hne Ha Hb)|].
  split.
  - cbn [with_mem mem]. split_and!.
    + by rewrite lookup_insert_eq.
    + split_and!.
      * rewrite lookup_insert_ne by done. by rewrite lookup_insert_eq.
      * do 2 (apply linked_insert_other; [set_solver|]). done.
      * do 2 (apply linked_insert_other; [set_solver|]). done.
    + do 2 (apply linked_insert_other; [set_solver|]). done.
  - split; [split; [done|]|done]. intros x Hx. cbn [with_mem mem].
    rewrite !lookup_insert_ne; [done|set_solver|set_solver].
Qed.

Lemma ll_rotation_tree s ll b w lr a v r :
  NoDup (addrs (Node (Node ll b w lr) a v r)) ->
  stored (mem s) (Node (Node ll b w lr) a v r) ->
  exists s',
    ll_rotation (Some a) s = Done (Some b, s')
    /\ stored (mem s') (Node ll b w (Node lr a v r))
    /\ frame_outside s s' (addrs (Node (Node ll b w lr) a v r))
    /\ elements s' = elements s.
Proof.
  intros Hnd Hst.
  apply NoDup_addrs_node in Hnd as (Hndl & Hndr & Hal & Har & Hlr).
  apply NoDup_addrs_node in Hndl as (Hndll & Hndlr & Hbll & Hblr & Hlllr).
  destruct (stored_node _ _ _ _ _ Hst) as (Ha & Hl & Hr).
  destruct (stored_node _ _ _ _ _ Hl) as (Hb & Hll & Hlr').
  cbn [addrs] in *.
  assert (a <> b) as Hne by set_solver.
  eexists. split; [by apply (ll_rotation_live s a b v _ w _ _ Hne Ha Hb)|].
  split.
  - cbn [with_mem mem]. split_and!.
    + by rewrite lookup_insert_eq.
    + do 2 (apply linked_insert_other; [set_solver|]). done.
    + split_and!.
      * rewrite lookup_insert_ne by done. by rewrite lookup_insert_eq.
      * do 2 (apply linked_insert_other; [set_solver|]). done.
      * do 2 (apply linked_insert_other; [set_solver|]). done.
  - split; [split; [done|]|done]. intros x Hx. cbn [with_mem mem].
    rewrite !lookup_insert_ne; [done|set_solver|set_solver].
Qed.

Lemma frame_outside_trans s s1 s2 (D1 D2 D : list addr) :
  frame_outside s s1 D1 -> frame_outside s1 s2 D2 ->
  (forall x, x ∈ D1 \/ x ∈ D2 -> x ∈ D) ->
  frame_outside s s2 D.
Proof.
  intros (Hr1 & Hm1) (Hr2 & Hm2) Hsub. split; [congruence|].
  intros x Hx. rewrite Hm2, Hm1; [done| |]; intros Hin; apply Hx, Hsub; auto.
Qed.

Lemma stored_frame s s' t (D : list addr) :
  stored (mem s) t -> frame_outside s s' D ->
  (forall x, x ∈ addrs t -> x ∉ D) ->
  stored (mem s') t.
Proof.
  intros Hst (_ & Hm) Hdisj. apply (linked_frame (mem s)); [done|].
  intros x Hx. apply Hm. by apply Hdisj.
Qed.

(** Rebinding a child pointer to a subtree that was rebuilt in place. *)
Lemma set_left_subtree s s1 l l' a v r (D : list addr) :
  stored (mem s) (Node l a v r) ->
  frame_outside s s1 D ->
  stored (mem s1) l' ->
  a ∉ D -> a ∉ addrs l' ->
  (forall x, x ∈ addrs r -> x ∉ D) ->
  a ∉ addrs r ->
  exists s2,
    set_left (Some a) (tree_root l') s1 = Done (tt, s2)
    /\ stored (mem s2) (Node l' a v r)
    /\ frame_outside s s2 (a :: D)
    /\ elements s2 = elements s1.
Proof.
  intros Hst Hfr Hl' HaD Hal' HrD Har.
  destruct (stored_node _ _ _ _ _ Hst) as (Ha & Hl & Hr).
  assert (mem s1 !! a = Some (mk_node v (tree_root l) (tree_root r))) as Ha1.
  { destruct Hfr as (_ & Hm). by rewrite Hm. }
  eexists. split; [by apply (set_left_live _ _ _ _ Ha1)|].
  cbn [mem root elements value left right]. split_and!; [| |done].
  - split_and!.
    + by rewrite lookup_insert_eq.
    + by apply linked_insert_other.
    + apply linked_insert_other; [done|]. by apply (stored_frame s s1 r D).
  - destruct Hfr as (Hroot & Hm). split; [done|].
    intros x Hx. cbn [mem]. rewrite lookup_insert_ne by set_solver.
    apply Hm. set_solver.
Qed.

Lemma set_right_subtree s s1 l a v r r' (D : list addr) :
  stored (mem s) (Node l a v r) ->
  frame_outside s s1 D ->
  stored (mem s1) r' ->
  a ∉ D -> a ∉ addrs r' ->
  (forall x, x ∈ addrs l -> x ∉ D) ->
  a ∉ addrs l ->
  exists s2,
    set_right (Some a) (tree_root r') s1 = Done (tt, s2)
    /\ stored (mem s2) (Node l a v r')
    /\ frame_outside s s2 (a :: D)
    /\ elements s2 = elements s1.
Proof.
  intros Hst Hfr Hr' HaD Har' HlD Hal.
  destruct (stored_node _ _ _ _ _ Hst) as (Ha & Hl & Hr).
  assert (mem s1 !! a = Some (mk_node v (tree_root l) (tree_root r))) as Ha1.
  { destruct Hfr as (_ & Hm). by rewrite Hm. }
  eexists. split; [by apply (set_right_live _ _ _ _ Ha1)|].
  cbn [mem root elements value left right]. split_and!; [| |done].
  - split_and!.
    + by rewrite lookup_insert_eq.
    + apply linked_insert_other; [done|]. by apply (stored_frame s s1 l D).
    + by apply linked_insert_other.
  - destruct Hfr as (Hroot & Hm). split; [done|].
    intros x Hx. cbn [mem]. rewrite lookup_insert_ne by set_solver.
    apply Hm. set_solver.
Qed.

Lemma lr_rotation_tree s ll b w lrl c u lrr a v r :
  NoDup (addrs (Node (Node ll b w (Node lrl c u lrr)) a v r)) ->
  stored (mem s) (Node (Node ll b w (Node lrl c u lrr)) a v r) ->
  exists s',
    lr_rotation (Some a) s = Done (Some c, s')
    /\ stored (mem s') (Node (Node ll b w lrl) c u (Node lrr a v r))
    /\ frame_outside s s' (addrs (Node (Node ll b w (Node lrl c u lrr)) a v r))
    /\ elements s' = elements s.
Proof.
  intros Hnd Hst.
  set (l := Node ll b w (Node lrl c u lrr)) in *.
  pose proof (NoDup_addrs_node _ _ _ _ Hnd) as (Hndl & Hndr & Hal & Har & Hlr).
  destruct (stored_node _ _ _ _ _ Hst) as (Ha & Hl & Hr).
  destruct (rr_rotation_tree s ll b w lrl c u lrr Hndl Hl)
    as (s1 & Hrot & Hl1 & Hfr1 & He1).
  fold l in Hfr1.
  set (l' := Node (Node ll b w lrl) c u lrr) in *.
  assert (addrs l' = addrs l) as Haddr by apply (addrs_rr_rotation l).
  destruct (set_left_subtree s s1 l l' a v r (addrs l) Hst Hfr1 Hl1)
    as (s2 & Hset & Hst2 & Hfr2 & He2); try done.
  { by rewrite Haddr. }
  { intros x Hx Hxl. by apply (Hlr x). }
  assert (NoDup (addrs (Node l' a v r))) as Hnd2.
  { cbn [addrs]. rewrite Haddr. exact Hnd. }
  destruct (ll_rotation_tree s2 (Node ll b w lrl) c u lrr a v r Hnd2 Hst2)
    as (s3 & Hrot3 & Hst3 & Hfr3 & He3).
  exists s3. split_and!.
  - unfold lr_rotation.
    read_node Ha. cbn [left].
    step_with Hrot.
    step_with Hset. exact Hrot3.
  - done.
  - apply (frame_outside_trans s s2 s3 _ _ _ Hfr2 Hfr3).
    fold l'. cbn [addrs]. rewrite Haddr. set_solver.
  - congruence.
Qed.

Lemma rl_rotation_tree s l a v rll c u rlr b w rr :
  NoDup (addrs (Node l a v (Node (Node rll c u rlr) b w rr))) ->
  stored (mem s) (Node l a v (Node (Node rll c u rlr) b w rr)) ->
  exists s',
    rl_rotation (Some a) s = Done (Some c, s')
    /\ stored (mem s') (Node (Node l a v rll) c u (Node rlr b w rr))
    /\ frame_outside s s' (addrs (Node l a v (Node (Node rll c u rlr) b w rr)))
    /\ elements s' = elements s.
Proof.
  intros Hnd Hst.
  set (r := Node (Node rll c u rlr) b w rr) in *.
  pose proof (NoDup_addrs_node _ _ _ _ Hnd) as (Hndl & Hndr & Hal & Har & Hlr).
  destruct (stored_node _ _ _ _ _ Hst) as (Ha & Hl & Hr).
  destruct (ll_rotation_tree s rll c u rlr b w rr Hndr Hr)
    as (s1 & Hrot & Hr1 & Hfr1 & He1).
  fold r in Hfr1.
  set (r' := Node rll c u (Node rlr b w rr)) in *.
  assert (addrs r' = addrs r) as Haddr by apply (addrs_ll_rotation r).
  destruct (set_right_subtree s s1 l a v r r' (addrs r) Hst Hfr1 Hr1)
    as (s2 & Hset & Hst2 & Hfr2 & He2); try done.
  { by rewrite Haddr. }
  assert (NoDup (addrs (Node l a v r'))) as Hnd2.
  { cbn [addrs]. rewrite Haddr. exact Hnd. }
  destruct (rr_rotation_tree s2 l a v rll c u (Node rlr b w rr) Hnd2 Hst2)
    as (s3 & Hrot3 & Hst3 & Hfr3 & He3).
  exists s3. split_and!.
  - unfold rl_rotation.
    read_node Ha. cbn [right].
    step_with Hrot.
    step_with Hset. exact Hrot3.
  - done.
  - apply (frame_outside_trans s s2 s3 _ _ _ Hfr2 Hfr3).
    fold r'. cbn [addrs]. rewrite Haddr. set_solver.
  - congruence.
Qed.

Lemma frame_outside_refl s (D : list addr) : frame_outside s s D.
Proof. by split. Qed.

(** On every node of a stored tree [balance] returns; what it leaves in the
    heap is the tree that [tree_balance] describes. *)
Lemma balance_tree s l a v r fuel :
  NoDup (addrs (Node l a v r)) ->
  stored (mem s) (Node l a v r) ->
  (depth (Node l a v r) <= fuel)%nat ->
  exists s',
    balance fuel (Some a) s
    = Done (tree_root (tree_balance (Node l a v r)), s')
    /\ stored (mem s') (tree_balance (Node l a v r))
    /\ frame_outside s s' (addrs (Node l a v r))
    /\ elements s' = elements s.
Proof.
  intros Hnd Hst Hfuel.
  pose proof (tree_height_nonneg l). pose proof (tree_height_nonneg r).
  destruct (Z.lt_ge_cases 1 (tree_height l - tree_height r)) as [Hbf|Hbf].
  - rewrite (balance_left_heavy s l a v r fuel Hst Hfuel) by lia.
    unfold tree_balance. cbn [tree_difference].
    destruct (Z.gtb_spec (tree_height l - tree_height r) 1); [|lia].
    destruct l as [|ll b w lr]; [simpl in *; lia|].
    cbn [tree_difference].
    pose proof (tree_height_nonneg ll).
    destruct (Z.gtb_spec (tree_height ll - tree_height lr) 0).
    + by apply ll_rotation_tree.
    + destruct lr as [|lrl c u lrr]; [simpl in *; lia|].
      by apply lr_rotation_tree.
  - destruct (Z.lt_ge_cases (tree_height l - tree_height r) (-1)) as [Hbf'|Hbf'].
    + rewrite (balance_right_heavy s l a v r fuel Hst Hfuel) by lia.
      unfold tree_balance. cbn [tree_difference].
      destruct (Z.gtb_spec (tree_height l - tree_height r) 1); [lia|].
      destruct (Z.ltb_spec (tree_height l - tree_height r) (-1)); [|lia].
      destruct r as [|rl b w rr]; [simpl in *; lia|].
      cbn [tree_difference].
      pose proof (tree_height_nonneg rr).
      destruct (Z.gtb_spec (tree_height rl - tree_height rr) 0).
      * destruct rl as [|rll c u rlr]; [simpl in *; lia|].
        by apply rl_rotation_tree.
      * by apply rr_rotation_tree.
    + rewrite tree_balance_steady by lia.
      exists s. split_and!; [|done|apply frame_outside_refl|done].
      cbn [depth] in Hfuel. apply (balance_balanced s l a v r); (done || lia).
Qed.

(** ** Insert on the heap *)

Lemma insert_tree s t v :
  forall fuel,
    NoDup (addrs t) ->
    stored (mem s) t ->
    (depth t + 2 <= fuel)%nat ->
    exists s',
      insert fuel (tree_root t) v s
      = Done (tree_root (tree_insert (alloc (mem s)) t v), s')
      /\ stored (mem s') (tree_insert (alloc (mem s)) t v)
      /\ frame_outside s s' (alloc (mem s) :: addrs t)
      /\ elements s' - elements s
         = tree_size (tree_insert (alloc (mem s)) t v) - tree_size t.
Proof.
  set (new := alloc (mem s)).
  induction t as [|l IHl a x r IHr]; intros fuel Hnd Hst Hfuel.
  - destruct fuel as [|fuel]; [simpl in Hfuel; lia|].
    eexists. split; [reflexivity|]. cbn [mem root elements]. split_and!.
    + cbn [tree_insert]. split_and!; [|done|done]. apply lookup_insert_eq.
    + split; [done|]. intros y Hy. cbn [mem]. fold new.
      apply lookup_insert_ne. set_solver.
    + unfold tree_size. simpl. lia.
  - destruct fuel as [|fuel]; [simpl in Hfuel; lia|].
    pose proof (NoDup_addrs_node _ _ _ _ Hnd) as (Hndl & Hndr & Hal & Har & Hlr).
    destruct (stored_node _ _ _ _ _ Hst) as (Ha & Hl & Hr).
    assert (forall y, y ∈ addrs (Node l a x r) -> y <> new) as Hnew.
    { intros y Hy ->. destruct (stored_live _ _ _ Hst Hy) as [n Hn].
      unfold new in Hn. by rewrite alloc_fresh in Hn. }
    cbn [addrs] in Hnew. cbn [depth] in Hfuel.
    cbn [tree_root next_ptr insert tree_insert].
    read_node Ha.
    cbn [value left right].
    destruct (Z.ltb_spec v x).
    + destruct (IHl fuel Hndl Hl ltac:(lia)) as (s1 & Hins & Hl1 & Hfr1 & He1).
      set (l' := tree_insert new l v) in *.
      assert (forall y, y ∈ addrs l' -> y = new \/ y ∈ addrs l) as Hl'
        by apply addrs_insert_elem.
      destruct (set_left_subtree s s1 l l' a x r (new :: addrs l) Hst Hfr1 Hl1)
        as (s2 & Hset & Hst2 & Hfr2 & He2).
      { specialize (Hnew a). set_solver. }
      { intros Hin. apply Hl' in Hin. specialize (Hnew a). set_solver. }
      { intros y Hy. specialize (Hnew y). specialize (Hlr y). set_solver. }
      { done. }
      assert (NoDup (addrs (Node l' a x r))) as Hnd2.
      { cbn [addrs]. apply NoDup_app. split_and!.
        - apply NoDup_addrs_insert; [done|]. intros Hin.
          apply (Hnew new); [set_solver|done].
        - intros y Hy Hin. apply Hl' in Hy as [->|Hy].
          + apply (Hnew new); [set_solver|done].
          + apply elem_of_cons in Hin as [->|Hin]; [done|]. by apply (Hlr y).
        - by apply NoDup_cons. }
      destruct (balance_tree s2 l' a x r fuel Hnd2 Hst2)
        as (s3 & Hbal & Hst3 & Hfr3 & He3).
      { pose proof (depth_insert new l v) as Hd. fold l' in Hd. cbn [depth]. lia. }
      exists s3. split_and!.
      * step_with Hins.
        step_with Hset. exact Hbal.
      * done.
      * apply (frame_outside_trans s s2 s3 _ _ _ Hfr2 Hfr3).
        cbn [addrs]. intros y [Hy|Hy]; [set_solver|].
        apply elem_of_app in Hy as [Hy|Hy]; [|set_solver].
        apply Hl' in Hy. set_solver.
      * unfold tree_size in *. rewrite inorder_balance. cbn [inorder].
        rewrite !length_app. cbn [length]. lia.
    + destruct (Z.gtb_spec v x).
      * destruct (IHr fuel Hndr Hr ltac:(lia)) as (s1 & Hins & Hr1 & Hfr1 & He1).
        set (r' := tree_insert new r v) in *.
        assert (forall y, y ∈ addrs r' -> y = new \/ y ∈ addrs r) as Hr'
          by apply addrs_insert_elem.
        destruct (set_right_subtree s s1 l a x r r' (new :: addrs r) Hst Hfr1 Hr1)
          as (s2 & Hset & Hst2 & Hfr2 & He2).
        { specialize (Hnew a). set_solver. }
        { intros Hin. apply Hr' in Hin. specialize (Hnew a). set_solver. }
        { intros y Hy. specialize (Hnew y). specialize (Hlr y). set_solver. }
        { done. }
        assert (NoDup (addrs (Node l a x r'))) as Hnd2.
        { cbn [addrs]. apply NoDup_app. split_and!.
          - done.
          - intros y Hy Hin. apply elem_of_cons in Hin as [->|Hin]; [done|].
            apply Hr' in Hin as [->|Hin].
            + apply (Hnew new); [set_solver|done].
            + by apply (Hlr y).
          - apply NoDup_cons. split.
            + intros Hin. apply Hr' in Hin as [->|Hin]; [|done].
              apply (Hnew new); [set_solver|done].
            + apply NoDup_addrs_insert; [done|]. intros Hin.
              apply (Hnew new); [set_solver|done]. }
        destruct (balance_tree s2 l a x r' fuel Hnd2 Hst2)
          as (s3 & Hbal & Hst3 & Hfr3 & He3).
        { pose proof (depth_insert new r v) as Hd. fold r' in Hd. cbn [depth]. lia. }
        exists s3. split_and!.
        -- step_with Hins.
           step_with Hset. exact Hbal.
        -- done.
        -- apply (frame_outside_trans s s2 s3 _ _ _ Hfr2 Hfr3).
           cbn [addrs]. intros y [Hy|Hy]; [set_solver|].
           apply elem_of_app in Hy as [Hy|Hy]; [set_solver|].
           apply elem_of_cons in Hy as [->|Hy]; [set_solver|].
           apply Hr' in Hy. set_solver.
        -- unfold tree_size in *. rewrite inorder_balance. cbn [inorder].
           rewrite !length_app. cbn [length]. lia.
      * exists s. split_and!; [done|done|apply frame_outside_refl|lia].
Qed.

Lemma inorder_insert_new new t v : v ∈ inorder (tree_insert new t v).
Proof.
  induction t as [|l IHl a x r IHr]; cbn [tree_insert].
  - simpl. set_solver.
  - destruct (Z.ltb_spec v x).
    + rewrite inorder_balance. cbn [inorder]. set_solver.
    + destruct (Z.gtb_spec v x).
      * rewrite inorder_balance. cbn [inorder]. set_solver.
      * assert (v = x) as -> by lia. cbn [inorder]. set_solver.
Qed.

Lemma inorder_insert_old new t v x :
  x ∈ inorder t -> x ∈ inorder (tree_insert new t v).
Proof.
  induction t as [|l IHl a y r IHr]; cbn [tree_insert].
  { intros Hx. by apply elem_of_nil in Hx. }
  destruct (v <? y).
  - rewrite inorder_balance. cbn [inorder]. set_solver.
  - destruct (v >? y); [|done].
    rewrite inorder_balance. cbn [inorder]. set_solver.
Qed.

(** Insert keeps the invariants of the data model: the state holds a
    balanced search tree again, with the key added, and [elements] is its
    size. *)
Lemma op_insert_tree s t v fuel :
  represents s t -> bst t -> avl t -> elements s = tree_size t ->
  (depth t + 2 <= fuel)%nat ->
  exists s' t',
    op_insert fuel v s = Done (tt, s')
    /\ represents s' t' /\ bst t' /\ avl t' /\ elements s' = tree_size t'
    /\ (forall x, x ∈ inorder t' <-> x = v \/ x ∈ inorder t)
    /\ elements s'
       = elements s + (if bool_decide (v ∈ inorder t) then 0 else 1).
Proof.
  intros (Hroot & Hnd & Hst) Hbst Havl He Hfuel.
  destruct (insert_tree s t v fuel Hnd Hst Hfuel)
    as (s1 & Hins & Hst1 & (Hroot1 & Hm1) & He1).
  set (t' := tree_insert (alloc (mem s)) t v) in *.
  exists (mk_state (mem s1) (tree_root t') (elements s1)), t'. split_and!.
  - unfold op_insert. rewrite (bind_done _ _ s (root s) s) by done.
    rewrite Hroot. by step_with Hins.
  - split_and!; [done| |done].
    apply NoDup_addrs_insert; [done|]. intros Hin.
    destruct (stored_live _ _ _ Hst Hin) as [n Hn].
    by rewrite alloc_fresh in Hn.
  - by apply bst_insert.
  - by apply avl_insert.
  - cbn [elements]. lia.
  - intros x. split; [apply inorder_insert_elem|].
    intros [->|Hx]; [apply inorder_insert_new|by apply inorder_insert_old].
  - cbn [elements]. pose proof (tree_size_insert (alloc (mem s)) t v Hbst) as Hsz.
    fold t' in Hsz. lia.
Qed.

Lemma init_invariant : invariant init.
Proof.
  exists Leaf. split_and!; try done.
  split_and!; [done|constructor|done].
Qed.

(** Every sequence of inserts on the empty tree returns and ends in a
    state that satisfies the invariants. *)
Lemma inserts_invariant (vs : list Z) :
  forall s fuel,
    invariant s ->
    (Z.to_nat (elements s) + length vs + 2 <= fuel)%nat ->
    exists s',
      exec_all fuel (map Insert vs) s = Done (tt, s') /\ invariant s'.
Proof.
  induction vs as [|v vs IH]; intros s fuel Hinv Hfuel.
  { exists s. by split. }
  destruct Hinv as (t & Hrep & Hbst & Havl & He).
  pose proof (depth_le_size t) as Hd.
  assert (depth t + 2 <= fuel)%nat as Hf.
  { rewrite He in Hfuel. unfold tree_size in Hfuel. cbn [length] in Hfuel. lia. }
  destruct (op_insert_tree s t v fuel Hrep Hbst Havl He Hf)
    as (s1 & t1 & Hop & Hrep1 & Hbst1 & Havl1 & He1 & _ & Hcount).
  destruct (IH s1 fuel) as (s2 & Hrun & Hinv2).
  { by exists t1. }
  { cbn [length] in Hfuel. case_bool_decide; lia. }
  exists s2. split; [|done].
  cbn [map exec_all exec]. by step_with Hop.
Qed.

(** On a state that satisfies the invariants the two counts are the numbers
    of keys below and above [x], and with the presence of [x] they add up to
    [elements]. *)
Lemma count_consistency s t x fuel :
  represents s t -> bst t -> elements s = tree_size t ->
  (depth t <= fuel)%nat ->
  op_countSmallerThan fuel x s
  = Done (Z.of_nat (length (filter (fun v => v < x) (inorder t))), s)
  /\ op_countGreaterThan fuel x s
     = Done (Z.of_nat (length (filter (fun v => x < v) (inorder t))), s)
  /\ elements s
     = Z.of_nat (length (filter (fun v => v < x) (inorder t)))
       + Z.of_nat (length (filter (fun v => x < v) (inorder t)))
       + (if bool_decide (x ∈ inorder t) then 1 else 0).
Proof.
  intros (Hroot & Hnd & Hst) Hbst He Hfuel. split_and!.
  - unfold op_countSmallerThan.
    rewrite (bind_done _ _ s (root s) s) by done. rewrite Hroot.
    by apply numNodesSmallerThan_tree.
  - unfold op_countGreaterThan.
    rewrite (bind_done _ _ s (root s) s) by done. rewrite Hroot.
    by apply numNodesGreaterThan_tree.
  - rewrite He. unfold tree_size. apply count_split.
    by apply sorted_NoDup, bst_sorted.
Qed.

(** A caller that keeps the tree in a pointer of its own leaves the global
    [root] null, and [deleteNode] then returns null whatever it is given. *)
Lemma deleteNode_null_root s fuel p v :
  root s = None -> deleteNode (S fuel) p v s = Done (None, s).
Proof.
  intros Hroot. cbn [deleteNode].
  rewrite (bind_done _ _ s (root s) s) by done. by rewrite Hroot.
Qed.

(** Where [deleteNode] does rotate, the new subtree root that [balance]
    returns is dropped: called on the node of 40 to delete 30, it rotates 20
    above 40 and still returns the node of 40, which has no child left. *)
Lemma deleteNode_drops_rotation :
  exists s',
    deleteNode 8 (Some 1%positive) 30 left_heavy_state = Done (Some 1%positive, s')
    /\ mem s' !! 1%positive = Some (mk_node 40 None None)
    /\ mem s' !! 2%positive = Some (mk_node 20 (Some 3%positive) (Some 1%positive)).
Proof.
  eexists. split; [vm_compute; reflexivity|]. split; reflexivity.
Qed.

(** ** The properties of the specification *)

(** C1. The claim: after every insert and delete, every node satisfies BST
    order and the AVL balance condition.  On the code this fails: after the
    inserts 20, 10, 30 the state holds the search tree 10 - 20 - 30, and the
    delete of the leaf 10 returns [root->right] instead of the local node's
    right child, so that the node of 20 has the node of 30 as its left child
    as well; no search tree is stored at [root] any more. *)
Theorem delete_leaf_breaks_bst_order :
  exists s0 s1,
    exec_all 8 [Insert 20; Insert 10; Insert 30] init = Done (tt, s0)
    /\ represents s0 (Node (Node Leaf 2 10 Leaf) 1 20 (Node Leaf 3 30 Leaf))
    /\ bst (Node (Node Leaf 2 10 Leaf) 1 20 (Node Leaf 3 30 Leaf))
    /\ avl (Node (Node Leaf 2 10 Leaf) 1 20 (Node Leaf 3 30 Leaf))
    /\ exec 8 (Delete 10) s0 = Done (tt, s1)
    /\ root s1 = Some 1%positive
    /\ mem s1 !! 1%positive = Some (mk_node 20 (Some 3%positive) (Some 3%positive))
    /\ mem s1 !! 3%positive = Some (mk_node 30 None None)
    /\ ~ (exists t, root s1 = tree_root t /\ stored (mem s1) t /\ bst t).
Proof.
  eexists. eexists. split; [vm_compute; reflexivity|].
  split.
  { split; [reflexivity|]. split.
    - apply (bool_decide_unpack _). vm_compute. exact I.
    - vm_compute. repeat split. }
  split; [simpl; repeat (split || constructor || lia)|].
  split; [simpl; repeat (split || lia)|].
  split; [vm_compute; reflexivity|].
  split; [reflexivity|]. split; [reflexivity|]. split; [reflexivity|].
  intros (t & Hroot & Hst & Hbst).
  destruct t as [|l a v r]; [discriminate|].
  injection Hroot as <-.
  destruct Hst as (Ha & Hl & _). vm_compute in Ha.
  injection Ha as <- Hpl _.
  destruct l as [|ll b w lr]; [discriminate|].
  injection Hpl as <-.
  destruct Hl as (Hb & _). vm_compute in Hb. injection Hb as <- _ _.
  destruct Hbst as (Hlt & _). cbn [inorder] in Hlt.
  apply Forall_app in Hlt as (_ & Hlt).
  apply Forall_cons in Hlt as (Hlt & _). lia.
Qed.

(** C2. The claim: delete of an absent value completes and leaves the tree
    unchanged.  On the code, after the insert of 5, the delete of 3 descends
    to the null left child of the node of 5; the early exit tests the global
    [root], which is not null, and [rootNode->value] is read through the null
    pointer.  Only on the empty tree does the delete return with the state
    unchanged. *)
Theorem delete_absent_dereferences_null :
  exec_all 8 [Insert 5; Delete 3] init = Undefined
  /\ forall v, exec_all 8 [Delete v] init = Done (tt, init).
Proof. split; [vm_compute; reflexivity|]. intros v. reflexivity. Qed.

(** C3. The claim: delete of a node with zero or one children splices out
    exactly that node.  On the code, in the tree 10 - 20 - 30 the delete of
    the leaf 10 stores [root->right], the node of 30, in the left pointer of
    the node of 20 rather than null; and in the tree of 20, 10, 30, 5 the
    delete of 10, whose sole child is 5, stores [root->left], the node of 10
    itself, which has just been freed, and the following [balance] reads
    it. *)
Theorem delete_splices_through_global_root :
  (exists s0 s1,
      exec_all 8 [Insert 20; Insert 10; Insert 30] init = Done (tt, s0)
      /\ mem s0 !! 1%positive = Some (mk_node 20 (Some 2%positive) (Some 3%positive))
      /\ mem s0 !! 2%positive = Some (mk_node 10 None None)
      /\ deleteNode 8 (root s0) 10 s0 = Done (Some 1%positive, s1)
      /\ mem s1 !! 1%positive = Some (mk_node 20 (Some 3%positive) (Some 3%positive))
      /\ mem s1 !! 2%positive = None)
  /\ (exists s0,
      exec_all 8 [Insert 20; Insert 10; Insert 30; Insert 5] init = Done (tt, s0)
      /\ mem s0 !! 1%positive = Some (mk_node 20 (Some 2%positive) (Some 3%positive))
      /\ mem s0 !! 2%positive = Some (mk_node 10 (Some 4%positive) None)
      /\ deleteNode 8 (root s0) 10 s0 = Undefined).
Proof.
  split.
  - eexists. eexists. split; [vm_compute; reflexivity|].
    split; [reflexivity|]. split; [reflexivity|].
    split; [vm_compute; reflexivity|]. split; reflexivity.
  - eexists. split; [vm_compute; reflexivity|].
    split; [reflexivity|]. split; [reflexivity|].
    vm_compute. reflexivity.
Qed.

(** C4. The claim: [elements] equals the number of nodes reachable from
    [root], and each delete of a present key decrements it by one.  On the
    code, the delete of the only key 5 empties the tree and leaves [elements]
    at 1: the zero- and one-child cases return before the decrement. *)
Theorem delete_last_key_keeps_elements :
  exists s,
    exec_all 8 [Insert 5; Delete 5] init = Done (tt, s)
    /\ root s = None
    /\ mem s = ∅
    /\ numNodes 8 (root s) s = Done (0, s)
    /\ elements s = 1.
Proof.
  eexists. split; [vm_compute; reflexivity|].
  split; [reflexivity|]. split; [reflexivity|]. split; reflexivity.
Qed.

(** C5. For a node of a stored tree, [difference] is the height of the left
    subtree minus the height of the right subtree, the height of an absent
    subtree being 0 and that of a leaf 1, and [balance] applies the rotation
    of the decision table: factor > 1 and left factor > 0, [ll_rotation];
    factor > 1 and left factor <= 0, [lr_rotation]; factor < -1 and right
    factor > 0, [rl_rotation]; factor < -1 and right factor <= 0,
    [rr_rotation]; factor in [-1, 1], the node is returned and the state is
    unchanged.  When the nodes of the tree are distinct the call returns,
    and the heap then holds the tree rotated as the table says. *)
Theorem balance_decision_table s l a v r fuel :
  stored (mem s) (Node l a v r) ->
  (depth (Node l a v r) <= fuel)%nat ->
  let factor := tree_height l - tree_height r in
  height fuel None s = Done (0, s)
  /\ (l = Leaf -> r = Leaf -> height fuel (Some a) s = Done (1, s))
  /\ height fuel (tree_root l) s = Done (tree_height l, s)
  /\ height fuel (tree_root r) s = Done (tree_height r, s)
  /\ difference fuel (Some a) s = Done (factor, s)
  /\ (factor > 1 -> tree_difference l > 0 ->
      balance fuel (Some a) s = ll_rotation (Some a) s)
  /\ (factor > 1 -> tree_difference l <= 0 ->
      balance fuel (Some a) s = lr_rotation (Some a) s)
  /\ (factor < -1 -> tree_difference r > 0 ->
      balance fuel (Some a) s = rl_rotation (Some a) s)
  /\ (factor < -1 -> tree_difference r <= 0 ->
      balance fuel (Some a) s = rr_rotation (Some a) s)
  /\ (-1 <= factor <= 1 -> balance fuel (Some a) s = Done (Some a, s))
  /\ (NoDup (addrs (Node l a v r)) ->
      exists s',
        balance fuel (Some a) s
        = Done (tree_root (tree_balance (Node l a v r)), s')
        /\ stored (mem s') (tree_balance (Node l a v r))).
Proof.
  intros Hst Hfuel factor. subst factor.
  destruct (stored_node _ _ _ _ _ Hst) as (Ha & Hl & Hr).
  assert (depth l <= fuel /\ depth r <= fuel)%nat as [Hfl Hfr]
    by (cbn [depth] in Hfuel; lia).
  split; [by destruct fuel|].
  split.
  { intros -> ->. exact (height_tree s (Node Leaf a v Leaf) fuel Hst Hfuel). }
  split; [by apply height_tree|].
  split; [by apply height_tree|].
  split; [by apply (difference_tree s l a v r)|].
  split.
  { intros Hbf Hd. rewrite (balance_left_heavy s l a v r fuel Hst Hfuel Hbf).
    destruct (Z.gtb_spec (tree_difference l) 0); [done|lia]. }
  split.
  { intros Hbf Hd. rewrite (balance_left_heavy s l a v r fuel Hst Hfuel Hbf).
    destruct (Z.gtb_spec (tree_difference l) 0); [lia|done]. }
  split.
  { intros Hbf Hd. rewrite (balance_right_heavy s l a v r fuel Hst Hfuel Hbf).
    destruct (Z.gtb_spec (tree_difference r) 0); [done|lia]. }
  split.
  { intros Hbf Hd. rewrite (balance_right_heavy s l a v r fuel Hst Hfuel Hbf).
    destruct (Z.gtb_spec (tree_difference r) 0); [lia|done]. }
  split; [intros Hbf; by apply (balance_balanced s l a v r)|].
  intros Hnd.
  destruct (balance_tree s l a v r fuel Hnd Hst Hfuel) as (s' & Hbal & Hst' & _).
  by exists s'.
Qed.

(** The table at the left chain 30 - 20 - 10: factor 2, left factor 1, a
    right rotation. *)
Lemma balance_decision_table_witness :
  balance 3 (Some 1%positive) left_chain_state
  = ll_rotation (Some 1%positive) left_chain_state.
Proof.
  assert (stored (mem left_chain_state) left_chain_tree) as Hst
    by (vm_compute; repeat split).
  assert (depth left_chain_tree <= 3)%nat as Hfuel by (vm_compute; lia).
  pose proof (balance_decision_table left_chain_state _ _ _ _ 3 Hst Hfuel)
    as (_ & _ & _ & _ & _ & Hll & _).
  apply Hll; vm_compute; reflexivity.
Defined.

(** C6. The claim: [kSmallest] raises [InvalidArgument] exactly when [k] is
    outside 1 .. [elements], and for every [k] from 1 to [elements] returns
    the [k]-th smallest key.  On the code, after the inserts of 5 and 3 and
    the delete of 3 the state holds the balanced search tree of the one key 5
    and [elements] is still 2, because [deleteNode] returns from the zero-
    and one-child cases before the decrement; [kSmallest] for [k = 2] passes
    the range check, meets one node only and returns [INT_MIN], which is
    neither a key of the tree nor the exception. *)
Theorem kSmallest_accepts_k_beyond_the_nodes :
  exists s,
    exec_all 8 [Insert 5; Insert 3; Delete 3] init = Done (tt, s)
    /\ represents s (Node Leaf 1 5 Leaf)
    /\ bst (Node Leaf 1 5 Leaf)
    /\ avl (Node Leaf 1 5 Leaf)
    /\ numNodes 8 (root s) s = Done (1, s)
    /\ getNumElements s = Done (2, s)
    /\ kSmallest 8 (root s) 1 s = Done (5, s)
    /\ kSmallest 8 (root s) 2 s = Done (INT_MIN, s)
    /\ (INT_MIN ∉ inorder (Node Leaf 1 5 Leaf))
    /\ kSmallest 8 (root s) 3 s = InvalidArgument.
Proof.
  eexists. split; [vm_compute; reflexivity|].
  split.
  { split; [reflexivity|]. split.
    - apply (bool_decide_unpack _). vm_compute. exact I.
    - vm_compute. repeat split. }
  split; [simpl; repeat (split || constructor)|].
  split; [simpl; repeat (split || lia)|].
  split; [reflexivity|]. split; [reflexivity|].
  split; [vm_compute; reflexivity|].
  split; [vm_compute; reflexivity|].
  split; [apply (bool_decide_unpack _); vm_compute; exact I|].
  vm_compute. reflexivity.
Qed.

(** C7. On a state that holds a tree, a call of [kSmallest] with a valid [k]
    returns in the state in which it was called: the heap, with every child
    pointer of every node, [root] and [elements] are what they were. *)
Theorem kSmallest_restores_state s t fuel k :
  represents s t ->
  1 <= k <= elements s ->
  (2 * length (inorder t) <= fuel)%nat ->
  exists x, kSmallest fuel (root s) k s = Done (x, s).
Proof.
  intros (Hroot & Hnd & Hst) Hk Hfuel. rewrite Hroot.
  eexists. by apply kSmallest_scan.
Qed.

Lemma kSmallest_restores_state_witness :
  exists x, kSmallest 14 (root seven_state) 6 seven_state = Done (x, seven_state).
Proof.
  assert (represents seven_state seven_tree) as Hrep.
  { split; [reflexivity|]. split.
    - apply (bool_decide_unpack _). vm_compute. exact I.
    - vm_compute. repeat split. }
  apply (kSmallest_restores_state seven_state seven_tree 14 6 Hrep).
  - vm_compute. split; discriminate.
  - vm_compute. lia.
Defined.

(** C8. The claim: in every reachable state, [elements] is
    [countSmallerThan x + countGreaterThan x] plus 1 if [x] is present.  On
    the code, after the insert and the delete of 5 the tree is empty, both
    counts are 0 and no key is found, for every [x], while [elements] is 1:
    the delete of a node with at most one child does not decrement it. *)
Theorem count_consistency_fails_after_delete :
  exists s,
    exec_all 8 [Insert 5; Delete 5] init = Done (tt, s)
    /\ elements s = 1
    /\ forall x,
        op_countSmallerThan 8 x s = Done (0, s)
        /\ op_countGreaterThan 8 x s = Done (0, s)
        /\ op_search 8 x s = Done (None, s).
Proof.
  eexists. split; [vm_compute; reflexivity|]. split; [reflexivity|].
  intros x. split; [reflexivity|]. split; reflexivity.
Qed.

(** C9. On a state that holds a balanced search tree, the insert of a key of
    the tree returns the pointer it was given and leaves the state, with the
    heap and [elements], unchanged. *)
Theorem insert_present_is_noop s t v fuel :
  represents s t ->
  bst t ->
  avl t ->
  v ∈ inorder t ->
  (depth t <= fuel)%nat ->
  insert fuel (root s) v s = Done (root s, s)
  /\ op_insert fuel v s = Done (tt, s).
Proof.
  intros (Hroot & Hnd & Hst) Hbst Havl Hin Hfuel.
  assert (insert fuel (root s) v s = Done (root s, s)) as Hins.
  { rewrite Hroot. by apply insert_present. }
  split; [exact Hins|].
  unfold op_insert.
  rewrite (bind_done _ _ s (root s) s) by done.
  step_with Hins.
  unfold set_root. by rewrite state_eta.
Qed.

Lemma insert_present_is_noop_witness :
  op_insert 3 7 seven_state = Done (tt, seven_state).
Proof.
  assert (represents seven_state seven_tree) as Hrep.
  { split; [reflexivity|]. split.
    - apply (bool_decide_unpack _). vm_compute. exact I.
    - vm_compute. repeat split. }
  assert (bst seven_tree) as Hbst
    by (simpl; repeat (split || constructor || lia)).
  assert (avl seven_tree) as Havl by (simpl; repeat (split || lia)).
  assert (7 ∈ inorder seven_tree) as Hin by (vm_compute; set_solver).
  assert (depth seven_tree <= 3)%nat as Hfuel by (vm_compute; lia).
  exact (proj2 (insert_present_is_noop seven_state seven_tree 7 3
                  Hrep Hbst Havl Hin Hfuel)).
Defined.

(** C10. On a state that holds a tree, the loop of [kSmallest] reaches the
    null cursor: it runs for exactly [visits t] iterations, at most two for
    each node, each run of the inner loop ends within [depth t] steps, and
    the call returns. *)
Theorem kSmallest_loop_terminates s t n k :
  represents s t ->
  (depth t <= n)%nat ->
  (visits t <= 2 * length (inorder t))%nat
  /\ (forall fuel, (visits t <= fuel)%nat ->
        exists x, kSmallest_loop n fuel k (root s) 0 INT_MIN s = Done (x, s))
  /\ (forall fuel, (fuel < visits t)%nat ->
        kSmallest_loop n fuel k (root s) 0 INT_MIN s = OutOfFuel)
  /\ (forall fuel, 1 <= k <= elements s ->
        (2 * length (inorder t) <= fuel)%nat ->
        exists x, kSmallest fuel (root s) k s = Done (x, s)).
Proof.
  intros (Hroot & Hnd & Hst) Hn. rewrite Hroot.
  split; [apply visits_le|]. split; [|split].
  - intros fuel Hfuel. eexists. by apply kSmallest_loop_done.
  - intros fuel Hfuel. by apply (kSmallest_loop_short k t s None).
  - intros fuel Hk Hfuel. eexists. by apply kSmallest_scan.
Qed.

Lemma kSmallest_loop_terminates_witness :
  exists x,
    kSmallest_loop 3 10 2 (root seven_state) 0 INT_MIN seven_state
    = Done (x, seven_state).
Proof.
  assert (represents seven_state seven_tree) as Hrep.
  { split; [reflexivity|]. split.
    - apply (bool_decide_unpack _). vm_compute. exact I.
    - vm_compute. repeat split. }
  assert (depth seven_tree <= 3)%nat as Hn by (vm_compute; lia).
  pose proof (kSmallest_loop_terminates seven_state seven_tree 3 2
                Hrep Hn) as (_ & Hdone & _).
  apply Hdone. vm_compute. lia.
Defined.

(** ** Further properties of the code *)

(** *** [search] *)

Lemma search_present s t v :
  forall fuel,
    stored (mem s) t -> bst t -> v ∈ inorder t ->
    (depth t <= fuel)%nat ->
    exists a l r,
      search fuel (tree_root t) v s = Done (Some a, s)
      /\ a ∈ addrs t
      /\ mem s !! a = Some (mk_node v l r).
Proof.
  induction t as [|l IHl a x r IHr]; intros fuel Hst Hbst Hin Hfuel.
  { by apply elem_of_nil in Hin. }
  destruct fuel as [|fuel]; [simpl in Hfuel; lia|]. cbn [depth] in Hfuel.
  destruct (stored_node _ _ _ _ _ Hst) as (Ha & Hl & Hr).
  pose proof Hbst as (_ & _ & Hbl & Hbr).
  cbn [tree_root next_ptr search]. read_node Ha. cbn [value left right].
  destruct (bst_elem_cases _ _ _ _ _ Hbst Hin) as [[Hlt Hinl]|[->|[Hgt Hinr]]].
  - destruct (Z.eqb_spec x v); [lia|]. destruct (Z.gtb_spec x v); [|lia].
    destruct (IHl fuel Hl Hbl Hinl ltac:(lia)) as (b & pl & pr & Hs & Hb & Hn).
    exists b, pl, pr. split_and!; [done| |done]. cbn [addrs]. set_solver.
  - rewrite Z.eqb_refl. exists a, (tree_root l), (tree_root r).
    split_and!; [done| |done]. cbn [addrs]. set_solver.
  - destruct (Z.eqb_spec x v); [lia|]. destruct (Z.gtb_spec x v); [lia|].
    destruct (IHr fuel Hr Hbr Hinr ltac:(lia)) as (b & pl & pr & Hs & Hb & Hn).
    exists b, pl, pr. split_and!; [done| |done]. cbn [addrs]. set_solver.
Qed.

Lemma search_absent s t v :
  forall fuel,
    stored (mem s) t -> v ∉ inorder t ->
    (depth t <= fuel)%nat ->
    search fuel (tree_root t) v s = Done (None, s).
Proof.
  induction t as [|l IHl a x r IHr]; intros fuel Hst Hin Hfuel.
  { by destruct fuel. }
  destruct fuel as [|fuel]; [simpl in Hfuel; lia|]. cbn [depth] in Hfuel.
  destruct (stored_node _ _ _ _ _ Hst) as (Ha & Hl & Hr).
  cbn [tree_root next_ptr search]. read_node Ha. cbn [value left right].
  cbn [inorder] in Hin.
  destruct (Z.eqb_spec x v) as [->|Hne]; [set_solver|].
  destruct (Z.gtb_spec x v).
  - apply IHl; [done|set_solver|lia].
  - apply IHr; [done|set_solver|lia].
Qed.

(** X1. On a state that holds a search tree, [search] leaves the state as it
    is and returns a node of the tree that holds the value when the value is
    one of the keys, and null when it is not. *)
Theorem search_finds_exactly_the_keys s t v fuel :
  represents s t ->
  bst t ->
  (depth t <= fuel)%nat ->
  (v ∈ inorder t ->
   exists a l r,
     search fuel (root s) v s = Done (Some a, s)
     /\ a ∈ addrs t /\ mem s !! a = Some (mk_node v l r))
  /\ (v ∉ inorder t -> search fuel (root s) v s = Done (None, s)).
Proof.
  intros (Hroot & Hnd & Hst) Hbst Hfuel. rewrite Hroot. split.
  - intros Hin. by apply search_present.
  - intros Hin. by apply search_absent.
Qed.

Lemma search_finds_exactly_the_keys_witness :
  search 3 (root seven_state) 6 seven_state = Done (None, seven_state).
Proof.
  assert (represents seven_state seven_tree) as Hrep.
  { split; [reflexivity|]. split.
    - apply (bool_decide_unpack _). vm_compute. exact I.
    - vm_compute. repeat split. }
  assert (bst seven_tree) as Hbst
    by (simpl; repeat (split || constructor || lia)).
  assert (depth seven_tree <= 3)%nat as Hfuel by (vm_compute; lia).
  apply (search_finds_exactly_the_keys seven_state seven_tree 6 3
           Hrep Hbst Hfuel).
  apply (bool_decide_unpack _). vm_compute. exact I.
Defined.

(** *** [insert] *)

(** X2. On a state that holds a balanced search tree, [insert] returns a
    pointer to a balanced search tree whose keys are the old keys and the
    value; [elements] grows by one when the value is new and stays when it is
    present; the global [root] is not touched, and no node outside the tree
    other than the new one is written. *)
Theorem insert_keeps_balanced_search_tree s t v fuel :
  represents s t ->
  bst t ->
  avl t ->
  (depth t + 2 <= fuel)%nat ->
  exists s' t',
    insert fuel (root s) v s = Done (tree_root t', s')
    /\ stored (mem s') t' /\ NoDup (addrs t') /\ bst t' /\ avl t'
    /\ (forall x, x ∈ inorder t' <-> x = v \/ x ∈ inorder t)
    /\ elements s'
       = elements s + (if bool_decide (v ∈ inorder t) then 0 else 1)
    /\ root s' = root s
    /\ (forall x, x ∉ addrs t -> x <> alloc (mem s) ->
        mem s' !! x = mem s !! x).
Proof.
  intros (Hroot & Hnd & Hst) Hbst Havl Hfuel. rewrite Hroot.
  destruct (insert_tree s t v fuel Hnd Hst Hfuel)
    as (s1 & Hins & Hst1 & (Hroot1 & Hm1) & He1).
  set (t' := tree_insert (alloc (mem s)) t v) in *.
  exists s1, t'. split_and!; try done.
  - apply NoDup_addrs_insert; [done|]. intros Hin.
    destruct (stored_live _ _ _ Hst Hin) as [n Hn].
    by rewrite alloc_fresh in Hn.
  - by apply bst_insert.
  - by apply avl_insert.
  - intros x. split; [apply inorder_insert_elem|].
    intros [->|Hx]; [apply inorder_insert_new|by apply inorder_insert_old].
  - pose proof (tree_size_insert (alloc (mem s)) t v Hbst) as Hsz.
    fold t' in Hsz. lia.
  - congruence.
  - intros x Hx Hne. apply Hm1. set_solver.
Qed.

Lemma insert_keeps_balanced_search_tree_witness :
  exists s' t',
    insert 5 (root seven_state) 6 seven_state = Done (tree_root t', s')
    /\ stored (mem s') t' /\ NoDup (addrs t') /\ bst t' /\ avl t'
    /\ (forall x, x ∈ inorder t' <-> x = 6 \/ x ∈ inorder seven_tree)
    /\ elements s'
       = elements seven_state
         + (if bool_decide (6 ∈ inorder seven_tree) then 0 else 1)
    /\ root s' = root seven_state
    /\ (forall x, x ∉ addrs seven_tree -> x <> alloc (mem seven_state) ->
        mem s' !! x = mem seven_state !! x).
Proof.
  assert (represents seven_state seven_tree) as Hrep.
  { split; [reflexivity|]. split.
    - apply (bool_decide_unpack _). vm_compute. exact I.
    - vm_compute. repeat split. }
  assert (bst seven_tree) as Hbst
    by (simpl; repeat (split || constructor || lia)).
  assert (avl seven_tree) as Havl by (simpl; repeat (split || lia)).
  assert (depth seven_tree + 2 <= 5)%nat as Hfuel by (vm_compute; lia).
  exact (insert_keeps_balanced_search_tree seven_state seven_tree 6 5
           Hrep Hbst Havl Hfuel).
Defined.

Lemma inserts_keys (vs : list Z) :
  forall s t fuel,
    represents s t -> bst t -> avl t -> elements s = tree_size t ->
    (length (inorder t) + length vs + 2 <= fuel)%nat ->
    exists s' t',
      exec_all fuel (map Insert vs) s = Done (tt, s')
      /\ represents s' t' /\ bst t' /\ avl t' /\ elements s' = tree_size t'
      /\ (forall x, x ∈ inorder t' <-> x ∈ vs \/ x ∈ inorder t).
Proof.
  induction vs as [|v vs IH]; intros s t fuel Hrep Hbst Havl He Hfuel.
  { exists s, t. split_and!; try done. set_solver. }
  pose proof (depth_le_size t) as Hd. cbn [length] in Hfuel.
  destruct (op_insert_tree s t v fuel Hrep Hbst Havl He ltac:(lia))
    as (s1 & t1 & Hop & Hrep1 & Hbst1 & Havl1 & He1 & Hkeys1 & Hcount).
  destruct (IH s1 t1 fuel Hrep1 Hbst1 Havl1 He1) as
    (s2 & t2 & Hrun & Hrep2 & Hbst2 & Havl2 & He2 & Hkeys2).
  { unfold tree_size in *. case_bool_decide; lia. }
  exists s2, t2. split_and!; try done.
  - cbn [map exec_all exec]. by step_with Hop.
  - intros x. rewrite Hkeys2, Hkeys1. set_solver.
Qed.

(** X3. Every sequence of inserts on the freshly constructed tree returns
    and leaves a state that holds a balanced search tree; the keys of the tree
    are the inserted values, and [elements] is the number of distinct
    values. *)
Theorem inserts_build_balanced_search_tree (vs : list Z) (fuel : nat) :
  (length vs + 2 <= fuel)%nat ->
  exists s t,
    exec_all fuel (map Insert vs) init = Done (tt, s)
    /\ represents s t /\ bst t /\ avl t
    /\ (forall x, x ∈ inorder t <-> x ∈ vs)
    /\ elements s = Z.of_nat (length (remove_dups vs)).
Proof.
  intros Hfuel.
  destruct (inserts_keys vs init Leaf fuel) as
    (s & t & Hrun & Hrep & Hbst & Havl & He & Hkeys); try done.
  { split_and!; [done|constructor|done]. }
  exists s, t. split_and!; try done.
  - intros x. rewrite Hkeys. set_solver.
  - rewrite He. unfold tree_size. f_equal.
    apply Permutation_length, NoDup_Permutation.
    + by apply sorted_NoDup, bst_sorted.
    + apply NoDup_remove_dups.
    + intros x. rewrite Hkeys, elem_of_remove_dups. set_solver.
Qed.

Lemma inserts_build_balanced_search_tree_witness :
  exists s t,
    exec_all 6 (map Insert [30; 10; 20; 10]) init = Done (tt, s)
    /\ represents s t /\ bst t /\ avl t
    /\ (forall x, x ∈ inorder t <-> x ∈ [30; 10; 20; 10])
    /\ elements s = Z.of_nat (length (remove_dups [30; 10; 20; 10])).
Proof.
  apply (inserts_build_balanced_search_tree [30; 10; 20; 10] 6).
  vm_compute. lia.
Defined.

(** *** [height] and [numNodes] *)

Lemma avl_size_lower t :
  avl t ->
  forall j : nat, (2 * j <= depth t)%nat -> (2 ^ j <= length (inorder t) + 1)%nat.
Proof.
  induction t as [|l IHl a v r IHr]; intros Havl j Hj.
  { simpl in Hj. assert (j = O) as -> by lia. simpl. lia. }
  destruct Havl as (Hbf & Hal & Har).
  rewrite !tree_height_depth in Hbf. cbn [depth] in Hj.
  cbn [inorder]. rewrite length_app. cbn [length].
  destruct j as [|j]; [simpl; lia|].
  specialize (IHl Hal j ltac:(lia)). specialize (IHr Har j ltac:(lia)).
  rewrite Nat.pow_succ_r'. lia.
Qed.

Lemma avl_height_log t :
  avl t -> tree_height t <= 2 * Z.log2 (tree_size t + 1) + 1.
Proof.
  intros Havl. rewrite tree_height_depth. unfold tree_size.
  set (j := (depth t / 2)%nat).
  pose proof (Nat.div_mod_eq (depth t) 2) as Hdiv.
  pose proof (Nat.mod_upper_bound (depth t) 2 ltac:(lia)) as Hmod.
  fold j in Hdiv.
  pose proof (avl_size_lower t Havl j ltac:(lia)) as Hpow.
  assert (2 ^ Z.of_nat j <= Z.of_nat (length (inorder t)) + 1) as Hpow'.
  { apply Nat2Z.inj_le in Hpow. rewrite Nat2Z.inj_pow in Hpow. lia. }
  apply Z.log2_le_pow2 in Hpow'; lia.
Qed.

(** X4. On a state that holds a balanced tree with [elements] nodes,
    [height] of the root returns, changes nothing, and its result is at most
    [2 * log2 (elements + 1) + 1]. *)
Theorem height_is_logarithmic s t fuel :
  represents s t ->
  avl t ->
  elements s = tree_size t ->
  (depth t <= fuel)%nat ->
  exists h,
    height fuel (root s) s = Done (h, s)
    /\ 0 <= h <= 2 * Z.log2 (elements s + 1) + 1.
Proof.
  intros (Hroot & Hnd & Hst) Havl He Hfuel. rewrite Hroot, He.
  exists (tree_height t). split; [by apply height_tree|].
  split; [apply tree_height_nonneg|by apply avl_height_log].
Qed.

Lemma height_is_logarithmic_witness :
  exists h,
    height 3 (root seven_state) seven_state = Done (h, seven_state)
    /\ 0 <= h <= 2 * Z.log2 (elements seven_state + 1) + 1.
Proof.
  assert (represents seven_state seven_tree) as Hrep.
  { split; [reflexivity|]. split.
    - apply (bool_decide_unpack _). vm_compute. exact I.
    - vm_compute. repeat split. }
  assert (avl seven_tree) as Havl by (simpl; repeat (split || lia)).
  assert (elements seven_state = tree_size seven_tree) as He by reflexivity.
  assert (depth seven_tree <= 3)%nat as Hfuel by (vm_compute; lia).
  exact (height_is_logarithmic seven_state seven_tree 3 Hrep Havl He Hfuel).
Defined.

(** X5. After any sequence of inserts on the freshly constructed tree,
    [numNodes] of the root and [getNumElements] return the same number, and
    [numNodes] changes nothing. *)
Theorem numNodes_agrees_with_elements_after_inserts (vs : list Z) (fuel : nat) :
  (length vs + 2 <= fuel)%nat ->
  exists s n,
    exec_all fuel (map Insert vs) init = Done (tt, s)
    /\ numNodes fuel (root s) s = Done (n, s)
    /\ getNumElements s = Done (n, s).
Proof.
  intros Hfuel.
  destruct (inserts_keys vs init Leaf fuel) as
    (s & t & Hrun & (Hroot & Hnd & Hst) & Hbst & Havl & He & Hkeys); try done.
  { split_and!; [done|constructor|done]. }
  exists s, (tree_size t). split_and!; [done| |].
  - rewrite Hroot. apply numNodes_tree; [done|].
    pose proof (depth_le_size t).
    assert (length (inorder t) <= length vs)%nat; [|lia].
    apply submseteq_length, NoDup_submseteq.
    + by apply sorted_NoDup, bst_sorted.
    + intros x Hx. apply Hkeys in Hx. set_solver.
  - unfold getNumElements, get_elements. by rewrite He.
Qed.

Lemma numNodes_agrees_with_elements_after_inserts_witness :
  exists s n,
    exec_all 5 (map Insert [10; 20; 30]) init = Done (tt, s)
    /\ numNodes 5 (root s) s = Done (n, s)
    /\ getNumElements s = Done (n, s).
Proof.
  apply (numNodes_agrees_with_elements_after_inserts [10; 20; 30] 5).
  vm_compute. lia.
Defined.

(** *** [search] after [insert] *)

Lemma op_insert_represents s t v fuel :
  represents s t ->
  (depth t + 2 <= fuel)%nat ->
  exists s',
    op_insert fuel v s = Done (tt, s')
    /\ represents s' (tree_insert (alloc (mem s)) t v).
Proof.
  intros (Hroot & Hnd & Hst) Hfuel.
  destruct (insert_tree s t v fuel Hnd Hst Hfuel)
    as (s1 & Hins & Hst1 & _ & _).
  set (t' := tree_insert (alloc (mem s)) t v) in *.
  exists (mk_state (mem s1) (tree_root t') (elements s1)). split.
  - unfold op_insert. rewrite (bind_done _ _ s (root s) s) by done.
    rewrite Hroot. by step_with Hins.
  - split_and!; [done| |done].
    apply NoDup_addrs_insert; [done|]. intros Hin.
    destruct (stored_live _ _ _ Hst Hin) as [n Hn].
    by rewrite alloc_fresh in Hn.
Qed.

(** X6. On a state that holds a search tree, after the insert of a value
    [search] finds a node that holds the value, and for every other value it
    answers as the tree before the insert would: a node with that value for a
    key, null for any other value. *)
Theorem search_after_insert s t v fuel :
  represents s t ->
  bst t ->
  (depth t + 2 <= fuel)%nat ->
  exists s',
    op_insert fuel v s = Done (tt, s')
    /\ (exists a l r,
          search fuel (root s') v s' = Done (Some a, s')
          /\ mem s' !! a = Some (mk_node v l r))
    /\ (forall x, x ∈ inorder t ->
        exists a l r,
          search fuel (root s') x s' = Done (Some a, s')
          /\ mem s' !! a = Some (mk_node x l r))
    /\ (forall x, x <> v -> x ∉ inorder t ->
        search fuel (root s') x s' = Done (None, s')).
Proof.
  intros Hrep Hbst Hfuel.
  destruct (op_insert_represents s t v fuel Hrep Hfuel)
    as (s' & Hop & (Hroot' & Hnd' & Hst')).
  set (t' := tree_insert (alloc (mem s)) t v) in *.
  assert (bst t') as Hbst' by by apply bst_insert.
  assert (depth t' <= fuel)%nat as Hfuel'.
  { pose proof (depth_insert (alloc (mem s)) t v) as Hd. fold t' in Hd. lia. }
  exists s'. rewrite Hroot'. split_and!; [done| | |].
  - destruct (search_present s' t' v fuel Hst' Hbst') as (a & l & r & Hs & _ & Hn);
      [apply inorder_insert_new|done|]. by exists a, l, r.
  - intros x Hx.
    destruct (search_present s' t' x fuel Hst' Hbst') as (a & l & r & Hs & _ & Hn);
      [by apply inorder_insert_old|done|]. by exists a, l, r.
  - intros x Hne Hx. apply search_absent; [done| |done].
    intros Hin. apply inorder_insert_elem in Hin as [->|Hin]; done.
Qed.

Lemma search_after_insert_witness :
  exists s',
    op_insert 5 6 seven_state = Done (tt, s')
    /\ (exists a l r,
          search 5 (root s') 6 s' = Done (Some a, s')
          /\ mem s' !! a = Some (mk_node 6 l r))
    /\ (forall x, x ∈ inorder seven_tree ->
        exists a l r,
          search 5 (root s') x s' = Done (Some a, s')
          /\ mem s' !! a = Some (mk_node x l r))
    /\ (forall x, x <> 6 -> x ∉ inorder seven_tree ->
        search 5 (root s') x s' = Done (None, s')).
Proof.
  assert (represents seven_state seven_tree) as Hrep.
  { split; [reflexivity|]. split.
    - apply (bool_decide_unpack _). vm_compute. exact I.
    - vm_compute. repeat split. }
  assert (bst seven_tree) as Hbst
    by (simpl; repeat (split || constructor || lia)).
  assert (depth seven_tree + 2 <= 5)%nat as Hfuel by (vm_compute; lia).
  exact (search_after_insert seven_state seven_tree 6 5 Hrep Hbst Hfuel).
Defined.

(** *** [minValueNode] *)

Lemma minValueNode_tree s l :
  forall a v r fuel,
    stored (mem s) (Node l a v r) ->
    (depth (Node l a v r) <= fuel)%nat ->
    exists b x p rest,
      minValueNode fuel (Some a) s = Done (Some b, s)
      /\ b ∈ addrs (Node l a v r)
      /\ mem s !! b = Some (mk_node x None p)
      /\ inorder (Node l a v r) = x :: rest.
Proof.
  induction l as [|ll IHll b w lr _]; intros a v r fuel Hst Hfuel.
  - destruct fuel as [|fuel]; [simpl in Hfuel; lia|].
    destruct (stored_node _ _ _ _ _ Hst) as (Ha & _ & _).
    exists a, v, (tree_root r), (inorder r). split_and!; try done.
    + cbn [minValueNode]. by read_node Ha.
    + cbn [addrs]. set_solver.
  - destruct fuel as [|fuel]; [simpl in Hfuel; lia|].
    destruct (stored_node _ _ _ _ _ Hst) as (Ha & Hl & _).
    destruct (IHll b w lr fuel Hl) as (c & x & p & rest & Hmin & Hc & Hn & Hin).
    { cbn [depth] in Hfuel |- *. lia. }
    exists c, x, p, (rest ++ v :: inorder r). split_and!; try done.
    + cbn [minValueNode]. read_node Ha. by cbn [left tree_root next_ptr].
    + cbn [addrs] in Hc |- *. set_solver.
    + cbn [inorder] in Hin |- *. by rewrite Hin.
Qed.

(** X7. [minValueNode] leaves the state as it is.  On null it returns null;
    on a stored non-empty tree it returns the node that comes first in
    order, which has no left child, and in a search tree no key is below the
    value of that node. *)
Theorem minValueNode_is_leftmost s t fuel :
  stored (mem s) t ->
  (depth t <= fuel)%nat ->
  (t = Leaf -> minValueNode fuel (tree_root t) s = Done (None, s))
  /\ (t <> Leaf ->
      exists b x p,
        minValueNode fuel (tree_root t) s = Done (Some b, s)
        /\ b ∈ addrs t
        /\ mem s !! b = Some (mk_node x None p)
        /\ hd_error (inorder t) = Some x
        /\ (bst t -> forall y, y ∈ inorder t -> x <= y)).
Proof.
  intros Hst Hfuel. split; [intros ->; by destruct fuel|].
  destruct t as [|l a v r]; [done|]. intros _.
  destruct (minValueNode_tree s l a v r fuel Hst Hfuel)
    as (b & x & p & rest & Hmin & Hb & Hn & Hin).
  exists b, x, p. split_and!; try done.
  - by rewrite Hin.
  - intros Hbst y Hy. apply bst_sorted in Hbst. rewrite Hin in Hbst, Hy.
    apply StronglySorted_cons in Hbst as (Hall & _).
    apply elem_of_cons in Hy as [->|Hy]; [lia|].
    rewrite Forall_forall in Hall. specialize (Hall _ Hy). lia.
Qed.

Lemma minValueNode_is_leftmost_witness :
  exists b x p,
    minValueNode 3 (tree_root seven_tree) seven_state = Done (Some b, seven_state)
    /\ b ∈ addrs seven_tree
    /\ mem seven_state !! b = Some (mk_node x None p)
    /\ hd_error (inorder seven_tree) = Some x
    /\ (bst seven_tree -> forall y, y ∈ inorder seven_tree -> x <= y).
Proof.
  assert (stored (mem seven_state) seven_tree) as Hst
    by (vm_compute; repeat split).
  assert (depth seven_tree <= 3)%nat as Hfuel by (vm_compute; lia).
  apply (minValueNode_is_leftmost seven_state seven_tree 3 Hst Hfuel).
  discriminate.
Defined.

(** *** The counting queries *)

(** X8. On a state that holds a search tree, [numNodesSmallerThan] and
    [numNodesGreaterThan] change nothing and return the number of keys below
    and above [x]; with 1 for [x] itself when it is a key they add up to the
    number of nodes, and hence to [elements] when [elements] is that
    number. *)
Theorem counts_split_the_keys s t x fuel :
  represents s t ->
  bst t ->
  (depth t <= fuel)%nat ->
  numNodesSmallerThan fuel (root s) x s
  = Done (Z.of_nat (length (filter (fun v => v < x) (inorder t))), s)
  /\ numNodesGreaterThan fuel (root s) x s
     = Done (Z.of_nat (length (filter (fun v => x < v) (inorder t))), s)
  /\ tree_size t
     = Z.of_nat (length (filter (fun v => v < x) (inorder t)))
       + Z.of_nat (length (filter (fun v => x < v) (inorder t)))
       + (if bool_decide (x ∈ inorder t) then 1 else 0)
  /\ (elements s = tree_size t ->
      elements s
      = Z.of_nat (length (filter (fun v => v < x) (inorder t)))
        + Z.of_nat (length (filter (fun v => x < v) (inorder t)))
        + (if bool_decide (x ∈ inorder t) then 1 else 0)).
Proof.
  intros (Hroot & Hnd & Hst) Hbst Hfuel. rewrite Hroot.
  assert (tree_size t
          = Z.of_nat (length (filter (fun v => v < x) (inorder t)))
            + Z.of_nat (length (filter (fun v => x < v) (inorder t)))
            + (if bool_decide (x ∈ inorder t) then 1 else 0)) as Hsplit.
  { unfold tree_size. apply count_split. by apply sorted_NoDup, bst_sorted. }
  split_and!.
  - by apply numNodesSmallerThan_tree.
  - by apply numNodesGreaterThan_tree.
  - done.
  - intros ->. done.
Qed.

Lemma counts_split_the_keys_witness :
  numNodesSmallerThan 3 (root seven_state) 6 seven_state
  = Done (Z.of_nat (length (filter (fun v => v < 6) (inorder seven_tree))),
          seven_state).
Proof.
  assert (represents seven_state seven_tree) as Hrep.
  { split; [reflexivity|]. split.
    - apply (bool_decide_unpack _). vm_compute. exact I.
    - vm_compute. repeat split. }
  assert (bst seven_tree) as Hbst
    by (simpl; repeat (split || constructor || lia)).
  assert (depth seven_tree <= 3)%nat as Hfuel by (vm_compute; lia).
  exact (proj1 (counts_split_the_keys seven_state seven_tree 6 3
                  Hrep Hbst Hfuel)).
Defined.

Lemma sorted_rank (d : Z) (l : list Z) :
  StronglySorted Z.lt l ->
  forall i, (i < length l)%nat ->
    length (filter (fun v => v < nth i l d) l) = i
    /\ length (filter (fun v => nth i l d < v) l) = (length l - i - 1)%nat.
Proof.
  induction 1 as [|x l Hs IH Hx]; intros i Hi; [simpl in Hi; lia|].
  rewrite !filter_cons. destruct i as [|i]; cbn [nth length] in *.
  - rewrite !decide_False by lia.
    rewrite (filter_none (fun v => v < x) l), (filter_all (fun v => x < v) l).
    + simpl. lia.
    + done.
    + eapply Forall_impl; [exact Hx|]. intros y Hy. simpl in Hy. lia.
  - destruct (IH i ltac:(lia)) as (Hlt & Hgt).
    assert (x < nth i l d) as Hxi.
    { rewrite Forall_forall in Hx. apply Hx, list_elem_of_In, nth_In. lia. }
    rewrite decide_True by done. rewrite decide_False by lia.
    cbn [length]. lia.
Qed.

(** X9. On a state that holds a search tree of [elements] nodes, the value
    that [kSmallest] returns for [k] has [k - 1] keys below it and
    [elements - k] keys above it, as [numNodesSmallerThan] and
    [numNodesGreaterThan] count them. *)
Theorem kSmallest_has_rank_k s t fuel k :
  represents s t ->
  bst t ->
  elements s = tree_size t ->
  1 <= k <= elements s ->
  (2 * length (inorder t) <= fuel)%nat ->
  exists x,
    kSmallest fuel (root s) k s = Done (x, s)
    /\ numNodesSmallerThan fuel (root s) x s = Done (k - 1, s)
    /\ numNodesGreaterThan fuel (root s) x s = Done (elements s - k, s).
Proof.
  intros (Hroot & Hnd & Hst) Hbst He Hk Hfuel. rewrite Hroot.
  pose proof (depth_le_size t) as Hd.
  exists (nth (Z.to_nat (k - 1)) (inorder t) INT_MIN).
  unfold tree_size in He.
  destruct (sorted_rank INT_MIN (inorder t) (bst_sorted t Hbst)
              (Z.to_nat (k - 1)) ltac:(lia)) as (Hlt & Hgt).
  split_and!.
  - by apply kSmallest_tree.
  - rewrite (numNodesSmallerThan_tree s t _ fuel Hst Hbst) by lia.
    rewrite Hlt. do 2 f_equal. lia.
  - rewrite (numNodesGreaterThan_tree s t _ fuel Hst Hbst) by lia.
    rewrite Hgt. do 2 f_equal. lia.
Qed.

Lemma kSmallest_has_rank_k_witness :
  exists x,
    kSmallest 14 (root seven_state) 3 seven_state = Done (x, seven_state)
    /\ numNodesSmallerThan 14 (root seven_state) x seven_state
       = Done (3 - 1, seven_state)
    /\ numNodesGreaterThan 14 (root seven_state) x seven_state
       = Done (elements seven_state - 3, seven_state).
Proof.
  assert (represents seven_state seven_tree) as Hrep.
  { split; [reflexivity|]. split.
    - apply (bool_decide_unpack _). vm_compute. exact I.
    - vm_compute. repeat split. }
  assert (bst seven_tree) as Hbst
    by (simpl; repeat (split || constructor || lia)).
  assert (elements seven_state = tree_size seven_tree) as He by reflexivity.
  assert (1 <= 3 <= elements seven_state) as Hk
    by (vm_compute; split; discriminate).
  assert (2 * length (inorder seven_tree) <= 14)%nat as Hfuel
    by (vm_compute; lia).
  exact (kSmallest_has_rank_k seven_state seven_tree 14 3
           Hrep Hbst He Hk Hfuel).
Defined.

(** *** [kSmallest] when [elements] exceeds the number of nodes *)

Lemma scan_beyond k count ksmall l :
  count + Z.of_nat (length l) < k -> scan k count ksmall l = ksmall.
Proof.
  revert count ksmall. induction l as [|x l IH]; intros count ksmall Hk; [done|].
  cbn [scan length] in *. rewrite IH by lia.
  destruct (Z.eqb_spec (count + 1) k); [lia|done].
Qed.

(** X10. On a state that holds a tree with fewer nodes than [elements]
    says, as [deleteNode] leaves it, [kSmallest] accepts every [k] above the
    number of nodes and up to [elements]: it does not throw, it returns
    [INT_MIN], and the state is unchanged. *)
Theorem kSmallest_returns_INT_MIN_beyond_the_nodes s t fuel k :
  represents s t ->
  tree_size t < k <= elements s ->
  (2 * length (inorder t) <= fuel)%nat ->
  kSmallest fuel (root s) k s = Done (INT_MIN, s).
Proof.
  intros (Hroot & Hnd & Hst) Hk Hfuel. rewrite Hroot.
  assert (0 <= tree_size t) by (unfold tree_size; lia).
  rewrite (kSmallest_scan s t fuel k Hnd Hst) by (done || lia).
  rewrite scan_beyond; [done|]. unfold tree_size in Hk. lia.
Qed.

Lemma kSmallest_returns_INT_MIN_beyond_the_nodes_witness :
  exec_all 8 [Insert 5; Insert 3; Delete 3] init = Done (tt, stale_count_state)
  /\ kSmallest 2 (root stale_count_state) 2 stale_count_state
     = Done (INT_MIN, stale_count_state).
Proof.
  split; [vm_compute; reflexivity|].
  assert (represents stale_count_state (Node Leaf 1 5 Leaf)) as Hrep.
  { split; [reflexivity|]. split.
    - apply (bool_decide_unpack _). vm_compute. exact I.
    - vm_compute. repeat split. }
  apply (kSmallest_returns_INT_MIN_beyond_the_nodes stale_count_state
           (Node Leaf 1 5 Leaf) 2 2 Hrep).
  - vm_compute. split; [reflexivity|discriminate].
  - vm_compute. lia.
Defined.

(** *** The rotations *)

(** X11. A left rotation followed by a right rotation at the node that came
    up, or a right rotation followed by a left one, gives back the pointer
    and the state from which the first started. *)
Theorem rotations_undo_each_other s a b na nb :
  a <> b ->
  mem s !! a = Some na ->
  mem s !! b = Some nb ->
  (right na = Some b ->
   exists s1,
     rr_rotation (Some a) s = Done (Some b, s1)
     /\ ll_rotation (Some b) s1 = Done (Some a, s))
  /\ (left na = Some b ->
      exists s1,
        ll_rotation (Some a) s = Done (Some b, s1)
        /\ rr_rotation (Some b) s1 = Done (Some a, s)).
Proof.
  intros Hne Ha Hb. destruct na as [v pl pr], nb as [w ql qr].
  cbn [left right]. split; intros ->.
  - eexists. split; [by apply (rr_rotation_live s a b v pl w ql qr)|].
    erewrite (ll_rotation_live _ b a w qr v pl ql); [|done|..].
    + f_equal. f_equal. destruct s as [h rt e].
      unfold with_mem. cbn [mem root elements] in *. f_equal.
      apply map_eq. intros x.
      destruct (decide (x = a)) as [->|Hxa]; [by rewrite lookup_insert_eq|].
      rewrite lookup_insert_ne by done.
      destruct (decide (x = b)) as [->|Hxb]; [by rewrite lookup_insert_eq|].
      by rewrite !lookup_insert_ne by done.
    + cbn [with_mem mem]. by rewrite lookup_insert_eq.
    + cbn [with_mem mem]. rewrite lookup_insert_ne by done.
      by rewrite lookup_insert_eq.
  - eexists. split; [by apply (ll_rotation_live s a b v pr w ql qr)|].
    erewrite (rr_rotation_live _ b a w ql v qr pr); [|done|..].
    + f_equal. f_equal. destruct s as [h rt e].
      unfold with_mem. cbn [mem root elements] in *. f_equal.
      apply map_eq. intros x.
      destruct (decide (x = a)) as [->|Hxa]; [by rewrite lookup_insert_eq|].
      rewrite lookup_insert_ne by done.
      destruct (decide (x = b)) as [->|Hxb]; [by rewrite lookup_insert_eq|].
      by rewrite !lookup_insert_ne by done.
    + cbn [with_mem mem]. by rewrite lookup_insert_eq.
    + cbn [with_mem mem]. rewrite lookup_insert_ne by done.
      by rewrite lookup_insert_eq.
Qed.

Lemma rotations_undo_each_other_witness :
  exists s1,
    ll_rotation (Some 1%positive) left_chain_state = Done (Some 2%positive, s1)
    /\ rr_rotation (Some 2%positive) s1 = Done (Some 1%positive, left_chain_state).
Proof.
  assert (1%positive <> 2%positive) as Hne by discriminate.
  assert (mem left_chain_state !! 1%positive
          = Some (mk_node 30 (Some 2%positive) None)) as Ha by reflexivity.
  assert (mem left_chain_state !! 2%positive
          = Some (mk_node 20 (Some 3%positive) None)) as Hb by reflexivity.
  apply (rotations_undo_each_other left_chain_state _ _ _ _ Hne Ha Hb).
  reflexivity.
Defined.

(** X12. On a stored tree with distinct nodes each of the four rotations
    returns the address of the node that comes up, leaves in the heap the
    rotated tree, which has the same keys in the same order, writes no node
    outside the tree and leaves [root] and [elements] alone. *)
Theorem rotations_keep_the_keys_in_order s t :
  NoDup (addrs t) ->
  stored (mem s) t ->
  (forall l a v rl b w rr, t = Node l a v (Node rl b w rr) ->
     exists s',
       rr_rotation (Some a) s = Done (Some b, s')
       /\ stored (mem s') (Node (Node l a v rl) b w rr)
       /\ inorder (Node (Node l a v rl) b w rr) = inorder t
       /\ frame_outside s s' (addrs t) /\ elements s' = elements s)
  /\ (forall ll b w lr a v r, t = Node (Node ll b w lr) a v r ->
     exists s',
       ll_rotation (Some a) s = Done (Some b, s')
       /\ stored (mem s') (Node ll b w (Node lr a v r))
       /\ inorder (Node ll b w (Node lr a v r)) = inorder t
       /\ frame_outside s s' (addrs t) /\ elements s' = elements s)
  /\ (forall ll b w lrl c u lrr a v r,
     t = Node (Node ll b w (Node lrl c u lrr)) a v r ->
     exists s',
       lr_rotation (Some a) s = Done (Some c, s')
       /\ stored (mem s') (Node (Node ll b w lrl) c u (Node lrr a v r))
       /\ inorder (Node (Node ll b w lrl) c u (Node lrr a v r)) = inorder t
       /\ frame_outside s s' (addrs t) /\ elements s' = elements s)
  /\ (forall l a v rll c u rlr b w rr,
     t = Node l a v (Node (Node rll c u rlr) b w rr) ->
     exists s',
       rl_rotation (Some a) s = Done (Some c, s')
       /\ stored (mem s') (Node (Node l a v rll) c u (Node rlr b w rr))
       /\ inorder (Node (Node l a v rll) c u (Node rlr b w rr)) = inorder t
       /\ frame_outside s s' (addrs t) /\ elements s' = elements s).
Proof.
  intros Hnd Hst. split_and!.
  - intros l a v rl b w rr ->.
    destruct (rr_rotation_tree s l a v rl b w rr Hnd Hst)
      as (s' & Hrot & Hst' & Hfr & He).
    exists s'. split_and!; try done. cbn [inorder]. by rewrite <- app_assoc.
  - intros ll b w lr a v r ->.
    destruct (ll_rotation_tree s ll b w lr a v r Hnd Hst)
      as (s' & Hrot & Hst' & Hfr & He).
    exists s'. split_and!; try done. cbn [inorder]. by rewrite <- app_assoc.
  - intros ll b w lrl c u lrr a v r ->.
    destruct (lr_rotation_tree s ll b w lrl c u lrr a v r Hnd Hst)
      as (s' & Hrot & Hst' & Hfr & He).
    exists s'. split_and!; try done. cbn [inorder].
    repeat (rewrite <- app_assoc; cbn [app]). done.
  - intros l a v rll c u rlr b w rr ->.
    destruct (rl_rotation_tree s l a v rll c u rlr b w rr Hnd Hst)
      as (s' & Hrot & Hst' & Hfr & He).
    exists s'. split_and!; try done. cbn [inorder].
    repeat (rewrite <- app_assoc; cbn [app]). done.
Qed.

Lemma rotations_keep_the_keys_in_order_witness :
  exists s',
    ll_rotation (Some 1%positive) left_chain_state = Done (Some 2%positive, s')
    /\ stored (mem s')
         (Node (Node Leaf 3 10 Leaf) 2 20 (Node Leaf 1 30 Leaf))
    /\ inorder (Node (Node Leaf 3 10 Leaf) 2 20 (Node Leaf 1 30 Leaf))
       = inorder left_chain_tree
    /\ frame_outside left_chain_state s' (addrs left_chain_tree)
    /\ elements s' = elements left_chain_state.
Proof.
  assert (NoDup (addrs left_chain_tree)) as Hnd
    by (apply (bool_decide_unpack _); vm_compute; exact I).
  assert (stored (mem left_chain_state) left_chain_tree) as Hst
    by (vm_compute; repeat split).
  pose proof (rotations_keep_the_keys_in_order left_chain_state
                left_chain_tree Hnd Hst) as (_ & Hll & _).
  exact (Hll _ _ _ _ _ _ _ eq_refl).
Defined.

(** *** [balance] *)

(** X13. On a node of a stored tree with distinct nodes [balance] returns;
    the tree it leaves has the same keys in the same order and is no higher,
    no node outside the tree is written, and [root] and [elements] are
    untouched.  When both subtrees are balanced and the node is either within
    balance or off by two with a child that leans, as after an insert, the
    tree it leaves is balanced. *)
Theorem balance_keeps_keys_and_restores_balance s l a v r fuel :
  NoDup (addrs (Node l a v r)) ->
  stored (mem s) (Node l a v r) ->
  (depth (Node l a v r) <= fuel)%nat ->
  exists s' t',
    balance fuel (Some a) s = Done (tree_root t', s')
    /\ stored (mem s') t'
    /\ NoDup (addrs t')
    /\ inorder t' = inorder (Node l a v r)
    /\ tree_height t' <= tree_height (Node l a v r)
    /\ frame_outside s s' (addrs (Node l a v r))
    /\ elements s' = elements s
    /\ (avl l -> avl r ->
        -1 <= tree_height l - tree_height r <= 1
        \/ (tree_height l - tree_height r = 2 /\ tree_difference l <> 0)
        \/ (tree_height l - tree_height r = -2 /\ tree_difference r <> 0) ->
        avl t').
Proof.
  intros Hnd Hst Hfuel.
  destruct (balance_tree s l a v r fuel Hnd Hst Hfuel)
    as (s' & Hbal & Hst' & Hfr & He).
  exists s', (tree_balance (Node l a v r)). split_and!; try done.
  - by rewrite addrs_balance.
  - apply inorder_balance.
  - apply tree_height_balance.
  - intros Hal Har [Hbf|[[Hbf Hd]|[Hbf Hd]]].
    + rewrite tree_balance_steady by done. cbn [avl]. split_and!; (done || lia).
    + by apply tree_balance_left.
    + by apply tree_balance_right.
Qed.

Lemma balance_keeps_keys_and_restores_balance_witness :
  exists s' t',
    balance 3 (Some 1%positive) left_chain_state = Done (tree_root t', s')
    /\ stored (mem s') t'
    /\ NoDup (addrs t')
    /\ inorder t' = inorder left_chain_tree
    /\ tree_height t' <= tree_height left_chain_tree
    /\ frame_outside left_chain_state s' (addrs left_chain_tree)
    /\ elements s' = elements left_chain_state
    /\ (avl (Node (Node Leaf 3 10 Leaf) 2 20 Leaf) -> avl Leaf ->
        -1 <= tree_height (Node (Node Leaf 3 10 Leaf) 2 20 Leaf)
              - tree_height Leaf <= 1
        \/ (tree_height (Node (Node Leaf 3 10 Leaf) 2 20 Leaf)
            - tree_height Leaf = 2
            /\ tree_difference (Node (Node Leaf 3 10 Leaf) 2 20 Leaf) <> 0)
        \/ (tree_height (Node (Node Leaf 3 10 Leaf) 2 20 Leaf)
            - tree_height Leaf = -2
            /\ tree_difference Leaf <> 0) ->
        avl t').
Proof.
  assert (NoDup (addrs left_chain_tree)) as Hnd
    by (apply (bool_decide_unpack _); vm_compute; exact I).
  assert (stored (mem left_chain_state) left_chain_tree) as Hst
    by (vm_compute; repeat split).
  assert (depth left_chain_tree <= 3)%nat as Hfuel by (vm_compute; lia).
  exact (balance_keeps_keys_and_restores_balance left_chain_state
           _ _ _ _ 3 Hnd Hst Hfuel).
Defined.

(** *** [deleteNode] *)

(** X14. On a state that holds a non-empty tree, [deleteNode] with a value
    that is not a key never returns: the descent arrives at a null child
    while the global [root] is not null and reads through the null
    pointer. *)
Theorem deleteNode_reads_null_for_absent_key s t v fuel :
  represents s t ->
  t <> Leaf ->
  v ∉ inorder t ->
  (depth t < fuel)%nat ->
  deleteNode fuel (root s) v s = Undefined
  /\ op_delete fuel v s = Undefined.
Proof.
  intros (Hroot & Hnd & Hst) Hne Hin Hfuel.
  assert (root s <> None) as Hnonnull.
  { rewrite Hroot. by destruct t. }
  assert (deleteNode fuel (root s) v s = Undefined) as Hdel.
  { rewrite Hroot. by apply deleteNode_absent. }
  split; [done|]. unfold op_delete.
  rewrite (bind_done _ _ s (root s) s) by done.
  by apply bind_undefined.
Qed.

Lemma deleteNode_reads_null_for_absent_key_witness :
  deleteNode 4 (root seven_state) 6 seven_state = Undefined
  /\ op_delete 4 6 seven_state = Undefined.
Proof.
  assert (represents seven_state seven_tree) as Hrep.
  { split; [reflexivity|]. split.
    - apply (bool_decide_unpack _). vm_compute. exact I.
    - vm_compute. repeat split. }
  assert (seven_tree <> Leaf) as Hne by discriminate.
  assert (6 ∉ inorder seven_tree) as Hin
    by (apply (bool_decide_unpack _); vm_compute; exact I).
  assert (depth seven_tree < 4)%nat as Hfuel by (vm_compute; lia).
  exact (deleteNode_reads_null_for_absent_key seven_state seven_tree 6 4
           Hrep Hne Hin Hfuel).
Defined.

Lemma free_live s a n :
  mem s !! a = Some n ->
  free (Some a) s = Done (tt, with_mem s (delete a (mem s))).
Proof. unfold free. by intros ->. Qed.

(** X15. On a state that holds a tree whose root has at most one child, the
    delete of the key at the root returns: the node is released, the child,
    or null when there is none, becomes the tree, nothing else in the heap
    changes, and [elements] is left as it was, one more than the number of
    nodes if it was that number before. *)
Theorem delete_root_with_at_most_one_child s l a v r fuel :
  represents s (Node l a v r) ->
  l = Leaf \/ r = Leaf ->
  (0 < fuel)%nat ->
  let child := match l with Leaf => r | Node _ _ _ _ => l end in
  let s' := mk_state (delete a (mem s)) (tree_root child) (elements s) in
  deleteNode fuel (root s) v s
  = Done (tree_root child, with_mem s (delete a (mem s)))
  /\ op_delete fuel v s = Done (tt, s')
  /\ represents s' child
  /\ (elements s = tree_size (Node l a v r) ->
      elements s' = tree_size child + 1).
Proof.
  intros (Hroot & Hnd & Hst) Hone Hfuel child s'.
  destruct fuel as [|fuel]; [lia|].
  apply NoDup_addrs_node in Hnd as (Hndl & Hndr & Hal & Har & Hlr).
  destruct (stored_node _ _ _ _ _ Hst) as (Ha & Hl & Hr).
  cbn [tree_root next_ptr] in Hroot.
  assert (deleteNode (S fuel) (Some a) v s
          = Done (tree_root child, with_mem s (delete a (mem s)))) as Hdel.
  { cbn [deleteNode]. rewrite (bind_done _ _ s (root s) s) by done.
    rewrite Hroot. read_node Ha. cbn [value left right].
    rewrite Z.ltb_irrefl. destruct (Z.gtb_spec v v); [lia|].
    subst child. destruct l as [|ll b w lr].
    - cbn [tree_root next_ptr]. read_node Ha. cbn [right].
      by rewrite (bind_done _ _ _ _ _ (free_live _ _ _ Ha)).
    - destruct Hone as [Hone| ->]; [done|]. cbn [tree_root next_ptr].
      read_node Ha. cbn [left].
      by rewrite (bind_done _ _ _ _ _ (free_live _ _ _ Ha)). }
  split_and!.
  - by rewrite Hroot.
  - unfold op_delete. rewrite (bind_done _ _ s (root s) s) by done.
    rewrite Hroot. by step_with Hdel.
  - split_and!; [done| |].
    + subst child. by destruct l.
    + subst child s'. cbn [mem].
      destruct l as [|ll b w lr].
      * apply (linked_frame (mem s)); [done|]. intros x Hx.
        apply lookup_delete_ne. by intros ->.
      * apply (linked_frame (mem s)); [done|]. intros x Hx.
        apply lookup_delete_ne. by intros ->.
  - intros He. subst child s'. cbn [elements]. rewrite He.
    unfold tree_size. cbn [inorder]. rewrite length_app. cbn [length].
    destruct l as [|ll b w lr].
    + simpl. lia.
    + destruct Hone as [Hone| ->]; [done|]. simpl. lia.
Qed.

Lemma delete_root_with_at_most_one_child_witness :
  op_delete 1 5 stale_count_state
  = Done (tt, mk_state (delete 1%positive (mem stale_count_state)) None 2).
Proof.
  assert (represents stale_count_state (Node Leaf 1 5 Leaf)) as Hrep.
  { split; [reflexivity|]. split.
    - apply (bool_decide_unpack _). vm_compute. exact I.
    - vm_compute. repeat split. }
  assert (0 < 1)%nat as Hfuel by lia.
  exact (proj1 (proj2 (delete_root_with_at_most_one_child stale_count_state
                         Leaf 1 5 Leaf 1 Hrep (or_introl eq_refl) Hfuel))).
Defined.

Lemma set_value_live s a n x :
  mem s !! a = Some n ->
  set_value (Some a) x s
  = Done (tt, with_mem s (<[a := mk_node x (left n) (right n)]> (mem s))).
Proof. unfold set_value, put_node. by intros ->. Qed.

Lemma bind_out_of_fuel {A B} (m : M A) (k : A -> M B) s :
  m s = OutOfFuel -> bind m k s = OutOfFuel.
Proof. unfold bind. by intros ->. Qed.

Lemma deleteNode_unfold fuel rootNode v :
  deleteNode (S fuel) rootNode v
  = (do rt <- get_root;
     match rt with
     | None => ret rt
     | Some _ =>
         do n <- get_node rootNode;
         if v <? value n then
           do l <- deleteNode fuel (left n) v;
           run set_left rootNode l;
           do _ <- balance fuel rootNode;
           ret rootNode
         else if v >? value n then
           do r <- deleteNode fuel (right n) v;
           run set_right rootNode r;
           do _ <- balance fuel rootNode;
           ret rootNode
         else
           match left n with
           | None =>
               do g <- get_node rt;
               run free rootNode;
               ret (right g)
           | Some _ =>
               match right n with
               | None =>
                   do g <- get_node rt;
                   run free rootNode;
                   ret (left g)
               | Some _ =>
                   do temp <- minValueNode fuel (right n);
                   do t <- get_node temp;
                   run set_value rootNode (value t);
                   do n' <- get_node rootNode;
                   do t' <- get_node temp;
                   do r <- deleteNode fuel (right n') (value t');
                   run set_right rootNode r;
                   do e <- get_elements;
                   run set_elements (e - 1);
                   do _ <- balance fuel rootNode;
                   ret rootNode
               end
           end
     end).
Proof. reflexivity. Qed.

(** X16. On a state that holds a tree whose root has two children, the
    right one without a left child, the delete of the key at the root never
    returns: the successor, which is the right child, is released and the
    pointer to it is stored back in the root, and [balance] reads the
    released node. *)
Theorem delete_root_with_successor_as_right_child s l a v b w rr fuel :
  represents s (Node l a v (Node Leaf b w rr)) ->
  l <> Leaf ->
  (depth l + 2 <= fuel)%nat ->
  deleteNode fuel (root s) v s = Undefined
  /\ op_delete fuel v s = Undefined.
Proof.
  intros (Hroot & Hnd & Hst) Hl Hfuel.
  cbn [tree_root next_ptr] in Hroot.
  pose proof (NoDup_addrs_node _ _ _ _ Hnd) as (Hndl & Hndr & Hal & Har & Hlr).
  destruct (stored_node _ _ _ _ _ Hst) as (Ha & Hstl & Hstr).
  destruct (stored_node _ _ _ _ _ Hstr) as (Hb & _ & Hstrr).
  assert (a <> b) as Hab by (cbn [addrs] in Har; set_solver).
  assert (b ∉ addrs l) as Hbl.
  { intros Hin. apply (Hlr _ Hin). cbn [addrs]. set_solver. }
  destruct l as [|ll c u lr]; [done|].
  destruct fuel as [|[|fuel]]; [lia|cbn [depth] in Hfuel; lia|].
  assert (deleteNode (S (S fuel)) (Some a) v s = Undefined) as Hdel.
  { rewrite deleteNode_unfold. rewrite (bind_done _ _ s (root s) s) by done.
    rewrite Hroot. read_node Ha. cbn [value left right tree_root next_ptr].
    rewrite Z.ltb_irrefl. destruct (Z.gtb_spec v v); [lia|].
    (* the successor is the right child *)
    rewrite (bind_done _ _ s (Some b) s)
      by (cbn [minValueNode]; by read_node Hb).
    read_node Hb. cbn [value].
    rewrite (bind_done _ _ _ _ _ (set_value_live _ _ _ w Ha)).
    cbn [left right].
    set (s1 := with_mem s _).
    assert (mem s1 !! a = Some (mk_node w (Some c) (Some b))) as Ha1
      by (cbn [s1 with_mem mem]; by rewrite lookup_insert_eq).
    assert (mem s1 !! b = Some (mk_node w None (tree_root rr))) as Hb1
      by (cbn [s1 with_mem mem]; by rewrite lookup_insert_ne).
    read_node Ha1. read_node Hb1. cbn [value right].
    (* the nested call releases it and returns [root->right] *)
    set (s2 := with_mem s1 (delete b (mem s1))).
    assert (deleteNode (S fuel) (Some b) w s1 = Done (Some b, s2)) as Hinner.
    { rewrite deleteNode_unfold.
      assert (get_root s1 = Done (Some a, s1)) as Hroot1
        by (unfold get_root; cbn [s1 with_mem root]; by rewrite Hroot).
      step_with Hroot1. read_node Hb1. cbn [value left].
      rewrite Z.ltb_irrefl. destruct (Z.gtb_spec w w); [lia|].
      read_node Ha1. cbn [right].
      by rewrite (bind_done _ _ _ _ _ (free_live _ _ _ Hb1)). }
    step_with Hinner.
    assert (mem s2 !! a = Some (mk_node w (Some c) (Some b))) as Ha2
      by (cbn [s2 with_mem mem]; by rewrite lookup_delete_ne).
    rewrite (bind_done _ _ _ _ _ (set_right_same _ _ _ Ha2)).
    rewrite (bind_done _ _ s2 (elements s2) s2) by done.
    set (s3 := mk_state (mem s2) (root s2) (elements s2 - 1)).
    rewrite (bind_done _ _ s2 tt s3) by done.
    (* [balance] measures the left subtree and then the released node *)
    apply bind_undefined. unfold balance. apply bind_undefined.
    unfold difference.
    assert (mem s3 !! a = Some (mk_node w (Some c) (Some b))) as Ha3 by done.
    read_node Ha3. cbn [left right].
    assert (stored (mem s3) (Node ll c u lr)) as Hl3.
    { apply (linked_frame (mem s)); [done|]. intros x Hx.
      cbn [s3 s2 s1 with_mem mem].
      rewrite lookup_delete_ne by (by intros ->).
      apply lookup_insert_ne. by intros ->. }
    rewrite (bind_done _ _ _ _ _ (height_tree s3 (Node ll c u lr) (S fuel) Hl3 ltac:(lia))).
    apply bind_undefined. cbn [height]. apply bind_undefined.
    unfold get_node. cbn [s3 s2 with_mem mem]. by rewrite lookup_delete_eq. }
  split; [by rewrite Hroot|]. unfold op_delete.
  rewrite (bind_done _ _ s (root s) s) by done. rewrite Hroot.
  by apply bind_undefined.
Qed.

Lemma delete_root_with_successor_as_right_child_witness :
  exec_all 8 [Insert 5; Insert 3; Insert 8] init = Done (tt, three_state)
  /\ deleteNode 3 (root three_state) 5 three_state = Undefined.
Proof.
  split; [vm_compute; reflexivity|].
  assert (represents three_state three_tree) as Hrep.
  { split; [reflexivity|]. split.
    - apply (bool_decide_unpack _). vm_compute. exact I.
    - vm_compute. repeat split. }
  assert (Node Leaf 2 3 Leaf <> Leaf) as Hl by discriminate.
  assert (depth (Node Leaf 2 3 Leaf) + 2 <= 3)%nat as Hfuel
    by (vm_compute; lia).
  exact (proj1 (delete_root_with_successor_as_right_child three_state
                  _ _ _ _ _ _ 3 Hrep Hl Hfuel)).
Defined.

Lemma height_left_cycle s (C : list addr) :
  (forall q, q ∈ C ->
     exists n q', mem s !! q = Some n /\ left n = Some q' /\ q' ∈ C) ->
  forall fuel q, q ∈ C -> height fuel (Some q) s = OutOfFuel.
Proof.
  intros Hclosed. induction fuel as [|fuel IH]; intros q Hq; [done|].
  destruct (Hclosed q Hq) as (n & q' & Hn & Hleft & Hq').
  cbn [height]. read_node Hn. rewrite Hleft.
  apply bind_out_of_fuel. by apply IH.
Qed.

Lemma minValueNode_cases s l :
  forall a v r fuel,
    stored (mem s) (Node l a v r) ->
    minValueNode fuel (Some a) s = OutOfFuel
    \/ exists b x p rest,
         minValueNode fuel (Some a) s = Done (Some b, s)
         /\ b ∈ addrs (Node l a v r)
         /\ mem s !! b = Some (mk_node x None p)
         /\ inorder (Node l a v r) = x :: rest.
Proof.
  induction l as [|ll IHll b w lr _]; intros a v r fuel Hst.
  - destruct fuel as [|fuel]; [by left|]. right.
    destruct (stored_node _ _ _ _ _ Hst) as (Ha & _ & _).
    exists a, v, (tree_root r), (inorder r). split_and!; try done.
    + cbn [minValueNode]. by read_node Ha.
    + cbn [addrs]. set_solver.
  - destruct fuel as [|fuel]; [by left|].
    destruct (stored_node _ _ _ _ _ Hst) as (Ha & Hl & _).
    assert (minValueNode (S fuel) (Some a) s = minValueNode fuel (Some b) s)
      as ->.
    { cbn [minValueNode]. read_node Ha. by cbn [left tree_root next_ptr]. }
    destruct (IHll b w lr fuel Hl)
      as [Hout|(c & x & p & rest & Hmin & Hc & Hn & Hin)]; [by left|].
    right. exists c, x, p, (rest ++ v :: inorder r). split_and!; try done.
    + cbn [addrs] in Hc |- *. set_solver.
    + cbn [inorder] in Hin |- *. by rewrite Hin.
Qed.

(** The descent of the nested call along the left spine of the right
    subtree: the successor is released, the pointer that its parent gets is
    [root->right], the top of the spine, and [height] then walks round the
    spine. *)
Lemma deleteNode_spine s x g ng b :
  root s = Some g ->
  mem s !! g = Some ng ->
  right ng = Some b ->
  forall ul p y ur rest (anc : list addr),
    ul <> Leaf ->
    stored (mem s) (Node ul p y ur) ->
    NoDup (addrs (Node ul p y ur)) ->
    bst (Node ul p y ur) ->
    inorder (Node ul p y ur) = x :: rest ->
    (forall q, q ∈ anc -> q ∉ addrs (Node ul p y ur)) ->
    (forall q, q ∈ anc ->
       exists n q', mem s !! q = Some n /\ left n = Some q' /\ q' ∈ p :: anc) ->
    b ∈ p :: anc ->
    forall fuel, deleteNode fuel (Some p) x s = OutOfFuel.
Proof.
  intros Hroot Hg Hgb.
  induction ul as [|ull IH c z ulr _];
    intros p y ur rest anc Hne Hst Hnd Hbst Hin Hanc Hclosed Hb fuel; [done|].
  destruct fuel as [|fuel]; [done|].
  pose proof (NoDup_addrs_node _ _ _ _ Hnd) as (Hndl & Hndr & Hpl & Hpr & Hlr).
  destruct (stored_node _ _ _ _ _ Hst) as (Hp & Hstl & Hstr).
  destruct (stored_node _ _ _ _ _ Hstl) as (Hc & Hstll & Hstlr).
  pose proof Hbst as (Hlt & _ & Hbl & _).
  assert (exists rest', inorder (Node ull c z ulr) = x :: rest') as (rest' & Hinl).
  { cbn [inorder] in Hin |- *. destruct (inorder ull) as [|x0 r0].
    - injection Hin as <- _. by eexists.
    - injection Hin as <- _. by eexists. }
  assert (x < y) as Hxy.
  { rewrite Forall_forall in Hlt. apply Hlt. rewrite Hinl. set_solver. }
  assert (get_root s = Done (Some g, s)) as Hgetroot
    by (unfold get_root; by rewrite Hroot).
  rewrite deleteNode_unfold. step_with Hgetroot. read_node Hp.
  cbn [value left right tree_root next_ptr].
  destruct (Z.ltb_spec x y); [|lia].
  destruct ull as [|ulll d t ullr].
  - (* [c] is the successor *)
    cbn [inorder app] in Hinl. injection Hinl as -> _.
    destruct fuel as [|fuel]; [done|].
    assert (c <> p) as Hcp by (cbn [addrs] in Hpl; set_solver).
    set (s2 := with_mem s (delete c (mem s))).
    assert (deleteNode (S fuel) (Some c) x s = Done (Some b, s2)) as Hdel.
    { rewrite deleteNode_unfold. step_with Hgetroot. read_node Hc.
      cbn [value left tree_root next_ptr].
      rewrite Z.ltb_irrefl. destruct (Z.gtb_spec x x); [lia|].
      read_node Hg. rewrite Hgb.
      by rewrite (bind_done _ _ _ _ _ (free_live _ _ _ Hc)). }
    step_with Hdel.
    assert (mem s2 !! p = Some (mk_node y (Some c) (tree_root ur))) as Hp2
      by (cbn [s2 with_mem mem]; by rewrite lookup_delete_ne).
    rewrite (bind_done _ _ _ _ _ (set_left_live _ _ _ (Some b) Hp2)).
    cbn [value right]. set (s3 := mk_state _ _ _).
    apply bind_out_of_fuel. unfold balance. apply bind_out_of_fuel.
    unfold difference.
    assert (mem s3 !! p = Some (mk_node y (Some b) (tree_root ur))) as Hp3
      by (cbn [s3 mem]; by rewrite lookup_insert_eq).
    read_node Hp3. cbn [left]. apply bind_out_of_fuel.
    apply (height_left_cycle s3 (p :: anc)); [|done].
    intros q Hq. apply elem_of_cons in Hq as [->|Hq].
    + by exists (mk_node y (Some b) (tree_root ur)), b.
    + destruct (Hclosed q Hq) as (n & q' & Hn & Hleft & Hq').
      exists n, q'. split_and!; [|done|done].
      specialize (Hanc q Hq). cbn [addrs] in Hanc.
      cbn [s3 s2 with_mem mem].
      rewrite lookup_insert_ne by set_solver.
      rewrite lookup_delete_ne by set_solver. done.
  - (* the successor is further down *)
    apply bind_out_of_fuel.
    apply (IH c z ulr rest' (p :: anc)); try done.
    + intros q Hq. apply elem_of_cons in Hq as [->|Hq]; [done|].
      specialize (Hanc q Hq). cbn [addrs] in Hanc |- *. set_solver.
    + intros q Hq. apply elem_of_cons in Hq as [->|Hq].
      * exists (mk_node y (Some c) (tree_root ur)), c.
        split_and!; [done|done|set_solver].
      * destruct (Hclosed q Hq) as (n & q' & Hn & Hleft & Hq').
        exists n, q'. split_and!; [done|done|set_solver].
    + set_solver.
Qed.

(** X17. On a state that holds a search tree whose root has two children,
    the right one with a left child, the delete of the key at the root does
    not return, whatever the fuel: the parent of the successor is given
    [root->right], the top of its own left spine, for left child, and
    [height] recurses round that cycle without end. *)
Theorem delete_root_with_deep_successor_never_returns s l a v rl b w rr :
  represents s (Node l a v (Node rl b w rr)) ->
  bst (Node l a v (Node rl b w rr)) ->
  l <> Leaf ->
  rl <> Leaf ->
  forall fuel,
    deleteNode fuel (root s) v s = OutOfFuel
    /\ op_delete fuel v s = OutOfFuel.
Proof.
  intros (Hroot & Hnd & Hst) Hbst Hl Hrl fuel.
  cbn [tree_root next_ptr] in Hroot.
  pose proof (NoDup_addrs_node _ _ _ _ Hnd) as (Hndl & Hndr & Hal & Har & Hlr).
  destruct (stored_node _ _ _ _ _ Hst) as (Ha & Hstl & Hstr).
  pose proof Hbst as (_ & _ & _ & Hbr).
  assert (deleteNode fuel (Some a) v s = OutOfFuel) as Hdel.
  { destruct fuel as [|fuel]; [done|].
    rewrite deleteNode_unfold. rewrite (bind_done _ _ s (root s) s) by done.
    rewrite Hroot. read_node Ha. cbn [value left right].
    rewrite Z.ltb_irrefl. destruct (Z.gtb_spec v v); [lia|].
    destruct l as [|ll c u lr]; [done|]. cbn [tree_root next_ptr].
    destruct (minValueNode_cases s rl b w rr fuel Hstr)
      as [Hout|(m & x & pm & rest & Hmin & Hm & Hnm & Hin)].
    { by apply bind_out_of_fuel. }
    assert (m <> a) as Hma by (by intros ->).
    step_with Hmin. read_node Hnm. cbn [value].
    rewrite (bind_done _ _ _ _ _ (set_value_live _ _ _ x Ha)).
    cbn [left right]. set (s1 := with_mem s _).
    assert (mem s1 !! a = Some (mk_node x (Some c) (Some b))) as Ha1
      by (cbn [s1 with_mem mem]; by rewrite lookup_insert_eq).
    assert (mem s1 !! m = Some (mk_node x None pm)) as Hm1
      by (cbn [s1 with_mem mem]; by rewrite lookup_insert_ne).
    read_node Ha1. read_node Hm1. cbn [value right].
    apply bind_out_of_fuel.
    apply (deleteNode_spine s1 x a _ b Hroot Ha1 eq_refl rl b w rr rest []);
      try done.
    - apply linked_insert_other; done.
    - intros q Hq. by apply elem_of_nil in Hq.
    - intros q Hq. by apply elem_of_nil in Hq.
    - set_solver. }
  split; [by rewrite Hroot|]. unfold op_delete.
  rewrite (bind_done _ _ s (root s) s) by done. rewrite Hroot.
  by apply bind_out_of_fuel.
Qed.

Lemma delete_root_with_deep_successor_never_returns_witness :
  deleteNode 50 (root seven_state) 5 seven_state = OutOfFuel.
Proof.
  assert (represents seven_state seven_tree) as Hrep.
  { split; [reflexivity|]. split.
    - apply (bool_decide_unpack _). vm_compute. exact I.
    - vm_compute. repeat split. }
  assert (bst seven_tree) as Hbst
    by (simpl; repeat (split || constructor || lia)).
  assert (Node (Node Leaf 4 1 Leaf) 2 3 (Node Leaf 5 4 Leaf) <> Leaf) as Hl
    by discriminate.
  assert (Node Leaf 6 7 Leaf <> Leaf) as Hrl by discriminate.
  exact (proj1 (delete_root_with_deep_successor_never_returns seven_state
                  _ _ _ _ _ _ _ Hrep Hbst Hl Hrl 50)).
Defined.

(** *** The printing functions *)

Lemma out_ints_app o1 o2 : out_ints (o1 ++ o2) = out_ints o1 ++ out_ints o2.
Proof.
  induction o1 as [|[z|str] o1 IH]; cbn [app out_ints]; by rewrite ?IH.
Qed.

Lemma root_marks_app o1 o2 :
  root_marks (o1 ++ o2) = (root_marks o1 + root_marks o2)%nat.
Proof.
  induction o1 as [|[z|str] o1 IH]; cbn [app root_marks]; [done|done|].
  destruct (String.eqb str "Root -> "); lia.
Qed.

Lemma out_ints_key_blank (l : list Z) : out_ints (flat_map key_blank l) = l.
Proof. induction l as [|x l IH]; [done|]. simpl. by rewrite IH. Qed.

Lemma out_blanks n :
  out_ints (replicate n (OutStr " ")) = []
  /\ root_marks (replicate n (OutStr " ")) = O.
Proof. induction n as [|n [IH1 IH2]]; [done|]. by split. Qed.

Lemma print_inorder_tree s t :
  forall fuel,
    stored (mem s) t -> (depth t <= fuel)%nat ->
    Print.inorder fuel (tree_root t) s
    = Done (flat_map key_blank (inorder t), s).
Proof.
  induction t as [|l IHl a v r IHr]; intros fuel Hst Hfuel.
  { by destruct fuel. }
  destruct (stored_node _ _ _ _ _ Hst) as (Ha & Hl & Hr).
  destruct fuel as [|fuel]; [simpl in Hfuel; lia|]. cbn [depth] in Hfuel.
  cbn [tree_root next_ptr Print.inorder]. read_node Ha. cbn [left right value].
  rewrite (bind_done _ _ _ _ _ (IHl fuel Hl ltac:(lia))).
  rewrite (bind_done _ _ _ _ _ (IHr fuel Hr ltac:(lia))).
  cbn [inorder]. by rewrite flat_map_app.
Qed.

Lemma print_preorder_tree s t :
  forall fuel,
    stored (mem s) t -> (depth t <= fuel)%nat ->
    Print.preorder fuel (tree_root t) s
    = Done (flat_map key_blank (tree_preorder t), s).
Proof.
  induction t as [|l IHl a v r IHr]; intros fuel Hst Hfuel.
  { by destruct fuel. }
  destruct (stored_node _ _ _ _ _ Hst) as (Ha & Hl & Hr).
  destruct fuel as [|fuel]; [simpl in Hfuel; lia|]. cbn [depth] in Hfuel.
  cbn [tree_root next_ptr Print.preorder]. read_node Ha. cbn [left right value].
  rewrite (bind_done _ _ _ _ _ (IHl fuel Hl ltac:(lia))).
  rewrite (bind_done _ _ _ _ _ (IHr fuel Hr ltac:(lia))).
  cbn [tree_preorder flat_map]. by rewrite flat_map_app.
Qed.

Lemma print_postorder_tree s t :
  forall fuel,
    stored (mem s) t -> (depth t <= fuel)%nat ->
    Print.postorder fuel (tree_root t) s
    = Done (flat_map key_blank (tree_postorder t), s).
Proof.
  induction t as [|l IHl a v r IHr]; intros fuel Hst Hfuel.
  { by destruct fuel. }
  destruct (stored_node _ _ _ _ _ Hst) as (Ha & Hl & Hr).
  destruct fuel as [|fuel]; [simpl in Hfuel; lia|]. cbn [depth] in Hfuel.
  cbn [tree_root next_ptr Print.postorder]. read_node Ha. cbn [left right value].
  rewrite (bind_done _ _ _ _ _ (IHl fuel Hl ltac:(lia))).
  rewrite (bind_done _ _ _ _ _ (IHr fuel Hr ltac:(lia))).
  cbn [tree_postorder]. rewrite !flat_map_app. done.
Qed.

Lemma tree_preorder_perm t : tree_preorder t ≡ₚ inorder t.
Proof.
  induction t as [|l IHl a v r IHr]; [done|].
  cbn [tree_preorder inorder]. rewrite IHl, IHr.
  by rewrite Permutation_middle.
Qed.

Lemma tree_postorder_perm t : tree_postorder t ≡ₚ inorder t.
Proof.
  induction t as [|l IHl a v r IHr]; [done|].
  cbn [tree_postorder inorder]. rewrite IHl, IHr.
  f_equiv. by rewrite <- Permutation_cons_append.
Qed.

(** X18. On a stored tree [inorder] changes nothing and prints the keys in
    order from left to right, each followed by a blank; on a search tree the
    numbers it prints are strictly ascending. *)
Theorem print_inorder_is_ascending s t fuel :
  stored (mem s) t ->
  (depth t <= fuel)%nat ->
  exists o,
    Print.inorder fuel (tree_root t) s = Done (o, s)
    /\ o = flat_map key_blank (inorder t)
    /\ out_ints o = inorder t
    /\ (bst t -> StronglySorted Z.lt (out_ints o)).
Proof.
  intros Hst Hfuel. exists (flat_map key_blank (inorder t)).
  rewrite out_ints_key_blank. split_and!; try done.
  - by apply print_inorder_tree.
  - apply bst_sorted.
Qed.

Lemma print_inorder_is_ascending_witness :
  exists o,
    Print.inorder 3 (tree_root seven_tree) seven_state = Done (o, seven_state)
    /\ o = flat_map key_blank (inorder seven_tree)
    /\ out_ints o = inorder seven_tree
    /\ (bst seven_tree -> StronglySorted Z.lt (out_ints o)).
Proof.
  assert (stored (mem seven_state) seven_tree) as Hst
    by (vm_compute; repeat split).
  assert (depth seven_tree <= 3)%nat as Hfuel by (vm_compute; lia).
  exact (print_inorder_is_ascending seven_state seven_tree 3 Hst Hfuel).
Defined.

(** X19. On a stored tree [preorder] and [postorder] change nothing and
    print every key once, each followed by a blank: what they print is a
    rearrangement of the keys in order, with the key of the root first in
    [preorder] and last in [postorder]. *)
Theorem print_preorder_postorder_visit_each_key_once s l a v r fuel :
  stored (mem s) (Node l a v r) ->
  (depth (Node l a v r) <= fuel)%nat ->
  exists pre post,
    Print.preorder fuel (Some a) s = Done (flat_map key_blank pre, s)
    /\ Print.postorder fuel (Some a) s = Done (flat_map key_blank post, s)
    /\ pre ≡ₚ inorder (Node l a v r)
    /\ post ≡ₚ inorder (Node l a v r)
    /\ hd_error pre = Some v
    /\ last post = Some v.
Proof.
  intros Hst Hfuel.
  exists (tree_preorder (Node l a v r)), (tree_postorder (Node l a v r)).
  split_and!.
  - by apply (print_preorder_tree s (Node l a v r)).
  - by apply (print_postorder_tree s (Node l a v r)).
  - apply tree_preorder_perm.
  - apply tree_postorder_perm.
  - done.
  - cbn [tree_postorder]. rewrite app_assoc. apply last_snoc.
Qed.

Lemma print_preorder_postorder_visit_each_key_once_witness :
  exists pre post,
    Print.preorder 3 (Some 1%positive) seven_state
    = Done (flat_map key_blank pre, seven_state)
    /\ Print.postorder 3 (Some 1%positive) seven_state
       = Done (flat_map key_blank post, seven_state)
    /\ pre ≡ₚ inorder seven_tree
    /\ post ≡ₚ inorder seven_tree
    /\ hd_error pre = Some 5
    /\ last post = Some 5.
Proof.
  assert (stored (mem seven_state) seven_tree) as Hst
    by (vm_compute; repeat split).
  assert (depth seven_tree <= 3)%nat as Hfuel by (vm_compute; lia).
  exact (print_preorder_postorder_visit_each_key_once seven_state
           _ _ _ _ 3 Hst Hfuel).
Defined.

Lemma show_subtree s t :
  forall fuel level,
    stored (mem s) t ->
    (forall x, x ∈ addrs t -> root s <> Some x) ->
    (depth t <= fuel)%nat ->
    exists o,
      Print.show fuel (tree_root t) level s = Done (o, s)
      /\ out_ints o = rev (inorder t)
      /\ root_marks o = O.
Proof.
  induction t as [|l IHl a v r IHr]; intros fuel level Hst Hroot Hfuel.
  { exists []. by destruct fuel. }
  destruct (stored_node _ _ _ _ _ Hst) as (Ha & Hl & Hr).
  destruct fuel as [|fuel]; [simpl in Hfuel; lia|]. cbn [depth] in Hfuel.
  destruct (IHr fuel (level + 1) Hr) as (o1 & Hshow1 & Hints1 & Hmarks1);
    [intros x Hx; apply Hroot; cbn [addrs]; set_solver|lia|].
  destruct (IHl fuel (level + 1) Hl) as (o2 & Hshow2 & Hints2 & Hmarks2);
    [intros x Hx; apply Hroot; cbn [addrs]; set_solver|lia|].
  assert (root s <> Some a) as Hne by (apply Hroot; cbn [addrs]; set_solver).
  eexists. split_and!.
  - cbn [tree_root next_ptr Print.show]. read_node Ha. cbn [left right value].
    step_with Hshow1. rewrite (bind_done _ _ s (root s) s) by done.
    step_with Hshow2. rewrite !decide_False by done. reflexivity.
  - rewrite !out_ints_app. cbn [out_ints app].
    rewrite (proj1 (out_blanks _)), Hints1, Hints2. cbn [inorder app].
    rewrite rev_app_distr. cbn [rev]. by rewrite <- app_assoc.
  - rewrite !root_marks_app. cbn [root_marks String.eqb Ascii.eqb Bool.eqb].
    rewrite (proj2 (out_blanks _)), Hmarks1, Hmarks2. done.
Qed.

(** X20. On a state that holds a tree, [show] from the root changes
    nothing, prints the keys in reverse order, right subtree first and left
    subtree last, so that the numbers are strictly descending on a search
    tree, and prints the mark of the root once, for the root alone. *)
Theorem show_prints_keys_in_reverse_order s t fuel level :
  represents s t ->
  (depth t <= fuel)%nat ->
  exists o,
    Print.show fuel (root s) level s = Done (o, s)
    /\ out_ints o = rev (inorder t)
    /\ root_marks o = (if t is Leaf then 0 else 1)%nat
    /\ (bst t -> StronglySorted (fun x y => y < x) (out_ints o)).
Proof.
  intros (Hroot & Hnd & Hst) Hfuel. rewrite Hroot.
  assert (forall o, out_ints o = rev (inorder t) ->
            bst t -> StronglySorted (fun x y => y < x) (out_ints o)) as Hdesc.
  { intros o -> Hbst. apply bst_sorted in Hbst.
    induction Hbst as [|x xs Hs IH Hx]; [constructor|].
    cbn [rev]. apply StronglySorted_app. split_and!; [|done|by repeat constructor].
    intros y z Hy Hz. apply list_elem_of_singleton in Hz as ->.
    apply list_elem_of_In, in_rev, list_elem_of_In in Hy.
    rewrite Forall_forall in Hx. by apply Hx. }
  destruct t as [|l a v r].
  { exists []. split_and!; [by destruct fuel|done|done|by constructor]. }
  apply NoDup_addrs_node in Hnd as (Hndl & Hndr & Hal & Har & Hlr).
  destruct (stored_node _ _ _ _ _ Hst) as (Ha & Hl & Hr).
  cbn [tree_root next_ptr] in Hroot.
  destruct fuel as [|fuel]; [simpl in Hfuel; lia|]. cbn [depth] in Hfuel.
  destruct (show_subtree s r fuel (level + 1) Hr)
    as (o1 & Hshow1 & Hints1 & Hmarks1);
    [intros x Hx; rewrite Hroot; by intros [= ->]|lia|].
  destruct (show_subtree s l fuel (level + 1) Hl)
    as (o2 & Hshow2 & Hints2 & Hmarks2);
    [intros x Hx; rewrite Hroot; by intros [= ->]|lia|].
  assert (exists o,
            Print.show (S fuel) (Some a) level s = Done (o, s)
            /\ out_ints o = rev (inorder (Node l a v r))
            /\ root_marks o = 1%nat) as (o & Hshow & Hints & Hmarks).
  { eexists. split_and!.
    - cbn [Print.show]. read_node Ha. cbn [left right value].
      step_with Hshow1. rewrite (bind_done _ _ s (root s) s) by done.
      step_with Hshow2. rewrite Hroot. rewrite !decide_True by done.
      reflexivity.
    - rewrite !out_ints_app. cbn [out_ints app].
      rewrite Hints1, Hints2. cbn [inorder app].
      rewrite rev_app_distr. cbn [rev]. by rewrite <- app_assoc.
    - rewrite !root_marks_app. cbn [root_marks app].
      rewrite Hmarks1, Hmarks2. done. }
  exists o. split_and!; try done. by apply Hdesc.
Qed.

Lemma show_prints_keys_in_reverse_order_witness :
  exists o,
    Print.show 3 (root seven_state) 0 seven_state = Done (o, seven_state)
    /\ out_ints o = rev (inorder seven_tree)
    /\ root_marks o = 1%nat
    /\ (bst seven_tree -> StronglySorted (fun x y => y < x) (out_ints o)).
Proof.
  assert (represents seven_state seven_tree) as Hrep.
  { split; [reflexivity|]. split.
    - apply (bool_decide_unpack _). vm_compute. exact I.
    - vm_compute. repeat split. }
  assert (depth seven_tree <= 3)%nat as Hfuel by (vm_compute; lia).
  exact (show_prints_keys_in_reverse_order seven_state seven_tree 3 0
           Hrep Hfuel).
Defined.

(** *** Compositions *)

(** X21. On a state that holds a balanced search tree, a second insert of
    the same value right after the first changes nothing: the state after
    two inserts is the state after one. *)
Theorem insert_twice_is_insert_once s t v fuel :
  represents s t ->
  bst t ->
  avl t ->
  (depth t + 2 <= fuel)%nat ->
  exists s1,
    op_insert fuel v s = Done (tt, s1)
    /\ op_insert fuel v s1 = Done (tt, s1).
Proof.
  intros Hrep Hbst Havl Hfuel.
  destruct (op_insert_represents s t v fuel Hrep Hfuel)
    as (s1 & Hop & (Hroot1 & Hnd1 & Hst1)).
  set (t1 := tree_insert (alloc (mem s)) t v) in *.
  exists s1. split; [done|]. unfold op_insert.
  rewrite (bind_done _ _ s1 (root s1) s1) by done. rewrite Hroot1.
  rewrite (bind_done _ _ s1 (tree_root t1) s1).
  - unfold set_root. rewrite <- Hroot1. by rewrite state_eta.
  - apply insert_present; [done|by apply bst_insert|by apply avl_insert| |].
    + apply inorder_insert_new.
    + pose proof (depth_insert (alloc (mem s)) t v) as Hd. fold t1 in Hd. lia.
Qed.

Lemma insert_twice_is_insert_once_witness :
  exists s1,
    op_insert 5 6 seven_state = Done (tt, s1)
    /\ op_insert 5 6 s1 = Done (tt, s1).
Proof.
  assert (represents seven_state seven_tree) as Hrep.
  { split; [reflexivity|]. split.
    - apply (bool_decide_unpack _). vm_compute. exact I.
    - vm_compute. repeat split. }
  assert (bst seven_tree) as Hbst
    by (simpl; repeat (split || constructor || lia)).
  assert (avl seven_tree) as Havl by (simpl; repeat (split || lia)).
  assert (depth seven_tree + 2 <= 5)%nat as Hfuel by (vm_compute; lia).
  exact (insert_twice_is_insert_once seven_state seven_tree 6 5
           Hrep Hbst Havl Hfuel).
Defined.

(** X22. On a state that holds a search tree of [elements] nodes, every
    value that [kSmallest] returns is found by [search], and the value for
    [k = 1] is the value of the node that [minValueNode] returns for the
    root. *)
Theorem kSmallest_agrees_with_search_and_minValueNode s t fuel k :
  represents s t ->
  bst t ->
  elements s = tree_size t ->
  1 <= k <= elements s ->
  (2 * length (inorder t) <= fuel)%nat ->
  exists x,
    kSmallest fuel (root s) k s = Done (x, s)
    /\ (exists a l r,
          search fuel (root s) x s = Done (Some a, s)
          /\ mem s !! a = Some (mk_node x l r))
    /\ (k = 1 ->
        exists b p,
          minValueNode fuel (root s) s = Done (Some b, s)
          /\ mem s !! b = Some (mk_node x None p)).
Proof.
  intros (Hroot & Hnd & Hst) Hbst He Hk Hfuel. rewrite Hroot.
  pose proof (depth_le_size t) as Hd. unfold tree_size in He.
  exists (nth (Z.to_nat (k - 1)) (inorder t) INT_MIN). split_and!.
  - by apply kSmallest_tree.
  - destruct (search_present s t (nth (Z.to_nat (k - 1)) (inorder t) INT_MIN)
                fuel Hst Hbst) as (a & l & r & Hs & _ & Hn); [|lia|].
    { apply list_elem_of_In, nth_In. lia. }
    by exists a, l, r.
  - intros ->. destruct t as [|l a v r]; [simpl in *; lia|].
    destruct (minValueNode_tree s l a v r fuel Hst ltac:(lia))
      as (b & x & p & rest & Hmin & _ & Hn & Hin).
    exists b, p. split; [done|]. rewrite Hin. done.
Qed.

Lemma kSmallest_agrees_with_search_and_minValueNode_witness :
  exists x,
    kSmallest 14 (root seven_state) 1 seven_state = Done (x, seven_state)
    /\ (exists a l r,
          search 14 (root seven_state) x seven_state = Done (Some a, seven_state)
          /\ mem seven_state !! a = Some (mk_node x l r))
    /\ (1 = 1 ->
        exists b p,
          minValueNode 14 (root seven_state) seven_state
          = Done (Some b, seven_state)
          /\ mem seven_state !! b = Some (mk_node x None p)).
Proof.
  assert (represents seven_state seven_tree) as Hrep.
  { split; [reflexivity|]. split.
    - apply (bool_decide_unpack _). vm_compute. exact I.
    - vm_compute. repeat split. }
  assert (bst seven_tree) as Hbst
    by (simpl; repeat (split || constructor || lia)).
  assert (elements seven_state = tree_size seven_tree) as He by reflexivity.
  assert (1 <= 1 <= elements seven_state) as Hk
    by (vm_compute; split; discriminate).
  assert (2 * length (inorder seven_tree) <= 14)%nat as Hfuel
    by (vm_compute; lia).
  exact (kSmallest_agrees_with_search_and_minValueNode seven_state
           seven_tree 14 1 Hrep Hbst He Hk Hfuel).
Defined.

(** *** [kSmallest] when [elements] is the number of nodes *)

(** X23. On a state that holds a search tree whose size is [elements],
    [kSmallest] throws exactly when [k < 1] or [k > elements], returns for
    every [k] from 1 to [elements] the [k]-th key in order and, run for
    [k = 1 .. elements], yields the in-order key sequence, which is strictly
    ascending. *)
Theorem kSmallest_kth_in_order s t fuel :
  represents s t ->
  bst t ->
  elements s = tree_size t ->
  (2 * length (inorder t) <= fuel)%nat ->
  (forall k, kSmallest fuel (root s) k s = InvalidArgument
             <-> k < 1 \/ k > elements s)
  /\ (forall k, 1 <= k <= elements s ->
        kSmallest fuel (root s) k s
        = Done (nth (Z.to_nat (k - 1)) (inorder t) INT_MIN, s))
  /\ map (fun i => kSmallest fuel (root s) (Z.of_nat i) s)
       (seq 1 (Z.to_nat (elements s)))
     = map (fun x => Done (x, s)) (inorder t)
  /\ StronglySorted Z.lt (inorder t).
Proof.
  intros (Hroot & Hnd & Hst) Hbst He Hfuel. rewrite Hroot.
  split; [intros k; apply kSmallest_throws_iff|].
  assert (forall k, 1 <= k <= elements s ->
            kSmallest fuel (tree_root t) k s
            = Done (nth (Z.to_nat (k - 1)) (inorder t) INT_MIN, s)) as Hkth.
  { intros k Hk. by apply kSmallest_tree. }
  split; [exact Hkth|]. split; [|by apply bst_sorted].
  rewrite He. unfold tree_size. rewrite Nat2Z.id.
  apply (nth_ext _ _ OutOfFuel OutOfFuel).
  { by rewrite !length_map, length_seq. }
  intros i Hi. rewrite length_map, length_seq in Hi.
  rewrite (nth_indep _ OutOfFuel
             (kSmallest fuel (tree_root t) (Z.of_nat 0) s))
    by (by rewrite length_map, length_seq).
  rewrite (map_nth (fun i => kSmallest fuel (tree_root t) (Z.of_nat i) s)).
  rewrite seq_nth by done.
  rewrite (nth_indep _ OutOfFuel (Done (INT_MIN, s)))
    by (by rewrite length_map).
  rewrite (map_nth (fun x => Done (x, s))).
  rewrite Hkth by (unfold tree_size in He; lia).
  do 3 f_equal. lia.
Qed.

(** Scenario D of the specification: the fourth key of 5, 3, 8, 1, 4, 7, 9
    is 5. *)
Lemma kSmallest_kth_in_order_witness :
  kSmallest 14 (root seven_state) 4 seven_state = Done (5, seven_state).
Proof.
  assert (represents seven_state seven_tree) as Hrep.
  { split; [reflexivity|]. split.
    - apply (bool_decide_unpack _). vm_compute. exact I.
    - vm_compute. repeat split. }
  assert (bst seven_tree) as Hbst
    by (simpl; repeat (split || constructor || lia)).
  assert (elements seven_state = tree_size seven_tree) as He by reflexivity.
  assert (2 * length (inorder seven_tree) <= 14)%nat as Hfuel
    by (vm_compute; lia).
  pose proof (kSmallest_kth_in_order seven_state seven_tree 14
                Hrep Hbst He Hfuel)
    as (_ & Hkth & _).
  apply (Hkth 4). vm_compute. split; discriminate.
Defined.
